(** * Bone-graph reconstruction and physics-rig mapping of [blender/asset.py]

    A shallow embedding of [search_env_meshes] (the depth-first rebuild of
    the bone hierarchy with its two lookup tables) and of
    [import_armature_physics_constraints] (the mapping of the physics
    descriptors onto rigid bodies and constraints of the host scene),
    followed by the properties of the specification that concern them. *)

From Stdlib Require Import ZArith QArith Lia.
From stdpp Require Import base option list gmap strings.

Local Open Scope string_scope.
Local Open Scope list_scope.
Local Open Scope nat_scope.

Set Warnings "-register-all".

(** ** Numbers of the host

    Python floats, the host's matrices and the operations on them that the
    module uses are kept abstract. *)

Class FloatOps := {
  float : Type;
  Matrix : Type;
  float_lit : Q -> float;                   (* a numeric literal *)
  float_mul : float -> float -> float;      (* [a * b] *)
  radians : float -> float;                 (* [math.radians] *)
  mat_mul : Matrix -> Matrix -> Matrix      (* [a @ b] *)
}.

(** ** Names of the host

    The host keeps the names of its objects short and unique: it stores at
    most 63 bytes of a name, and an object asked to be called as another
    one is given a name no object has. How it picks that name is kept
    abstract; what is used of it is that a name of at most 63 bytes that
    no object has is stored as it is, and that the stored name is new.
    Strings are byte strings, so [String.length] counts bytes. *)

Class HostNames := {
  (* the name stored for an object asked to be called [nm] when the
     other objects are called [used] *)
  stored_name : string -> list string -> string;
  stored_name_keeps : forall nm used,
    nm <> "" -> String.length nm <= 63 -> nm ∉ used -> stored_name nm used = nm;
  stored_name_fresh : forall nm used, stored_name nm used ∉ used
}.

(** ** Exceptions *)

Inductive PyExn :=
  | KeyError (key : string)      (* a failed subscript; the key is printed *)
  | PathIdKeyError (key : Z)     (* a failed subscript of [path_id_tbl] *)
  | TypeError (what : string).

Inductive Result (A : Type) :=
  | Ok (a : A)
  | Raise (e : PyExn).
Arguments Ok {A} a.
Arguments Raise {A} e.

Definition bind {A B} (m : Result A) (k : A -> Result B) : Result B :=
  match m with
  | Ok a => k a
  | Raise e => Raise e
  end.

Notation "'let!' x ':=' m 'in' k" := (bind m (fun x => k))
  (at level 10, x pattern, m at level 100, k at level 200).

(** [for x in xs: body], threading the state and stopping at the first
    exception. *)
Fixpoint for_each {A S} (body : A -> S -> Result S) (xs : list A) (s : S) : Result S :=
  match xs with
  | [] => Ok s
  | x :: xs' => let! s' := body x s in for_each body xs' s'
  end.

(** ** The name hash *)

Definition crc32_shift (crc : Z) : Z :=
  if Z.testbit crc 0 then Z.lxor (Z.shiftr crc 1) 0xEDB88320%Z else Z.shiftr crc 1.

Definition crc32_update (crc byte : Z) : Z :=
  Nat.iter 8 crc32_shift (Z.lxor crc byte).

Definition crc32 (bytes : list Z) : Z :=
  Z.lxor (fold_left crc32_update bytes 0xFFFFFFFF%Z) 0xFFFFFFFF%Z.

Definition string_bytes (s : string) : list Z :=
  map (fun c => Z.of_nat (Ascii.nat_of_ascii c)) (String.list_ascii_of_string s).

(** Modelled from the spec: [get_name_hash] is imported from the package
    and is not in this file. The spec fixes it as the standard 32-bit
    cyclic-redundancy hash over the bytes of the path string (and the file
    calls it the CRC32 hash of the full bone path). *)
Definition get_name_hash (path : string) : Z := crc32 (string_bytes path).

(** ** Enumerations *)

Module ClassIDType.

Inductive t := GameObject | Transform | MonoBehaviour | AnimationClip | Other (id : Z).

#[global] Instance class_id_eq_dec : EqDecision t.
Proof. solve_decision. Defined.

End ClassIDType.

Module BonePhysicsType.

Inductive t := Bone | SpringBone | Collider | SphereCollider | CapsuleCollider | SpringManager.

#[global] Instance phy_type_eq_dec : EqDecision t.
Proof. solve_decision. Defined.

(** Modelled from the spec: the enumeration is declared outside this file.
    [ty & Collider] is taken to hold for the collider kinds and
    [ty & Bone] for the spring-bone kinds, the classification of the
    descriptors into collider, spring-bone and spring-manager. The mapper
    acts on the sphere collider, the capsule collider and the spring bone
    only, so it does not depend on the flags of the other kinds. *)
Definition has_flag (ty flag : t) : bool :=
  match flag, ty with
  | Collider, (Collider | SphereCollider | CapsuleCollider) => true
  | Bone, (Bone | SpringBone) => true
  | _, _ => bool_decide (ty = flag)
  end.

End BonePhysicsType.

Section Model.
Context {F : FloatOps} {N : HostNames}.

(** ** The engine's objects (input) *)

Record Vector3 := { vx : float; vy : float; vz : float }.
Record Quaternion := { qx : float; qy : float; qz : float; qw : float }.

Record AngularLimits := { lim_min : float; lim_max : float }.

(** The field dictionary of a script component ([read_typetree]): the
    fields the module reads. [pivotNode] is the [m_PathID] under the key
    ['pivotNode'], [None] when the key is absent. *)
Record TypeTree := {
  tt_radius : float;
  tt_height : float;
  tt_angularStiffness : float;
  tt_yAngleLimits : AngularLimits;
  tt_zAngleLimits : AngularLimits;
  pivotNode : option Z
}.

Record MonoScript := { script_name : string }.

(** A component of a GameObject. [m_Script] is [None] for a null (falsy)
    script pointer; both fields are read for MonoBehaviours only. *)
Record Component := {
  comp_type : ClassIDType.t;
  m_Script : option MonoScript;
  read_typetree : TypeTree
}.

(** [m_MeshRenderer] and [m_SkinnedMeshRenderer] hold the path id of the
    renderer; [None] when the attribute is absent or the pointer is null,
    the two cases [getattr(.., None)] treats alike. *)
Record GameObject := {
  m_Name : string;
  m_MeshRenderer : option Z;
  m_SkinnedMeshRenderer : option Z;
  m_Components : list Component
}.

(** A Transform with its children read. [m_Father] is the path id of the
    parent pointer, 0 at a root. *)
Inductive Transform := mkTransform {
  path_id : Z;
  m_Father : Z;
  m_GameObject : GameObject;
  m_LocalPosition : Vector3;
  m_LocalRotation : Quaternion;
  m_LocalScale : Vector3;
  m_Children : list Transform
}.

Inductive EnvObject :=
  | ObjGameObject (data : GameObject)
  | ObjTransform (data : Transform)
  | ObjOther (type : ClassIDType.t).

Definition Environment := list EnvObject.

(** ** The reconstructed objects (output) *)

(** Modelled from the spec: [BonePhysics] is declared outside this file;
    it is the tagged descriptor with the fields the module reads. *)
Record BonePhysics := {
  phy_type : BonePhysicsType.t;
  radius : float;
  height : float;
  pivot : option string;
  angularStiffness : float;
  yAngleLimits : AngularLimits;
  zAngleLimits : AngularLimits
}.

(** Modelled from the spec: [BonePhysics.from_dict] builds the descriptor
    from the component's field dictionary; the caller sets the type and the
    pivot afterwards. *)
Definition from_dict (physics : TypeTree) (ty : BonePhysicsType.t) (pv : option string) : BonePhysics :=
  {| phy_type := ty;
     radius := tt_radius physics;
     height := tt_height physics;
     pivot := pv;
     angularStiffness := tt_angularStiffness physics;
     yAngleLimits := tt_yAngleLimits physics;
     zAngleLimits := tt_zAngleLimits physics |}.

(** Bones are mutable objects that refer to each other: a Bone is a cell of
    a store, and a reference to a Bone is the index of its cell. The field
    order is that of the constructor call in [dfs]. *)
Record Bone := {
  name : string;
  localPosition : Vector3;
  localRotation : Quaternion;
  localScale : Vector3;
  parent : option nat;
  children : list nat;
  global_path : string;
  global_transform : option Matrix;
  physics : option BonePhysics
}.

Record Armature := {
  arm_name : string;
  skinned_mesh_gameobject : option GameObject;
  root : option nat;
  bone_path_hash_tbl : gmap Z nat;
  bone_name_tbl : gmap string nat
}.

(** ** [search_env_meshes] *)

#[global] Instance float_inhabited : Inhabited float := populate (float_lit 0).
#[global] Instance Vector3_inhabited : Inhabited Vector3 :=
  populate {| vx := inhabitant; vy := inhabitant; vz := inhabitant |}.
#[global] Instance Quaternion_inhabited : Inhabited Quaternion :=
  populate {| qx := inhabitant; qy := inhabitant; qz := inhabitant; qw := inhabitant |}.
#[global] Instance Bone_inhabited : Inhabited Bone :=
  populate {| name := ""; localPosition := inhabitant; localRotation := inhabitant;
              localScale := inhabitant; parent := None; children := [];
              global_path := ""; global_transform := None; physics := None |}.

(** The state the closure [dfs] works on: the store of the Bones built so
    far, the local [path_id_tbl] and the armature under construction. *)
Record DfsState := {
  bones : list Bone;
  path_id_tbl : gmap Z nat;
  armature : Armature
}.

(** The four tests on [physicsScript.name], in the order of the source. *)
Definition script_phy_type (script : string) : option BonePhysicsType.t :=
  let phy_type := None in
  let phy_type := if String.eqb script "SpringSphereCollider"
                  then Some BonePhysicsType.SphereCollider else phy_type in
  let phy_type := if String.eqb script "SpringCapsuleCollider"
                  then Some BonePhysicsType.CapsuleCollider else phy_type in
  let phy_type := if String.eqb script "SekaiSpringBone"
                  then Some BonePhysicsType.SpringBone else phy_type in
  let phy_type := if String.eqb script "SpringManager"
                  then Some BonePhysicsType.SpringManager else phy_type in
  phy_type.

(** The body of [for component in gameObject.m_Components]; the state of
    the loop is the variable [bonePhysics]. *)
Definition scan_component (bones : list Bone) (path_id_tbl : gmap Z nat)
    (component : Component) (bonePhysics : option BonePhysics) : Result (option BonePhysics) :=
  match comp_type component with
  | ClassIDType.MonoBehaviour =>
      match m_Script component with
      | Some physicsScript =>
          let physics := read_typetree component in
          match script_phy_type (script_name physicsScript) with
          | Some phy_type =>
              match pivotNode physics with
              | Some pivot_id =>
                  match path_id_tbl !! pivot_id with
                  | Some b => Ok (Some (from_dict physics phy_type (Some (name (bones !!! b)))))
                  | None => Raise (PathIdKeyError pivot_id)
                  end
              | None => Ok (Some (from_dict physics phy_type None))
              end
          | None => Ok bonePhysics
          end
      | None => Ok bonePhysics
      end
  | _ => Ok bonePhysics
  end.

(** Truth value of a Python string. *)
Definition str_bool (s : string) : bool :=
  match s with
  | EmptyString => false
  | String _ _ => true
  end.

Definition path_from_root_of (bones : list Bone) (parent : option nat) (name : string) : string :=
  match parent with
  | Some p =>
      if str_bool (global_path (bones !!! p))
      then global_path (bones !!! p) +:+ "/" +:+ name
      else name
  | None => ""
  end.

(** [parent.children.append(bone)] *)
Definition append_child (bone : nat) (p : Bone) : Bone :=
  {| name := name p; localPosition := localPosition p; localRotation := localRotation p;
     localScale := localScale p; parent := parent p; children := children p ++ [bone];
     global_path := global_path p; global_transform := global_transform p;
     physics := physics p |}.

(** One call of [dfs] up to its loop over the children: builds the Bone of
    the transform (the source's argument [root], here [node]), registers it
    and returns its reference. *)
Definition dfs_node (node : Transform) (parent : option nat) (s : DfsState)
    : Result (nat * DfsState) :=
  let gameObject := m_GameObject node in
  let name := m_Name gameObject in
  let skinned :=
    match m_SkinnedMeshRenderer gameObject with
    | Some _ => Some gameObject
    | None => skinned_mesh_gameobject (armature s)
    end in
  let path_from_root := path_from_root_of (bones s) parent name in
  let! bonePhysics :=
    for_each (scan_component (bones s) (path_id_tbl s)) (m_Components gameObject) None in
  let bone := length (bones s) in
  let cell :=
    {| name := name; localPosition := m_LocalPosition node;
       localRotation := m_LocalRotation node; localScale := m_LocalScale node;
       parent := parent; children := []; global_path := path_from_root;
       global_transform := None; physics := bonePhysics |} in
  Ok (bone,
      {| bones :=
           match parent with
           | None => bones s ++ [cell]
           | Some p => alter (append_child bone) p (bones s ++ [cell])
           end;
         path_id_tbl := <[path_id node := bone]> (path_id_tbl s);
         armature :=
           {| arm_name := arm_name (armature s);
              skinned_mesh_gameobject := skinned;
              root := match parent with
                      | None => Some bone
                      | Some _ => root (armature s)
                      end;
              bone_path_hash_tbl :=
                <[get_name_hash path_from_root := bone]> (bone_path_hash_tbl (armature s));
              bone_name_tbl := <[name := bone]> (bone_name_tbl (armature s)) |} |}).

Fixpoint dfs (node : Transform) (parent : option nat) (s : DfsState) {struct node}
    : Result DfsState :=
  match dfs_node node parent s with
  | Ok (bone, s1) => for_each (fun child => dfs child (Some bone)) (m_Children node) s1
  | Raise e => Raise e
  end.

(** The body of [for root in transform_roots] up to the test on
    [armature.skinned_mesh_gameobject]. *)
Definition build_armature (root : Transform) : Result DfsState :=
  dfs root None
    {| bones := [];
       path_id_tbl := ∅;
       armature := {| arm_name := m_Name (m_GameObject root);
                      skinned_mesh_gameobject := None;
                      root := None;
                      bone_path_hash_tbl := ∅;
                      bone_name_tbl := ∅ |} |}.

(** The first loop, over [env.objects]. *)
Definition collect_object (obj : EnvObject) (acc : list GameObject * list Transform)
    : list GameObject * list Transform :=
  match obj with
  | ObjGameObject data =>
      match m_MeshRenderer data with
      | Some _ => (acc.1 ++ [data], acc.2)
      | None => acc
      end
  | ObjTransform data =>
      if (m_Father data =? 0)%Z then (acc.1, acc.2 ++ [data]) else acc
  | ObjOther _ => acc
  end.

(** An armature as returned: the Armature object and the Bones it refers
    to (the store of its traversal; armatures share no Bone). *)
Definition search_env_meshes (env : Environment)
    : Result (list GameObject * list (Armature * list Bone)) :=
  let '(static_mesh_gameobjects, transform_roots) :=
    fold_left (fun acc obj => collect_object obj acc) env ([], []) in
  let! armatures :=
    for_each (fun root armatures =>
                let! s := build_armature root in
                match skinned_mesh_gameobject (armature s) with
                | Some _ => Ok (armatures ++ [(armature s, bones s)])
                | None => Ok armatures
                end) transform_roots [] in
  Ok (static_mesh_gameobjects, armatures).

(** ** The finished bone tree, as the physics mapper reads it *)

(** The mapper only reads the Bones; it sees the store through the tree
    that the child lists unfold to. *)
Inductive BoneTree := BoneNode {
  bt_bone : Bone;
  bt_children : list BoneTree
}.

(** The tree under the Bone [b] of a store, unfolded to depth [fuel]. *)
Fixpoint bone_tree (fuel : nat) (bones : list Bone) (b : nat) : BoneTree :=
  match fuel with
  | O => BoneNode (bones !!! b) []
  | S fuel' => BoneNode (bones !!! b) (map (bone_tree fuel' bones) (children (bones !!! b)))
  end.

(** Modelled from the spec: [Bone.dfs_generator] is declared outside this
    file. It yields [(parent, child, depth)] for every bone of the tree,
    depth first and parents before children. *)
Fixpoint dfs_generator_from (parent : option Bone) (depth : nat) (t : BoneTree)
    : list (option Bone * Bone * nat) :=
  (parent, bt_bone t, depth)
    :: flat_map (dfs_generator_from (Some (bt_bone t)) (S depth)) (bt_children t).

Definition dfs_generator (t : BoneTree) : list (option Bone * Bone * nat) :=
  dfs_generator_from None 0 t.

Definition first_some {A B} (f : A -> option B) : list A -> option B :=
  fix go xs :=
    match xs with
    | [] => None
    | x :: xs' => match f x with
                  | Some r => Some r
                  | None => go xs'
                  end
    end.

(** Modelled from the spec: [Bone.recursive_locate_by_name] is declared
    outside this file. It locates the bone of the given name in the tree,
    the first one in depth-first order, [None] when there is none. *)
Fixpoint recursive_locate_by_name (t : BoneTree) (nm : string) : option BoneTree :=
  if String.eqb (name (bt_bone t)) nm then Some t
  else first_some (fun c => recursive_locate_by_name c nm) (bt_children t).

(** ** The host scene *)

Inductive ObjRef :=
  | ArmatureRef            (* the armature object passed to the mapper *)
  | SceneRef (i : nat).    (* an object of the scene, by its position *)

Inductive ObjectData :=
  | UVSphere (r : float)
  | Cylinder (r depth : float)
  | Empty.

(** The settings below are [None] as long as the module has not assigned
    them, that is, while they are at the host's default. *)
Record RigidBody := {
  rb_type : option string;
  collision_shape : option string;
  kinematic : option bool;
  collision_collections_0 : option bool
}.

Record RigidBodyConstraint := {
  ct_type : string;
  use_limit_lin_x : option bool;
  use_limit_lin_y : option bool;
  use_limit_lin_z : option bool;
  limit_lin_x_lower : option float;
  limit_lin_x_upper : option float;
  limit_lin_y_lower : option float;
  limit_lin_y_upper : option float;
  limit_lin_z_lower : option float;
  limit_lin_z_upper : option float;
  use_limit_ang_x : option bool;
  use_limit_ang_y : option bool;
  use_limit_ang_z : option bool;
  limit_ang_x_lower : option float;
  limit_ang_x_upper : option float;
  limit_ang_y_lower : option float;
  limit_ang_y_upper : option float;
  limit_ang_z_lower : option float;
  limit_ang_z_upper : option float;
  use_spring_ang_x : option bool;
  use_spring_ang_y : option bool;
  use_spring_ang_z : option bool;
  spring_stiffness_x : option float;
  spring_stiffness_y : option float;
  spring_stiffness_z : option float;
  object1 : option nat;
  object2 : option nat
}.

Record Object := {
  ob_name : string;
  ob_data : ObjectData;
  rigid_body : option RigidBody;
  rigid_body_constraint : option RigidBodyConstraint;
  ob_parent : option ObjRef;
  parent_bone : option string;
  parent_type : option string;
  empty_display_size : option float;
  empty_display_type : option string;
  matrix_world : option Matrix
}.

(** The armature object handed to the mapper: its name, its world matrix
    and the matrix of each of its pose bones. *)
Record ArmatureObject := {
  ao_name : string;
  ao_matrix_world : Matrix;
  pose_bones : gmap string Matrix
}.

(** The part of the host the mapper works on. [objects] are the objects
    of the file, all of them in the scene, in the order of their creation
    and under the names the host has stored for them; [pose_constraints]
    are the COPY_TRANSFORMS constraints of the armature's pose bones, as
    [(bone, target)]. *)
Record Host := {
  objects : list Object;
  active : option ObjRef;
  mode : option string;
  pose_constraints : list (string * nat)
}.

(** [name in bpy.context.scene.objects] and
    [bpy.context.scene.objects[name]]: the first object of that name. *)
Definition scene_lookup (nm : string) (objs : list Object) : option nat :=
  fst <$> list_find (fun o => ob_name o = nm) objs.

(** [obj.name = nm] on a new object, or [bpy.data.objects.new(nm, ..)]:
    the name the host stores for it among the objects [objs]. *)
Definition host_name (nm : string) (objs : list Object) : string :=
  stored_name nm (ob_name <$> objs).

(** The state of the mapper: the host and the dict [target_rigid_bodies],
    in insertion order. *)
Record MapState := {
  host : Host;
  target_rigid_bodies : list (string * nat)
}.

(** [d[k] = v] on a dict kept in insertion order. *)
Fixpoint dict_set (k : string) (v : nat) (d : list (string * nat)) : list (string * nat) :=
  match d with
  | [] => [(k, v)]
  | (k', v') :: d' => if String.eqb k' k then (k, v) :: d' else (k', v') :: dict_set k v d'
  end.

(** ** [import_armature_physics_constraints] *)

Definition PIVOT_SIZE : float := float_lit (4 # 1000).
Definition SPHERE_RADIUS_FACTOR : float := float_lit (5 # 10).
Definition CAPSULE_RADIUS_FACTOR : float := float_lit 1.
Definition CAPSULE_HEIGHT_FACTOR : float := float_lit 1.
Definition SPRINGBONE_RADIUS_FACTOR : float := float_lit (5 # 10).

(** The host operators are taken as total: an operator that adds an
    object appends it to the scene and makes it the active object, and the
    assignments that follow fill it in. The model builds the object with
    the assigned values, its name as the host stores it, and then adds
    it. *)
Definition add_object (cell : Object) (h : Host) : Host :=
  {| objects := objects h ++ [cell];
     active := Some (SceneRef (length (objects h)));
     mode := mode h;
     pose_constraints := pose_constraints h |}.

(** How an f-string prints a name that may be [None]. *)
Definition py_str (s : option string) : string :=
  match s with
  | Some s => s
  | None => "None"
  end.

Definition get_rb_name (armature : ArmatureObject) (bone_name : option string)
    (is_pivot : bool) : string :=
  ao_name armature +:+ "_" +:+ py_str bone_name +:+ "_"
    +:+ (if is_pivot then "pivot" else "target") +:+ "_rigidbody".

(** [ensure_bone_rigidbody]. [bone_name] is a string for the target; for
    the pivot it is [child.physics.pivot], which is [None] when the
    descriptor names no pivot: the host then rejects the assignment to
    [parent_bone]. The test looks for [fullname]; the new object is
    stored under [host_name fullname], and the dict is keyed by the name
    read back from the object. *)
Definition ensure_bone_rigidbody (armature : ArmatureObject) (bone_name : option string)
    (is_pivot : bool) (r : float) (st : MapState) : Result (nat * MapState) :=
  let fullname := get_rb_name armature bone_name is_pivot in
  match scene_lookup fullname (objects (host st)) with
  | None =>
      let obj := length (objects (host st)) in
      match bone_name with
      | None => Raise (TypeError (if is_pivot then "parent_bone" else "pose.bones"))
      | Some bn =>
          if is_pivot then
            let cell :=
              {| ob_name := host_name fullname (objects (host st));
                 ob_data := UVSphere r;
                 rigid_body := Some {| rb_type := Some "ACTIVE";
                                       collision_shape := Some "SPHERE";
                                       kinematic := Some true;
                                       collision_collections_0 := Some false |};
                 rigid_body_constraint := None;
                 ob_parent := Some ArmatureRef;
                 parent_bone := Some bn;
                 parent_type := Some "BONE";
                 empty_display_size := None;
                 empty_display_type := None;
                 matrix_world := None |} in
            Ok (obj, {| host := add_object cell (host st);
                        target_rigid_bodies := target_rigid_bodies st |})
          else
            match pose_bones armature !! bn with
            | None => Raise (KeyError bn)
            | Some pbone_matrix =>
                let cell :=
                  {| ob_name := host_name fullname (objects (host st));
                     ob_data := UVSphere r;
                     rigid_body := Some {| rb_type := Some "ACTIVE";
                                           collision_shape := Some "SPHERE";
                                           kinematic := Some false;
                                           collision_collections_0 := Some true |};
                     rigid_body_constraint := None;
                     ob_parent := Some ArmatureRef;
                     parent_bone := None;
                     parent_type := None;
                     empty_display_size := None;
                     empty_display_type := None;
                     matrix_world := Some (mat_mul (ao_matrix_world armature) pbone_matrix) |} in
                Ok (obj, {| host := {| objects := objects (host st) ++ [cell];
                                       active := Some ArmatureRef;
                                       mode := Some "POSE";
                                       pose_constraints := pose_constraints (host st) |};
                            target_rigid_bodies :=
                              dict_set (ob_name cell) obj (target_rigid_bodies st) |})
            end
      end
  | Some obj => Ok (obj, st)
  end.

(** The constraint of a spring-bone joint, as the assignments to [ct]
    leave it. *)
Definition spring_bone_constraint (phy : BonePhysics) (pivot_body target_body : nat)
    : RigidBodyConstraint :=
  {| ct_type := "GENERIC_SPRING";
     use_limit_lin_x := Some true;
     use_limit_lin_y := Some true;
     use_limit_lin_z := Some true;
     limit_lin_x_lower := Some (float_lit 0);
     limit_lin_x_upper := Some (float_lit 0);
     limit_lin_y_lower := Some (float_lit 0);
     limit_lin_y_upper := Some (float_lit 0);
     limit_lin_z_lower := Some (float_lit 0);
     limit_lin_z_upper := Some (float_lit 0);
     use_limit_ang_x := Some false;
     use_limit_ang_y := Some true;
     use_limit_ang_z := Some true;
     limit_ang_x_lower := None;
     limit_ang_x_upper := None;
     limit_ang_y_lower := Some (radians (lim_min (zAngleLimits phy)));
     limit_ang_y_upper := Some (radians (lim_max (zAngleLimits phy)));
     limit_ang_z_lower := Some (radians (lim_min (yAngleLimits phy)));
     limit_ang_z_upper := Some (radians (lim_max (yAngleLimits phy)));
     use_spring_ang_x := Some true;
     use_spring_ang_y := Some true;
     use_spring_ang_z := Some true;
     spring_stiffness_x := None;
     spring_stiffness_y := Some (angularStiffness phy);
     spring_stiffness_z := Some (angularStiffness phy);
     object1 := Some pivot_body;
     object2 := Some target_body |}.

(** An empty object with a GENERIC_SPRING constraint whose settings are
    all at the host's default: what [bpy.ops.rigidbody.constraint_add]
    leaves, before any assignment. *)
Definition default_constraint (o1 o2 : option nat) : RigidBodyConstraint :=
  {| ct_type := "GENERIC_SPRING";
     use_limit_lin_x := None; use_limit_lin_y := None; use_limit_lin_z := None;
     limit_lin_x_lower := None; limit_lin_x_upper := None;
     limit_lin_y_lower := None; limit_lin_y_upper := None;
     limit_lin_z_lower := None; limit_lin_z_upper := None;
     use_limit_ang_x := None; use_limit_ang_y := None; use_limit_ang_z := None;
     limit_ang_x_lower := None; limit_ang_x_upper := None;
     limit_ang_y_lower := None; limit_ang_y_upper := None;
     limit_ang_z_lower := None; limit_ang_z_upper := None;
     use_spring_ang_x := None; use_spring_ang_y := None; use_spring_ang_z := None;
     spring_stiffness_x := None; spring_stiffness_y := None; spring_stiffness_z := None;
     object1 := o1; object2 := o2 |}.

(** [bpy.data.objects.new(nm, None)] among the objects [objs], once
    linked, parented and given its constraint. *)
Definition joint_object (objs : list Object) (nm : string) (parent_obj : nat)
    (ct : RigidBodyConstraint) : Object :=
  {| ob_name := host_name nm objs;
     ob_data := Empty;
     rigid_body := None;
     rigid_body_constraint := Some ct;
     ob_parent := Some (SceneRef parent_obj);
     parent_bone := None;
     parent_type := None;
     empty_display_size := Some (float_lit (1 # 10));
     empty_display_type := Some "ARROWS";
     matrix_world := None |}.

(** The branch [child.physics.type == BonePhysicsType.SpringBone]. *)
Definition add_spring_bone (armature : ArmatureObject) (child : Bone) (phy : BonePhysics)
    (st : MapState) : Result MapState :=
  match ensure_bone_rigidbody armature (pivot phy) true PIVOT_SIZE st with
  | Raise e => Raise e
  | Ok (pivot_body, st1) =>
      match ensure_bone_rigidbody armature (Some (name child)) false
              (float_mul (radius phy) SPRINGBONE_RADIUS_FACTOR) st1 with
      | Raise e => Raise e
      | Ok (target_body, st2) =>
          let joint :=
            joint_object (objects (host st2)) "SpringBoneJoint" pivot_body
              (spring_bone_constraint phy pivot_body target_body) in
          match pose_bones armature !! name child with
          | None => Raise (KeyError (name child))
          | Some _ =>
              Ok {| host := {| objects := objects (host st2) ++ [joint];
                               active := Some ArmatureRef;
                               mode := Some "POSE";
                               pose_constraints :=
                                 pose_constraints (host st2) ++ [(name child, target_body)] |};
                    target_rigid_bodies := target_rigid_bodies st2 |}
          end
      end
  end.

(** The branch [child.physics.type & BonePhysicsType.Collider]. *)
Definition add_collider (child : Bone) (phy : BonePhysics) (h : Host) : Host :=
  let collider data shape (h : Host) :=
    {| ob_name := host_name (name child +:+ "_rigidbody") (objects h);
       ob_data := data;
       rigid_body := Some {| rb_type := Some "PASSIVE";
                             collision_shape := Some shape;
                             kinematic := Some true;
                             collision_collections_0 := None |};
       rigid_body_constraint := None;
       ob_parent := Some ArmatureRef;
       parent_bone := Some (name child);
       parent_type := Some "BONE";
       empty_display_size := None;
       empty_display_type := None;
       matrix_world := None |} in
  let h :=
    if decide (phy_type phy = BonePhysicsType.SphereCollider)
    then add_object
           (collider (UVSphere (float_mul (radius phy) SPHERE_RADIUS_FACTOR)) "SPHERE" h) h
    else h in
  if decide (phy_type phy = BonePhysicsType.CapsuleCollider)
  then add_object (collider (Cylinder (float_mul (radius phy) CAPSULE_RADIUS_FACTOR)
                                      (float_mul (height phy) CAPSULE_HEIGHT_FACTOR))
                            "CAPSULE" h) h
  else h.

(** The body of [for parent, child, _ in bone.dfs_generator()]. *)
Definition map_bone (armature : ArmatureObject) (item : option Bone * Bone * nat)
    (st : MapState) : Result MapState :=
  let child := item.1.2 in
  match physics child with
  | Some phy =>
      let st1 :=
        if BonePhysicsType.has_flag (phy_type phy) BonePhysicsType.Collider
        then {| host := add_collider child phy (host st);
                target_rigid_bodies := target_rigid_bodies st |}
        else st in
      if BonePhysicsType.has_flag (phy_type phy) BonePhysicsType.Bone
      then
        if decide (phy_type phy = BonePhysicsType.SpringBone)
        then add_spring_bone armature child phy st1
        else Ok st1
      else Ok st1
  | None => Ok st
  end.

Definition set_no_collision (obj parent_obj : nat) (h : Host) : Host :=
  add_object (joint_object (objects h) "NoCollisionJoint" parent_obj
                (default_constraint (Some obj) (Some parent_obj))) h.

(** The two nested loops over [rbs]. *)
Definition link_targets (rbs : list nat) (h : Host) : Host :=
  fold_left
    (fun h i =>
       fold_left (fun h j => set_no_collision (nth i rbs 0) (nth j rbs 0) h)
                 (seq (i + 1) (length rbs - (i + 1))) h)
    (seq 0 (length rbs)) h.

(** The first phase: the traversal from the located bone. *)
Definition map_bones (armature : ArmatureObject) (bone : option BoneTree) (st : MapState)
    : Result MapState :=
  match bone with
  | Some bone => for_each (map_bone armature) (dfs_generator bone) st
  | None => Ok st
  end.

(** [data_root] is the tree under [data.root]. *)
Definition import_armature_physics_constraints (armature : ArmatureObject)
    (data_root : BoneTree) (h : Host) : Result Host :=
  let h0 := {| objects := objects h;
               active := Some ArmatureRef;
               mode := Some "OBJECT";
               pose_constraints := pose_constraints h |} in
  let bone := recursive_locate_by_name data_root "Position" in
  let! st := map_bones armature bone {| host := h0; target_rigid_bodies := [] |} in
  match target_rigid_bodies st with
  | [] => Ok (host st)
  | _ :: _ => Ok (link_targets (map snd (target_rigid_bodies st)) (host st))
  end.

End Model.

(** * Vocabulary of the properties *)

Section Vocabulary.
Context {F : FloatOps}.

(** ** The traversal order *)

(** The transforms under [node] in depth-first pre-order, the order in
    which [dfs] visits them. *)
Fixpoint preorder (node : Transform) : list Transform :=
  node :: flat_map preorder (m_Children node).

Fixpoint tree_size (node : Transform) : nat :=
  S (list_sum (map tree_size (m_Children node))).

(** The calls of [dfs] under [dfs(node, parent)], in order, each with the
    reference of the parent Bone it receives, when the Bone of [node] is
    allocated at [base]. *)
Definition calls_of_children (calls : Transform -> option nat -> nat -> list (Transform * option nat))
    (p : nat) : list Transform -> nat -> list (Transform * option nat) :=
  fix go cs next :=
    match cs with
    | [] => []
    | c :: cs' => calls c (Some p) next ++ go cs' (next + tree_size c)
    end.

Fixpoint dfs_calls (node : Transform) (parent : option nat) (base : nat)
    : list (Transform * option nat) :=
  (node, parent) :: calls_of_children dfs_calls base (m_Children node) (S base).

(** The calls run one after the other. *)
Definition visit_all (calls : list (Transform * option nat)) (s : DfsState) : Result DfsState :=
  for_each (fun call s => let! r := dfs_node call.1 call.2 s in Ok r.2) calls s.

(** The state [dfs] starts from at a root. *)
Definition init_state (nm : string) : DfsState :=
  {| bones := [];
     path_id_tbl := ∅;
     armature := {| arm_name := nm;
                    skinned_mesh_gameobject := None;
                    root := None;
                    bone_path_hash_tbl := ∅;
                    bone_name_tbl := ∅ |} |}.

(** The position of the last element of [l] that satisfies [P]. *)
Fixpoint last_index_from {A} (P : A -> bool) (l : list A) (i : nat) (acc : option nat)
    : option nat :=
  match l with
  | [] => acc
  | x :: l' => last_index_from P l' (S i) (if P x then Some i else acc)
  end.

Definition last_index {A} (P : A -> bool) (l : list A) : option nat :=
  last_index_from P l 0 None.

(** The transform registered under a path id once [nodes] have been
    visited: the last of them with that path id. *)
Definition registered (nodes : list Transform) (pid : Z) : option nat :=
  last_index (fun node => bool_decide (path_id node = pid)) nodes.

(** What the lookup [path_id_tbl[pid].name] gives while the [i]-th
    transform of [nodes] is visited. *)
Definition pivot_name (nodes : list Transform) (i : nat) (pid : Z) : Result string :=
  match registered (take i nodes) pid with
  | Some j => match nodes !! j with
              | Some node => Ok (m_Name (m_GameObject node))
              | None => Raise (PathIdKeyError pid)
              end
  | None => Raise (PathIdKeyError pid)
  end.

(** ** Components *)

(** The physics kind of a component: that of its script when it is a
    MonoBehaviour with a script of a recognized name. *)
Definition component_phy_type (c : Component) : option BonePhysicsType.t :=
  match comp_type c with
  | ClassIDType.MonoBehaviour =>
      match m_Script c with
      | Some script => script_phy_type (script_name script)
      | None => None
      end
  | _ => None
  end.

(** The loop body of the component scan, over a given resolution of the
    pivots. *)
Definition scan_with (resolve : Z -> Result string) (c : Component)
    (acc : option BonePhysics) : Result (option BonePhysics) :=
  match component_phy_type c with
  | Some ty =>
      match pivotNode (read_typetree c) with
      | Some pid => let! nm := resolve pid in
                    Ok (Some (from_dict (read_typetree c) ty (Some nm)))
      | None => Ok (Some (from_dict (read_typetree c) ty None))
      end
  | None => Ok acc
  end.

(** The last component of a recognized kind. *)
Definition last_recognized (comps : list Component) : option Component :=
  last (filter (fun c => is_Some (component_phy_type c)) comps).

Definition recognized_scripts : list string :=
  ["SpringSphereCollider"; "SpringCapsuleCollider"; "SekaiSpringBone"; "SpringManager"].

(** The component has a script of one of the recognized names. *)
Definition recognized (c : Component) : Prop :=
  comp_type c = ClassIDType.MonoBehaviour /\
  exists script, m_Script c = Some script /\ script_name script ∈ recognized_scripts.

(** The GameObject carries a skinned mesh renderer. *)
Definition skinned (node : Transform) : bool :=
  bool_decide (is_Some (m_SkinnedMeshRenderer (m_GameObject node))).

(** Some transform under [root] carries a skinned mesh renderer. *)
Definition skinned_subtree (root : Transform) : bool :=
  existsb skinned (preorder root).

(** The descriptor the scan leaves for a component of a recognized kind,
    when its pivot resolves to [pivot_nm]. *)
Definition descriptor (c : Component) (pivot_nm : option string) : option BonePhysics :=
  match component_phy_type c with
  | Some ty => Some (from_dict (read_typetree c) ty pivot_nm)
  | None => None
  end.

(** ** The links of the store *)

(** The [n]-th ancestor of a Bone, following the [parent] links. *)
Fixpoint nth_ancestor (bones : list Bone) (n : nat) (b : nat) : option nat :=
  match n with
  | O => Some b
  | S n' => match bones !! b with
            | Some cell => match parent cell with
                           | Some p => nth_ancestor bones n' p
                           | None => None
                           end
            | None => None
            end
  end.

(** The Bones of the store whose [parent] is [b], in the order of their
    creation. *)
Definition child_refs (bones : list Bone) (b : nat) : list nat :=
  filter (fun j => parent <$> bones !! j = Some (Some b)) (seq 0 (length bones)).

(** Every call but the first receives a Bone built by an earlier call. *)
Definition wf_calls (calls : list (Transform * option nat)) : Prop :=
  forall i node p, calls !! i = Some (node, p) ->
    match p with
    | None => i = 0
    | Some q => q < i
    end.

(** The armature a final state of [dfs] is returned as. *)
Definition returned (s : DfsState) : Armature * list Bone := (armature s, bones s).

(** The roots and the static meshes the first loop collects. *)
Definition transform_roots (env : Environment) : list Transform :=
  omap (fun obj => match obj with
                   | ObjTransform data => if (m_Father data =? 0)%Z then Some data else None
                   | _ => None
                   end) env.

Definition static_meshes (env : Environment) : list GameObject :=
  omap (fun obj => match obj with
                   | ObjGameObject data => match m_MeshRenderer data with
                                           | Some _ => Some data
                                           | None => None
                                           end
                   | _ => None
                   end) env.

(** ** The scenario of the specification *)

(** A transform at the default placement. *)
Definition plain_transform (pid father : Z) (nm : string) (renderer : option Z)
    (comps : list Component) (cs : list Transform) : Transform :=
  mkTransform pid father
    {| m_Name := nm; m_MeshRenderer := None; m_SkinnedMeshRenderer := renderer;
       m_Components := comps |}
    inhabitant inhabitant inhabitant cs.

(** The forest Position -> Hips -> Spine, without components; the Spine
    carries the skinned mesh. *)
Definition spine_transform : Transform :=
  plain_transform 3 2 "Spine" (Some 4%Z) [] [].
Definition hips_transform : Transform :=
  plain_transform 2 1 "Hips" None [] [spine_transform].
Definition position_transform : Transform :=
  plain_transform 1 0 "Position" None [] [hips_transform].

Definition position_hips_spine : Environment :=
  [ObjTransform position_transform; ObjTransform hips_transform; ObjTransform spine_transform].

End Vocabulary.

Section RigVocabulary.
Context {F : FloatOps} {N : HostNames}.

(** The Bones of a tree, parents before children. *)
Fixpoint tree_bones (t : BoneTree) : list Bone :=
  bt_bone t :: flat_map tree_bones (bt_children t).

(** The pairs [(l[i], l[j])] with [i < j], in the order of the two nested
    loops. *)
Fixpoint all_pairs (l : list nat) : list (nat * nat) :=
  match l with
  | [] => []
  | a :: l' => map (pair a) l' ++ all_pairs l'
  end.

(** The joint [set_no_collision(obj, parent_obj)] adds to the objects
    [objs]. *)
Definition no_collision_joint (objs : list Object) (link : nat * nat) : Object :=
  joint_object objs "NoCollisionJoint" link.2 (default_constraint (Some link.1) (Some link.2)).

(** The objects are no-collision joints for the links, one each. *)
Definition no_collision_joints (news : list Object) (links : list (nat * nat)) : Prop :=
  Forall2 (fun o link => exists objs, o = no_collision_joint objs link) news links.

(** The rigid bodies [ensure_bone_rigidbody] creates are the active ones
    (colliders are passive, joints have none); the pivots among them are
    the kinematic ones. *)
Definition bone_body (o : Object) : bool :=
  match rigid_body o with
  | Some rb => bool_decide (rb_type rb = Some "ACTIVE")
  | None => false
  end.

Definition pivot_body (o : Object) : bool :=
  match rigid_body o with
  | Some rb => bool_decide (rb_type rb = Some "ACTIVE" /\ kinematic rb = Some true)
  | None => false
  end.

Definition target_body (o : Object) : bool :=
  match rigid_body o with
  | Some rb => bool_decide (rb_type rb = Some "ACTIVE" /\ kinematic rb = Some false)
  | None => false
  end.

(** The objects of [h'] that were not in the scene [h]. *)
Definition new_objects (h h' : Host) : list Object :=
  drop (length (objects h)) (objects h').

(** What the mapper does to the host before it looks for the root bone. *)
Definition object_mode (h : Host) : Host :=
  {| objects := objects h;
     active := Some ArmatureRef;
     mode := Some "OBJECT";
     pose_constraints := pose_constraints h |}.

(** The new target bodies of a scene that had [n0] objects, in the order
    of their creation. *)
Definition new_target_refs (n0 : nat) (objs : list Object) : list nat :=
  filter (fun i => target_body <$> objs !! i = Some true) (seq n0 (length objs - n0)).

(** The dummy constraint of a no-collision link: a constraint with no
    limit set, between two objects. *)
Definition link_of (o : Object) : option (nat * nat) :=
  match rigid_body_constraint o with
  | Some ct =>
      match use_limit_lin_x ct, object1 ct, object2 ct with
      | None, Some a, Some b => Some (a, b)
      | _, _, _ => None
      end
  | None => None
  end.

Definition no_collision_links (objs : list Object) : list (nat * nat) :=
  omap link_of objs.

(** The objects one step of the traversal may add for the bone [child]:
    a collider, a rigid body of a spring bone, or the joint of a spring
    bone, each under the name the host stores for it among the objects
    [objs] present when it is added. *)
Inductive step_object (armature : ArmatureObject) (child : Bone) (o : Object) : Prop :=
  | step_collider phy objs :
      physics child = Some phy ->
      ob_name o = host_name (name child +:+ "_rigidbody") objs ->
      bone_body o = false -> rigid_body_constraint o = None ->
      step_object armature child o
  | step_bone_body phy bone_name is_pivot objs :
      physics child = Some phy -> phy_type phy = BonePhysicsType.SpringBone ->
      ob_name o = host_name (get_rb_name armature bone_name is_pivot) objs ->
      bone_body o = true -> pivot_body o = is_pivot ->
      rigid_body_constraint o = None ->
      step_object armature child o
  | step_joint phy pivot_ref target_ref objs :
      physics child = Some phy -> phy_type phy = BonePhysicsType.SpringBone ->
      o = joint_object objs "SpringBoneJoint" pivot_ref
            (spring_bone_constraint phy pivot_ref target_ref) ->
      step_object armature child o.

(** The invariant of the traversal, for a scene that had [n0] objects:
    every new rigid body of a bone is the first object of its name, and
    the dict holds the new target bodies, in the order of their creation,
    under their names. *)
Definition rig_inv (n0 : nat) (objs : list Object) (targets : list (string * nat)) : Prop :=
  n0 <= length objs /\
  (forall i o, objs !! i = Some o -> n0 <= i -> bone_body o = true ->
     scene_lookup (ob_name o) objs = Some i) /\
  targets = omap (fun i => (fun o => (ob_name o, i)) <$> objs !! i)
                 (new_target_refs n0 objs).

End RigVocabulary.
(** * Vocabulary of the further properties *)

Section BoneVocabulary.
Context {F : FloatOps}.

(** The placement fields a Bone is built with. *)
Definition placement (b : Bone)
    : Vector3 * Quaternion * Vector3 * option Matrix :=
  (localPosition b, localRotation b, localScale b, global_transform b).

(** The GameObject of the last transform of a list that carries a skinned
    mesh renderer. *)
Definition last_skinned (nodes : list Transform) : option GameObject :=
  m_GameObject <$> last (filter (fun node => skinned node = true) nodes).

(** The names on the way from the Bone below the root Bone down to the
    Bone [b], following the [parent] links at most [fuel] times. *)
Fixpoint bone_chain (bones : list Bone) (fuel : nat) (b : nat) : list string :=
  match fuel with
  | O => []
  | S fuel' =>
      match bones !! b with
      | Some cell =>
          match parent cell with
          | Some p => bone_chain bones fuel' p ++ [name cell]
          | None => []
          end
      | None => []
      end
  end.

(** ['/'.join(names)] *)
Definition join_names (names : list string) : string :=
  match names with
  | [] => ""
  | nm :: rest => fold_left (fun acc x => acc +:+ "/" +:+ x) rest nm
  end.

(** The positions of the calls of a list that receive the Bone [q] as
    parent, in order. *)
Definition call_kids (l : list (Transform * option nat)) (q : nat) : list nat :=
  filter (fun j => snd <$> l !! j = Some (Some q)) (seq 0 (length l)).

(** The positions, in pre-order, of the transforms [cs] when they are the
    children of one transform and the first of them is visited at
    [next]: each is followed by its own subtree. *)
Fixpoint child_heads (next : nat) (cs : list Transform) : list nat :=
  match cs with
  | [] => []
  | c :: cs' => next :: child_heads (next + tree_size c) cs'
  end.

End BoneVocabulary.

Section RigVocabulary2.
Context {F : FloatOps} {N : HostNames}.

(** The passive rigid bodies are the colliders. What describes one: the
    bone it is parented to, its mesh, its collision shape and whether it
    is kinematic. *)
Definition collider_of (o : Object)
    : option (option string * ObjectData * option string * option bool) :=
  match rigid_body o with
  | Some rb =>
      if bool_decide (rb_type rb = Some "PASSIVE")
      then Some (parent_bone o, ob_data o, collision_shape rb, kinematic rb)
      else None
  | None => None
  end.

Definition colliders (objs : list Object)
    : list (option string * ObjectData * option string * option bool) :=
  omap collider_of objs.

(** The collider the descriptor of a Bone asks for. *)
Definition bone_collider (b : Bone)
    : option (option string * ObjectData * option string * option bool) :=
  match physics b with
  | Some phy =>
      match phy_type phy with
      | BonePhysicsType.SphereCollider =>
          Some (Some (name b), UVSphere (float_mul (radius phy) SPHERE_RADIUS_FACTOR),
                Some "SPHERE", Some true)
      | BonePhysicsType.CapsuleCollider =>
          Some (Some (name b),
                Cylinder (float_mul (radius phy) CAPSULE_RADIUS_FACTOR)
                         (float_mul (height phy) CAPSULE_HEIGHT_FACTOR),
                Some "CAPSULE", Some true)
      | _ => None
      end
  | None => None
  end.

(** The descriptor of a Bone when it is that of a spring bone. *)
Definition spring_physics (b : Bone) : option BonePhysics :=
  match physics b with
  | Some phy => if decide (phy_type phy = BonePhysicsType.SpringBone) then Some phy else None
  | None => None
  end.

Definition spring_bones (bs : list Bone) : list Bone :=
  filter (fun b => is_Some (spring_physics b)) bs.

(** The two bodies a joint with limits connects: the spring-bone joints
    set their limits, the no-collision joints set none. *)
Definition spring_joint_of (o : Object) : option (nat * nat) :=
  match rigid_body_constraint o with
  | Some ct =>
      match use_limit_lin_x ct, object1 ct, object2 ct with
      | Some _, Some a, Some b => Some (a, b)
      | _, _, _ => None
      end
  | None => None
  end.

Definition spring_joints (objs : list Object) : list (nat * nat) :=
  omap spring_joint_of objs.

(** The rigid-body constraints of the objects that have one, in order. *)
Definition constraints (objs : list Object) : list RigidBodyConstraint :=
  omap rigid_body_constraint objs.

(** The dummy constraint of the no-collision link of two bodies. *)
Definition link_constraint (link : nat * nat) : RigidBodyConstraint :=
  default_constraint (Some link.1) (Some link.2).

(** The COPY_TRANSFORMS constraints of [h'] that [h] did not have. *)
Definition new_pose_constraints (h h' : Host) : list (string * nat) :=
  drop (length (pose_constraints h)) (pose_constraints h').

End RigVocabulary2.

(** * [search_env_animations] *)

Section Animations.
(** What [obj.read()] returns is left open. *)
Context {Data : Type}.

(** An object of an asset: its type and what reading it gives. *)
Record ObjectReader := {
  reader_type : ClassIDType.t;
  reader_read : Data
}.

(** [env.assets], each asset as the list [asset.get_objects()]. *)
Definition search_env_animations (assets : list (list ObjectReader)) : list Data :=
  fold_left
    (fun animations asset =>
       fold_left
         (fun animations obj =>
            let data := reader_read obj in
            if decide (reader_type obj = ClassIDType.AnimationClip)
            then animations ++ [data]
            else animations)
         asset animations)
    assets [].

(** The objects of the assets, in order. *)
Definition asset_objects (assets : list (list ObjectReader)) : list ObjectReader :=
  concat assets.

Definition animation_clip (obj : ObjectReader) : Prop :=
  reader_type obj = ClassIDType.AnimationClip.

#[global] Instance animation_clip_dec (obj : ObjectReader) : Decision (animation_clip obj) :=
  decide (reader_type obj = ClassIDType.AnimationClip).

End Animations.

Arguments ObjectReader : clear implicits.

(** * [import_mesh]: the part that precedes the geometry *)

Section MeshModel.
Context {F : FloatOps}.

Inductive MeshExn :=
  | ZeroDivisionError                 (* [len(..) / 0] *)
  | BoneHashKeyError (key : Z)        (* [bone_path_tbl[boneHash]], no such key *)
  | NoneSubscriptError                (* [bone_path_tbl[boneHash]] on [None] *)
  | NoneAttributeError.               (* [bone_path_tbl.items()] on [None] *)

Inductive MeshResult (A : Type) :=
  | Done (a : A)
  | Failed (e : MeshExn).
Arguments Done {A} a.
Arguments Failed {A} e.

Definition mesh_bind {A B} (m : MeshResult A) (k : A -> MeshResult B) : MeshResult B :=
  match m with
  | Done a => k a
  | Failed e => Failed e
  end.

(** The fields of the Mesh that the function reads before the geometry. *)
Record Mesh := {
  mesh_name : string;
  m_VertexCount : nat;
  m_Vertices : list float;
  m_Normals : list float;
  m_UV0 : list float;
  m_Colors : list float;
  m_BoneNameHashes : list Z
}.

(** [int(len(xs) / count)]: the quotient, a division by zero when
    [count] is 0. (The float quotient truncates to the integer quotient
    for every length a list can have.) *)
Definition floats_per_vertex {A} (xs : list A) (count : nat) : MeshResult nat :=
  if (count =? 0)%nat then Failed ZeroDivisionError else Done (length xs / count).

(** [for boneHash in data.m_BoneNameHashes]: one vertex group is asked
    for per hash, under the name of the Bone the table gives. [groups]
    are the names passed to [obj.vertex_groups.new] so far. *)
Fixpoint new_vertex_groups (bones : list Bone) (bone_path_tbl : option (gmap Z nat))
    (hashes : list Z) (groups : list string) : MeshResult (list string) :=
  match hashes with
  | [] => Done groups
  | boneHash :: hashes' =>
      match bone_path_tbl with
      | None => Failed NoneSubscriptError
      | Some tbl =>
          match tbl !! boneHash with
          | None => Failed (BoneHashKeyError boneHash)
          | Some b =>
              let group_name := name (bones !!! b) in
              new_vertex_groups bones bone_path_tbl hashes' (groups ++ [group_name])
          end
      end
  end.

(** What the function has set up when it starts on the geometry: the
    floats per vertex of the four streams, the names under which it has
    asked for the vertex groups of the object, in order, and the
    hash-to-name table stored on the mesh (both only for a skinned
    mesh). *)
Record MeshSetup := {
  vtxFloats : nat;
  normalFloats : nat;
  uvFloats : nat;
  colorFloats : nat;
  vertex_groups : list string;
  bone_name_hash_tbl : option (gmap Z string)
}.

(** [import_mesh] up to the table of bone names; [geometry] stands for
    the rest of the function, the transcription of vertices, faces, UVs,
    colours, normals and shape keys through the host. [bones] is the
    store the Bones of [bone_path_tbl] live in and [nm] the argument
    [name], the name of the created object. *)
Definition import_mesh {R} (geometry : Mesh -> MeshSetup -> MeshResult R)
    (bones : list Bone) (nm : string) (data : Mesh) (skinned : bool)
    (bone_path_tbl : option (gmap Z nat)) : MeshResult R :=
  mesh_bind (floats_per_vertex (m_Vertices data) (m_VertexCount data)) (fun vtxFloats =>
  mesh_bind (floats_per_vertex (m_Normals data) (m_VertexCount data)) (fun normalFloats =>
  mesh_bind (floats_per_vertex (m_UV0 data) (m_VertexCount data)) (fun uvFloats =>
  mesh_bind (floats_per_vertex (m_Colors data) (m_VertexCount data)) (fun colorFloats =>
  if skinned then
    mesh_bind (new_vertex_groups bones bone_path_tbl (m_BoneNameHashes data) []) (fun groups =>
    match bone_path_tbl with
    | None => Failed NoneAttributeError
    | Some tbl =>
        geometry data
          {| vtxFloats := vtxFloats; normalFloats := normalFloats;
             uvFloats := uvFloats; colorFloats := colorFloats;
             vertex_groups := groups;
             bone_name_hash_tbl := Some ((fun b => name (bones !!! b)) <$> tbl) |}
    end)
  else
    geometry data
      {| vtxFloats := vtxFloats; normalFloats := normalFloats;
         uvFloats := uvFloats; colorFloats := colorFloats;
         vertex_groups := [];
         bone_name_hash_tbl := None |})))).

End MeshModel.

Arguments Done {A} a.
Arguments Failed {A} e.


(** * A sample rig

    A concrete instance of the numbers and a small character, used to run
    the definitions: a root transform, the skeleton root ['Position'], a
    hip bone with a sphere collider, three hair bones with spring-bone
    scripts (two of them on the same pivot), two end bones of the same
    name and a skinned body. *)

Definition sample_floats : FloatOps :=
  {| float := Q;
     Matrix := list Q;
     float_lit := fun q => q;
     float_mul := Qmult;
     radians := fun q => Qmult q (314159 # 18000000);
     mat_mul := fun a b => a ++ b |}.

(** ** A sample host for the names

    Names as the host this module is written for keeps them: at most 63
    bytes, cut between two characters; a name that is taken is replaced by
    the first free one among the name without its number, cut to 59 bytes
    when a number would not fit, and that name followed by [.001],
    [.002], ... *)

Definition continuation_byte (c : Ascii.ascii) : bool :=
  (128 <=? Ascii.nat_of_ascii c) && (Ascii.nat_of_ascii c <? 192).

(** The number of bytes a character takes, from its first byte. *)
Definition lead_width (c : Ascii.ascii) : nat :=
  let n := Ascii.nat_of_ascii c in
  if n <? 128 then 1 else if n <? 224 then 2 else if n <? 240 then 3 else 4.

(** The number of bytes at the end of a byte sequence, given in reverse,
    that belong to a character whose other bytes were cut off. *)
Fixpoint incomplete_tail (rev_bytes : list Ascii.ascii) (seen : nat) : nat :=
  match rev_bytes with
  | [] => 0
  | c :: rest =>
      if continuation_byte c then incomplete_tail rest (S seen)
      else if lead_width c <=? S seen then 0 else S seen
  end.

Definition truncate_name (n : nat) (s : string) : string :=
  if String.length s <=? n then s
  else
    let cut := take n (String.list_ascii_of_string s) in
    String.string_of_list_ascii (take (n - incomplete_tail (rev cut) 0) cut).

Definition is_digit (c : Ascii.ascii) : bool :=
  (48 <=? Ascii.nat_of_ascii c) && (Ascii.nat_of_ascii c <=? 57).

Fixpoint drop_digits (l : list Ascii.ascii) : list Ascii.ascii :=
  match l with
  | c :: l' => if is_digit c then drop_digits l' else l
  | [] => []
  end.

(** The name without a number [.NNN] at its end. *)
Definition strip_number (s : string) : string :=
  match rev (String.list_ascii_of_string s) with
  | c :: rest =>
      if is_digit c then
        match drop_digits rest with
        | c' :: base =>
            if Ascii.eqb c' (Ascii.ascii_of_nat 46)
            then String.string_of_list_ascii (rev base)
            else s
        | [] => s
        end
      else s
  | [] => s
  end.

Definition digit (n : nat) : Ascii.ascii := Ascii.ascii_of_nat (48 + n mod 10).

Definition numbered (base : string) (n : nat) : string :=
  base +:+ "." +:+ String (digit (n / 100)) (String (digit (n / 10)) (String (digit n) "")).

Definition name_candidates (t : string) : list string :=
  let base := strip_number t in
  if 60 <=? String.length base
  then let base' := truncate_name 59 base in base' :: (numbered base' <$> seq 1 999)
  else numbered base <$> seq 1 999.

(** The first candidate that is free; [fallback] when none is. *)
Definition first_free (used cands : list string) (fallback : string) : string :=
  match list_find (fun c => c ∉ used) cands with
  | Some (_, c) => c
  | None => fallback
  end.

(** A name longer than every name in use, for the case that all the
    candidates are taken. *)
Definition long_name (used : list string) : string :=
  fold_right (fun u acc => u +:+ acc) "." used.

Definition sample_stored_name (nm : string) (used : list string) : string :=
  let t := truncate_name 63 (if String.eqb nm "" then "Object" else nm) in
  first_free used (t :: name_candidates t) (long_name used).

(** The sample host keeps a free name of at most 63 bytes and never
    returns a name in use. *)
Definition sample_names : HostNames.
Proof.
  refine {| stored_name := sample_stored_name |}.
  - intros nm used Hne Hlen Hfree. unfold sample_stored_name, truncate_name, first_free.
    assert ((if String.eqb nm "" then "Object" else nm) = nm) as -> by (by destruct nm).
    apply Nat.leb_le in Hlen. rewrite Hlen.
    match goal with |- context [list_find ?P (nm :: ?l)] =>
      assert (list_find P (nm :: l) = Some (0, nm)) as -> end; [|done].
    apply list_find_Some. split_and!; [done..|]. intros j y _ Hj. lia.
  - intros nm used. unfold sample_stored_name, first_free.
    destruct (list_find _ _) as [[i c]|] eqn:E.
    { by apply list_find_Some in E as (_ & ? & _). }
    assert (forall a b, String.length (a +:+ b) = String.length a + String.length b)
      as Happ.
    { intros a b. induction a as [|c a IH]; simpl; [done|]. by rewrite IH. }
    assert (forall l, 1 <= String.length (long_name l)) as Hpos.
    { induction l as [|v l IH]; simpl; [lia|]. rewrite Happ. lia. }
    assert (forall u, u ∈ used -> String.length u < String.length (long_name used)) as Hlt.
    { clear E. induction used as [|v used IH]; intros u Hu; [by apply elem_of_nil in Hu|].
      simpl. rewrite Happ. apply elem_of_cons in Hu as [->|Hu].
      - specialize (Hpos used). lia.
      - specialize (IH u Hu). lia. }
    intros Hin. specialize (Hlt _ Hin). lia.
Defined.

Section Sample.
#[local] Existing Instance sample_floats.
#[local] Existing Instance sample_names.

Definition sample_fields (r : Q) (pv : option Z) : @TypeTree sample_floats :=
  {| tt_radius := r;
     tt_height := (3 # 1)%Q;
     tt_angularStiffness := (7 # 1)%Q;
     tt_yAngleLimits := {| lim_min := (-(10 # 1))%Q; lim_max := (20 # 1)%Q |};
     tt_zAngleLimits := {| lim_min := (-(30 # 1))%Q; lim_max := (40 # 1)%Q |};
     pivotNode := pv |}.

Definition sample_script (script : string) (r : Q) (pv : option Z)
    : @Component sample_floats :=
  {| comp_type := ClassIDType.MonoBehaviour;
     m_Script := Some {| script_name := script |};
     read_typetree := sample_fields r pv |}.

Definition sample_transform (pid father : Z) (nm : string) (renderer : option Z)
    (comps : list (@Component sample_floats)) (cs : list (@Transform sample_floats))
    : @Transform sample_floats :=
  plain_transform pid father nm renderer comps cs.

Definition sample_rig : @Transform sample_floats :=
  sample_transform 1 0 "Chara" None []
    [sample_transform 2 1 "Position" None []
       [sample_transform 3 2 "Hips" None [sample_script "SpringSphereCollider" (2 # 1) None]
          [sample_transform 4 3 "HairA" None [sample_script "SekaiSpringBone" (1 # 1) (Some 3%Z)]
             [sample_transform 5 4 "End" None [] []];
           sample_transform 6 3 "HairB" None [sample_script "SekaiSpringBone" (1 # 1) (Some 3%Z)]
             [sample_transform 7 6 "End" None [] []];
           sample_transform 8 3 "HairC" None
             [sample_script "SekaiSpringBone" (1 # 1) (Some 2%Z);
              sample_script "CameraShake" (1 # 1) None] [];
           sample_transform 9 3 "Body" (Some 100%Z) [] []]]].

(** A second root, a prop without skinned mesh. *)
Definition sample_prop : @Transform sample_floats :=
  sample_transform 20 0 "Prop" None [] [sample_transform 21 20 "Lid" None [] []].

(** A rig whose spring bone names a pivot that is visited after it. *)
Definition sample_bad_rig : @Transform sample_floats :=
  sample_transform 1 0 "Chara" None []
    [sample_transform 2 1 "Tail" None [sample_script "SekaiSpringBone" (1 # 1) (Some 3%Z)] [];
     sample_transform 3 1 "Hips" (Some 100%Z) [] []].

Definition sample_stage : @GameObject sample_floats :=
  {| m_Name := "Stage"; m_MeshRenderer := Some 50%Z; m_SkinnedMeshRenderer := None;
     m_Components := [] |}.

Definition sample_env : @Environment sample_floats :=
  [ObjGameObject sample_stage; ObjTransform sample_rig; ObjOther ClassIDType.AnimationClip;
   ObjTransform sample_prop;
   ObjTransform (sample_transform 21 20 "Lid" None [] [])].

Definition sample_state : @DfsState sample_floats :=
  Eval vm_compute in
    match build_armature sample_rig with
    | Ok s => s
    | Raise _ => init_state ""
    end.

Definition sample_armature : @Armature sample_floats := armature sample_state.
Definition sample_bones : list (@Bone sample_floats) := bones sample_state.

(** The tree under the root Bone of the sample armature. *)
Definition sample_tree : @BoneTree sample_floats :=
  Eval vm_compute in bone_tree (length sample_bones) sample_bones 0.

Definition sample_object : @ArmatureObject sample_floats :=
  {| ao_name := "Chara";
     ao_matrix_world := [(1 # 1)%Q];
     pose_bones := list_to_map
       [("Position", [(2 # 1)%Q]); ("Hips", [(3 # 1)%Q]); ("HairA", [(4 # 1)%Q]);
        ("End", [(5 # 1)%Q]); ("HairB", [(6 # 1)%Q]); ("HairC", [(7 # 1)%Q]);
        ("Body", [(8 # 1)%Q])] |}.

Definition empty_scene : @Host sample_floats :=
  {| objects := []; active := None; mode := None; pose_constraints := [] |}.

Definition sample_scene : @Host sample_floats :=
  Eval vm_compute in
    match import_armature_physics_constraints sample_object sample_tree empty_scene with
    | Ok h => h
    | Raise _ => empty_scene
    end.

(** The tree of the prop, which has no bone named Position. *)
Definition sample_prop_tree : @BoneTree sample_floats :=
  Eval vm_compute in
    match build_armature sample_prop with
    | Ok s => bone_tree (length (bones s)) (bones s) 0
    | Raise _ => BoneNode inhabitant []
    end.

End Sample.
(** * Further samples *)

Section Sample2.
#[local] Existing Instance sample_floats.
#[local] Existing Instance sample_names.

(** The spring bone HairA of the sample rig and its script. *)
Definition sample_hair_script : @Component sample_floats :=
  sample_script "SekaiSpringBone" (1 # 1) (Some 3%Z).

Definition sample_hair_a : @Transform sample_floats :=
  sample_transform 4 3 "HairA" None [sample_hair_script]
    [sample_transform 5 4 "End" None [] []].

(** The bone HairC: a spring-bone script followed by an unrelated one. *)
Definition sample_hair_c : @Transform sample_floats :=
  sample_transform 8 3 "HairC" None
    [sample_script "SekaiSpringBone" (1 # 1) (Some 2%Z);
     sample_script "CameraShake" (1 # 1) None] [].

(** The tree under the bone Position of the sample armature. *)
Definition sample_position_tree : @BoneTree sample_floats :=
  Eval vm_compute in
    match recursive_locate_by_name sample_tree "Position" with
    | Some t => t
    | None => sample_tree
    end.

(** An armature object that lacks the pose bones of the hair. *)
Definition sample_object_unposed : @ArmatureObject sample_floats :=
  {| ao_name := "Chara";
     ao_matrix_world := [(1 # 1)%Q];
     pose_bones := list_to_map [("Position", [(2 # 1)%Q]); ("Hips", [(3 # 1)%Q])] |}.



(** A rig with the spring bone HairA alone. *)
Definition sample_single_rig : @Transform sample_floats :=
  sample_transform 1 0 "Chara" None []
    [sample_transform 2 1 "Position" None []
       [sample_transform 3 2 "Hips" None []
          [sample_transform 4 3 "HairA" None [sample_hair_script] []]]].

(** The tree under the root Bone of the armature of a rig. *)
Definition sample_tree_of (rig : @Transform sample_floats) : @BoneTree sample_floats :=
  match build_armature rig with
  | Ok s => bone_tree (length (bones s)) (bones s) 0
  | Raise _ => BoneNode inhabitant []
  end.



Definition sample_single_tree : @BoneTree sample_floats :=
  Eval vm_compute in sample_tree_of sample_single_rig.


(** What a run leaves, or the scene itself when the run raises. *)
Definition sample_run (armature : @ArmatureObject sample_floats)
    (data_root : @BoneTree sample_floats) (h : @Host sample_floats) : @Host sample_floats :=
  match import_armature_physics_constraints armature data_root h with
  | Ok h' => h'
  | Raise _ => h
  end.

(** The scene after the rig with HairA alone was imported: it holds the
    target body of HairA. *)
Definition sample_stale_scene : @Host sample_floats :=
  Eval vm_compute in sample_run sample_object sample_single_tree empty_scene.

(** Two assets with two clips among their objects. *)
Definition sample_assets : list (list (ObjectReader string)) :=
  [[{| reader_type := ClassIDType.AnimationClip; reader_read := "walk" |};
    {| reader_type := ClassIDType.GameObject; reader_read := "stage" |}];
   [{| reader_type := ClassIDType.AnimationClip; reader_read := "run" |}]].

(** A skinned mesh of two vertices bound to the Hips and to HairA, and a
    mesh without vertices. *)
Definition sample_mesh : @Mesh sample_floats :=
  {| mesh_name := "Body";
     m_VertexCount := 2;
     m_Vertices := [(0 # 1)%Q; (0 # 1)%Q; (0 # 1)%Q; (1 # 1)%Q; (0 # 1)%Q; (0 # 1)%Q];
     m_Normals := [(0 # 1)%Q; (1 # 1)%Q; (0 # 1)%Q; (0 # 1)%Q; (1 # 1)%Q; (0 # 1)%Q];
     m_UV0 := [(0 # 1)%Q; (0 # 1)%Q; (1 # 1)%Q; (1 # 1)%Q];
     m_Colors := [];
     m_BoneNameHashes :=
       [get_name_hash "Position/Hips"; get_name_hash "Position/Hips/HairA"] |}.

Definition sample_empty_mesh : @Mesh sample_floats :=
  {| mesh_name := "Empty";
     m_VertexCount := 0;
     m_Vertices := [];
     m_Normals := [];
     m_UV0 := [];
     m_Colors := [];
     m_BoneNameHashes := [] |}.

(** A rest of [import_mesh] that hands back what was set up. *)
Definition sample_geometry (data : @Mesh sample_floats) (setup : MeshSetup)
    : MeshResult MeshSetup :=
  Done setup.

End Sample2.


Section BoneGraph.
Context {F : FloatOps}.

(** ** Generic facts *)

Lemma for_each_app {A S} (body : A -> S -> Result S) (xs ys : list A) (s : S) :
  for_each body (xs ++ ys) s = let! s' := for_each body xs s in for_each body ys s'.
Proof.
  revert s. induction xs as [|x xs IH]; intros s; simpl; [done|].
  destruct (body x s); simpl; [apply IH|done].
Qed.

Lemma for_each_snoc_Ok {A S} (body : A -> S -> Result S) xs x s s' :
  for_each body (xs ++ [x]) s = Ok s' <->
  exists s1, for_each body xs s = Ok s1 /\ body x s1 = Ok s'.
Proof.
  rewrite for_each_app. destruct (for_each body xs s) as [s1|e]; simpl.
  - destruct (body x s1) as [s2|e] eqn:E; simpl; split.
    + intros [= <-]. eauto.
    + intros (? & [= <-] & H). congruence.
    + done.
    + intros (? & [= <-] & H). congruence.
  - split; [done|]. intros (? & ? & ?). done.
Qed.

Lemma last_index_from_snoc {A} (P : A -> bool) l x i acc :
  last_index_from P (l ++ [x]) i acc =
  if P x then Some (i + length l) else last_index_from P l i acc.
Proof.
  revert i acc. induction l as [|y l IH]; intros i acc; simpl.
  - rewrite Nat.add_0_r. done.
  - rewrite IH. replace (S i + length l) with (i + S (length l)) by lia. done.
Qed.

Lemma last_index_snoc {A} (P : A -> bool) l x :
  last_index P (l ++ [x]) = if P x then Some (length l) else last_index P l.
Proof. unfold last_index. by rewrite last_index_from_snoc. Qed.

Lemma last_index_nil {A} (P : A -> bool) : last_index P [] = None.
Proof. done. Qed.

Lemma last_index_Some {A} (P : A -> bool) (l : list A) i :
  last_index P l = Some i <->
  (exists x, l !! i = Some x /\ P x = true) /\
  (forall j y, i < j -> l !! j = Some y -> P y = false).
Proof.
  revert i. induction l as [|x l IH] using rev_ind; intros i.
  - rewrite last_index_nil. split; [done|]. intros [(? & ? & ?) _]. done.
  - rewrite last_index_snoc. destruct (P x) eqn:HP.
    + split.
      * intros [= <-]. split.
        -- exists x. by rewrite list_lookup_middle.
        -- intros j y Hj Hy. apply lookup_lt_Some in Hy.
           rewrite length_app in Hy. simpl in Hy. lia.
      * intros [(y & Hy & HPy) Hlast].
        destruct (decide (i = length l)) as [->|Hne]; [done|].
        assert (i < length l).
        { apply lookup_lt_Some in Hy. rewrite length_app in Hy. simpl in Hy. lia. }
        specialize (Hlast (length l) x). rewrite list_lookup_middle in Hlast by done.
        rewrite Hlast in HP; [done|lia|done].
    + rewrite IH. split.
      * intros [(y & Hy & HPy) Hlast]. split.
        -- exists y. split; [|done]. by apply lookup_app_l_Some.
        -- intros j z Hj Hz.
           destruct (decide (j < length l)) as [Hlt|Hge].
           ++ rewrite lookup_app_l in Hz by done. eauto.
           ++ apply lookup_lt_Some in Hz as Hz'. rewrite length_app in Hz'. simpl in Hz'.
              assert (j = length l) as -> by lia.
              rewrite list_lookup_middle in Hz by done. by injection Hz as <-.
      * intros [(y & Hy & HPy) Hlast].
        assert (i < length l).
        { apply lookup_lt_Some in Hy as Hy'. rewrite length_app in Hy'. simpl in Hy'.
          destruct (decide (i = length l)) as [->|]; [|lia].
          rewrite list_lookup_middle in Hy by done. injection Hy as <-. congruence. }
        split.
        -- exists y. split; [|done]. by rewrite lookup_app_l in Hy.
        -- intros j z Hj Hz. apply (Hlast j z Hj). by apply lookup_app_l_Some.
Qed.

Lemma last_index_None {A} (P : A -> bool) (l : list A) :
  last_index P l = None <-> forall j y, l !! j = Some y -> P y = false.
Proof.
  induction l as [|x l IH] using rev_ind.
  - rewrite last_index_nil. split; [|done]. intros _ j y. by rewrite lookup_nil.
  - rewrite last_index_snoc. destruct (P x) eqn:HP.
    + split; [done|]. intros H. specialize (H (length l) x).
      rewrite list_lookup_middle in H by done. rewrite H in HP; done.
    + rewrite IH. split.
      * intros H j y Hy.
        destruct (decide (j < length l)) as [Hlt|Hge].
        -- rewrite lookup_app_l in Hy by done. eauto.
        -- apply lookup_lt_Some in Hy as Hy'. rewrite length_app in Hy'. simpl in Hy'.
           assert (j = length l) as -> by lia.
           rewrite list_lookup_middle in Hy by done. by injection Hy as <-.
      * intros H j y Hy. apply (H j y). by apply lookup_app_l_Some.
Qed.

Lemma last_index_lt {A} (P : A -> bool) (l : list A) i :
  last_index P l = Some i -> i < length l.
Proof.
  rewrite last_index_Some. intros [(x & Hx & _) _]. by apply lookup_lt_Some in Hx.
Qed.

(** ** The traversal as a sequence of calls *)

Lemma Transform_tree_ind (P : Transform -> Prop) :
  (forall node, Forall P (m_Children node) -> P node) -> forall node, P node.
Proof.
  intros H. fix IH 1. intros [pid fa go lp lr ls cs]. apply H. simpl.
  revert cs. fix IHcs 1. intros [|c cs]; constructor; [apply IH|apply IHcs].
Qed.

Lemma calls_of_children_length calls p cs next :
  Forall (fun c => forall parent base, length (calls c parent base) = tree_size c) cs ->
  length (calls_of_children calls p cs next) = list_sum (map tree_size cs).
Proof.
  intros H. revert next. induction H as [|c cs Hc _ IH]; intros next; simpl; [done|].
  rewrite length_app, Hc, IH. done.
Qed.

Lemma dfs_calls_length node parent base :
  length (dfs_calls node parent base) = tree_size node.
Proof.
  revert parent base. induction node as [node IH] using Transform_tree_ind.
  intros parent base. destruct node; simpl in *.
  f_equal. by apply calls_of_children_length.
Qed.

Lemma dfs_calls_preorder node parent base :
  map fst (dfs_calls node parent base) = preorder node.
Proof.
  revert parent base. induction node as [node IH] using Transform_tree_ind.
  intros parent base. destruct node as [pid fa go lp lr ls cs]; simpl in *. f_equal.
  generalize (S base). induction IH as [|c cs Hc _ IHcs]; intros next; simpl; [done|].
  rewrite map_app, Hc, IHcs. done.
Qed.

Lemma dfs_node_Ok node parent s b s' :
  dfs_node node parent s = Ok (b, s') ->
  exists bonePhysics,
    for_each (scan_component (bones s) (path_id_tbl s))
             (m_Components (m_GameObject node)) None = Ok bonePhysics /\
    b = length (bones s) /\
    let nm := m_Name (m_GameObject node) in
    let path := path_from_root_of (bones s) parent nm in
    let cell := {| name := nm; localPosition := m_LocalPosition node;
                   localRotation := m_LocalRotation node; localScale := m_LocalScale node;
                   parent := parent; children := []; global_path := path;
                   global_transform := None; physics := bonePhysics |} in
    bones s' = match parent with
               | None => bones s ++ [cell]
               | Some p => alter (append_child b) p (bones s ++ [cell])
               end /\
    path_id_tbl s' = <[path_id node := b]> (path_id_tbl s) /\
    arm_name (armature s') = arm_name (armature s) /\
    skinned_mesh_gameobject (armature s') =
      match m_SkinnedMeshRenderer (m_GameObject node) with
      | Some _ => Some (m_GameObject node)
      | None => skinned_mesh_gameobject (armature s)
      end /\
    root (armature s') = match parent with
                         | None => Some b
                         | Some _ => root (armature s)
                         end /\
    bone_path_hash_tbl (armature s') =
      <[get_name_hash path := b]> (bone_path_hash_tbl (armature s)) /\
    bone_name_tbl (armature s') = <[nm := b]> (bone_name_tbl (armature s)).
Proof.
  unfold dfs_node.
  destruct (for_each _ _ None) as [phy|e]; simpl; [|done].
  intros [= <- <-]. exists phy. simpl. done.
Qed.

Lemma dfs_node_length node parent s b s' :
  dfs_node node parent s = Ok (b, s') ->
  b = length (bones s) /\ length (bones s') = S (length (bones s)).
Proof.
  intros (phy & _ & -> & Hb & _)%dfs_node_Ok. split; [done|].
  rewrite Hb. destruct parent; rewrite ?length_alter, length_app; simpl; lia.
Qed.

Lemma visit_all_app l1 l2 s :
  visit_all (l1 ++ l2) s = let! s' := visit_all l1 s in visit_all l2 s'.
Proof. apply for_each_app. Qed.

Lemma visit_all_snoc_Ok l node parent s s' :
  visit_all (l ++ [(node, parent)]) s = Ok s' <->
  exists s1 b, visit_all l s = Ok s1 /\ dfs_node node parent s1 = Ok (b, s').
Proof.
  unfold visit_all. rewrite for_each_snoc_Ok. simpl. split.
  - intros (s1 & H1 & H2). exists s1.
    destruct (dfs_node node parent s1) as [[b s2]|e] eqn:E; simpl in H2; [|done].
    injection H2 as <-. eauto.
  - intros (s1 & b & H1 & H2). exists s1. by rewrite H2.
Qed.

Lemma visit_all_length l s s' :
  visit_all l s = Ok s' -> length (bones s') = length (bones s) + length l.
Proof.
  revert s'. induction l as [|[node parent] l IH] using rev_ind; intros s'.
  - intros [= <-]. simpl. lia.
  - intros (s1 & b & H1 & H2)%visit_all_snoc_Ok.
    apply dfs_node_length in H2 as [_ ->]. rewrite (IH _ H1), length_app. simpl. lia.
Qed.

Lemma dfs_children_visit_all b cs s :
  Forall (fun c => forall parent s,
            dfs c parent s = visit_all (dfs_calls c parent (length (bones s))) s) cs ->
  for_each (fun child => dfs child (Some b)) cs s =
  visit_all (calls_of_children dfs_calls b cs (length (bones s))) s.
Proof.
  intros H. revert s. induction H as [|c cs Hc _ IH]; intros s; simpl; [done|].
  rewrite visit_all_app, Hc.
  destruct (visit_all _ s) as [s2|e] eqn:E; simpl; [|done].
  rewrite IH. apply visit_all_length in E. rewrite dfs_calls_length in E.
  by rewrite E.
Qed.

(** [dfs] performs the calls of [dfs_calls], in that order. *)
Lemma dfs_visit_all node parent s :
  dfs node parent s = visit_all (dfs_calls node parent (length (bones s))) s.
Proof.
  revert parent s. induction node as [node IH] using Transform_tree_ind.
  intros parent s. destruct node as [pid fa go lp lr ls cs]. simpl in IH.
  cbn [dfs dfs_calls m_Children].
  change (visit_all (?x :: ?l) s) with (let! s' := (let! r := dfs_node x.1 x.2 s in Ok r.2) in visit_all l s').
  cbn [fst snd].
  destruct (dfs_node _ parent s) as [[b s1]|e] eqn:E; simpl; [|done].
  apply dfs_node_length in E as [-> E]. rewrite <- E.
  by apply dfs_children_visit_all.
Qed.

Lemma calls_of_children_parents b cs next i node p :
  Forall (fun c => forall parent base i node p,
            dfs_calls c parent base !! i = Some (node, p) ->
            (i = 0 /\ p = parent) \/ (0 < i /\ exists q, p = Some q /\ base <= q < base + i)) cs ->
  calls_of_children dfs_calls b cs next !! i = Some (node, p) ->
  exists q, p = Some q /\ (q = b \/ next <= q < next + i).
Proof.
  intros H. revert next i. induction H as [|c cs Hc Hcs IH]; intros next i; simpl; [done|].
  rewrite lookup_app_Some. intros [Hi|[Hlen Hi]].
  - apply Hc in Hi as [[-> ->]|[? (q & -> & ?)]].
    + exists b. eauto.
    + exists q. split; [done|]. right. lia.
  - rewrite dfs_calls_length in Hlen, Hi. apply IH in Hi as (q & -> & [->|Hq]).
    + exists b. eauto.
    + exists q. split; [done|]. right. lia.
Qed.

Lemma dfs_calls_parents node parent base i n p :
  dfs_calls node parent base !! i = Some (n, p) ->
  (i = 0 /\ p = parent) \/ (0 < i /\ exists q, p = Some q /\ base <= q < base + i).
Proof.
  revert parent base i n p. induction node as [node IH] using Transform_tree_ind.
  intros parent base i n p. destruct node as [pid fa go lp lr ls cs]. simpl in IH.
  cbn [dfs_calls m_Children]. destruct i as [|i]; simpl.
  - intros [= <- <-]. by left.
  - intros Hi. right. split; [lia|].
    eapply calls_of_children_parents in Hi as (q & -> & Hq); [|done].
    exists q. split; [done|]. lia.
Qed.

Lemma dfs_calls_wf root : wf_calls (dfs_calls root None 0).
Proof.
  intros i node p Hi. apply dfs_calls_parents in Hi as [[-> ->]|[? (q & -> & ?)]]; [done|lia].
Qed.

Lemma wf_calls_app_l l1 l2 : wf_calls (l1 ++ l2) -> wf_calls l1.
Proof. intros H i node p Hi. apply (H i node p). by apply lookup_app_l_Some. Qed.

(** Induction over the calls performed from the initial state. *)
Lemma visit_all_ind nm (P : list (Transform * option nat) -> DfsState -> Prop) :
  P [] (init_state nm) ->
  (forall l node parent s b s',
     wf_calls (l ++ [(node, parent)]) ->
     visit_all l (init_state nm) = Ok s -> P l s ->
     dfs_node node parent s = Ok (b, s') ->
     P (l ++ [(node, parent)]) s') ->
  forall l s, wf_calls l -> visit_all l (init_state nm) = Ok s -> P l s.
Proof.
  intros H0 Hstep l. induction l as [|[node parent] l IH] using rev_ind; intros s Hwf.
  - by intros [= <-].
  - intros (s1 & b & H1 & H2)%visit_all_snoc_Ok.
    eapply Hstep; eauto. apply IH; [|done]. by eapply wf_calls_app_l.
Qed.

Lemma visit_all_bones_length nm l s :
  visit_all l (init_state nm) = Ok s -> length (bones s) = length l.
Proof. intros H%visit_all_length. by rewrite H. Qed.

(** In a call, the parent is a Bone of the store. *)
Lemma wf_calls_parent_lt l node q :
  wf_calls (l ++ [(node, Some q)]) -> q < length l.
Proof. intros H. apply (H (length l) node (Some q)). by rewrite list_lookup_middle. Qed.

Lemma wf_calls_parent_None l node :
  wf_calls (l ++ [(node, None)]) -> l = [].
Proof.
  intros H. specialize (H (length l) node None). rewrite list_lookup_middle in H by done.
  apply length_zero_iff_nil. by apply H.
Qed.

(** A field that [append_child] leaves alone only grows by the new Bone. *)
Lemma dfs_node_fmap {A} (f : Bone -> A) node par s b s' :
  (forall c cell, f (append_child c cell) = f cell) ->
  dfs_node node par s = Ok (b, s') ->
  exists cell, f <$> bones s' = (f <$> bones s) ++ [f cell] /\
    name cell = m_Name (m_GameObject node) /\
    parent cell = par /\
    global_path cell = path_from_root_of (bones s) par (m_Name (m_GameObject node)) /\
    children cell = [] /\
    for_each (scan_component (bones s) (path_id_tbl s))
             (m_Components (m_GameObject node)) None = Ok (physics cell).
Proof.
  intros Hf (phy & Hphy & -> & Hb & _)%dfs_node_Ok. simpl in Hb.
  match type of Hb with context [_ ++ [?c]] => exists c end.
  split; [|done]. rewrite Hb. destruct par as [q|]; [|by rewrite fmap_app].
  match goal with |- _ = _ ++ [f ?c] => transitivity (f <$> (bones s ++ [c])) end;
    [|by rewrite fmap_app].
  apply list_eq. intros i. rewrite !list_lookup_fmap.
  destruct (decide (i = q)) as [->|Hne].
  - rewrite list_lookup_alter_eq. destruct (_ !! q); simpl; [|done]. by rewrite Hf.
  - by rewrite list_lookup_alter_ne.
Qed.

Lemma fmap_app_lookup_total {A B} `{!Inhabited A} (f : A -> B) (l l' : list A) t q :
  f <$> l' = (f <$> l) ++ t -> q < length l -> f (l' !!! q) = f (l !!! q).
Proof.
  intros Heq Hq. destruct (lookup_lt_is_Some_2 l q Hq) as [x Hx].
  assert ((f <$> l') !! q = Some (f x)) as Hy.
  { rewrite Heq, lookup_app_l by (by rewrite length_fmap). by rewrite list_lookup_fmap, Hx. }
  rewrite list_lookup_fmap in Hy. apply fmap_Some in Hy as (y & Hy & Hfy).
  by rewrite (list_lookup_total_correct _ _ _ Hx), (list_lookup_total_correct _ _ _ Hy).
Qed.

(** ** What the store and the tables hold after the calls *)

Lemma visit_all_names nm l s :
  wf_calls l -> visit_all l (init_state nm) = Ok s ->
  name <$> bones s = (fun c => m_Name (m_GameObject c.1)) <$> l.
Proof.
  revert l s. apply visit_all_ind; [done|].
  intros l node par s b s' _ _ IH (cell & Hf & Hnm & _)%(dfs_node_fmap name); [|done].
  by rewrite Hf, IH, fmap_app, Hnm.
Qed.

Lemma visit_all_parents nm l s :
  wf_calls l -> visit_all l (init_state nm) = Ok s ->
  parent <$> bones s = snd <$> l.
Proof.
  revert l s. apply visit_all_ind; [done|].
  intros l node par s b s' _ _ IH (cell & Hf & _ & Hp & _)%(dfs_node_fmap parent); [|done].
  by rewrite Hf, IH, fmap_app, Hp.
Qed.

Lemma visit_all_path_id_tbl nm l s :
  wf_calls l -> visit_all l (init_state nm) = Ok s ->
  forall k, path_id_tbl s !! k = registered (fst <$> l) k.
Proof.
  revert l s.
  apply (visit_all_ind nm (fun l s => forall k, path_id_tbl s !! k = registered (fst <$> l) k));
    [done|].
  intros l node par s b s' _ Hl IH (phy & _ & -> & _ & Ht & _)%dfs_node_Ok k.
  rewrite Ht, lookup_insert, fmap_app. unfold registered. simpl.
  rewrite last_index_snoc, length_fmap, (visit_all_bones_length _ _ _ Hl).
  case_decide; case_bool_decide; first [done|apply IH].
Qed.

Lemma visit_all_name_tbl nm l s :
  wf_calls l -> visit_all l (init_state nm) = Ok s ->
  forall k, bone_name_tbl (armature s) !! k =
            last_index (fun n => bool_decide (n = k)) (name <$> bones s).
Proof.
  revert l s.
  apply (visit_all_ind nm (fun l s => forall k, bone_name_tbl (armature s) !! k =
            last_index (fun n => bool_decide (n = k)) (name <$> bones s))); [done|].
  intros l node par s b s' _ Hl IH Hn k.
  pose proof Hn as (cell & Hf & Hnm & _)%(dfs_node_fmap name); [|done].
  apply dfs_node_Ok in Hn as (phy & _ & -> & _ & _ & _ & _ & _ & _ & Ht).
  rewrite Ht, lookup_insert, Hf, last_index_snoc, length_fmap, Hnm.
  case_decide; case_bool_decide; first [done|apply IH].
Qed.

Lemma visit_all_path_hash_tbl nm l s :
  wf_calls l -> visit_all l (init_state nm) = Ok s ->
  forall k, bone_path_hash_tbl (armature s) !! k =
            last_index (fun p => bool_decide (get_name_hash p = k)) (global_path <$> bones s).
Proof.
  revert l s.
  apply (visit_all_ind nm (fun l s => forall k, bone_path_hash_tbl (armature s) !! k =
            last_index (fun p => bool_decide (get_name_hash p = k)) (global_path <$> bones s)));
    [done|].
  intros l node par s b s' _ Hl IH Hn k.
  pose proof Hn as (cell & Hf & _ & _ & Hp & _)%(dfs_node_fmap global_path); [|done].
  apply dfs_node_Ok in Hn as (phy & _ & -> & _ & _ & _ & _ & _ & Ht & _).
  rewrite Ht, lookup_insert, Hf, last_index_snoc, length_fmap, Hp.
  case_decide; case_bool_decide; first [done|apply IH].
Qed.

Lemma visit_all_armature nm l s :
  wf_calls l -> visit_all l (init_state nm) = Ok s ->
  arm_name (armature s) = nm /\
  root (armature s) = match l with [] => None | _ :: _ => Some 0 end /\
  (is_Some (skinned_mesh_gameobject (armature s)) <-> Exists (fun c => skinned c.1 = true) l).
Proof.
  revert l s.
  apply (visit_all_ind nm (fun l s =>
    arm_name (armature s) = nm /\
    root (armature s) = match l with [] => None | _ :: _ => Some 0 end /\
    (is_Some (skinned_mesh_gameobject (armature s)) <-> Exists (fun c => skinned c.1 = true) l))).
  { simpl. split_and!; try done. split; [by intros [? ?]|by intros ?%Exists_nil]. }
  intros l node par s b s' Hwf Hl (IH1 & IH2 & IH3)
    (phy & _ & -> & _ & _ & Hn & Hs & Hr & _)%dfs_node_Ok.
  split_and!.
  - congruence.
  - rewrite Hr. destruct par as [q|].
    + apply wf_calls_parent_lt in Hwf. rewrite IH2. destruct l; simpl in *; [lia|done].
    + apply wf_calls_parent_None in Hwf as ->.
      apply visit_all_bones_length in Hl. rewrite Hl. done.
  - rewrite Hs, Exists_app, Exists_cons, Exists_nil. unfold skinned at 2. simpl.
    destruct (m_SkinnedMeshRenderer (m_GameObject node)) eqn:E.
    + split; [|by eauto]. intros _. right. left. apply bool_decide_eq_true. eauto.
    + rewrite IH3. split; [by left|]. intros [H|[H|[]]]; [done|].
      apply bool_decide_eq_true in H. by destruct H.
Qed.

Lemma filter_ext_elem {A} (P Q : A -> Prop) `{!forall x, Decision (P x)}
    `{!forall x, Decision (Q x)} (l : list A) :
  (forall x, x ∈ l -> P x <-> Q x) -> filter P l = filter Q l.
Proof.
  induction l as [|x l IH]; intros Hext; [done|].
  rewrite !filter_cons.
  assert (P x <-> Q x) as Hx by (apply Hext; left).
  rewrite IH by (intros y Hy; apply Hext; by right).
  destruct (decide (P x)), (decide (Q x)); tauto.
Qed.

Lemma filter_none {A} (P : A -> Prop) `{!forall x, Decision (P x)} (l : list A) :
  (forall x, x ∈ l -> ~ P x) -> filter P l = [].
Proof.
  induction l as [|x l IH]; intros Hno; [done|].
  rewrite filter_cons_False by (apply Hno; left). apply IH. intros y Hy. apply Hno. by right.
Qed.

Lemma visit_all_parent_lt nm l s i b :
  wf_calls l -> visit_all l (init_state nm) = Ok s ->
  bones s !! i = Some b ->
  match parent b with
  | None => i = 0
  | Some q => q < i
  end.
Proof.
  intros Hwf Hl Hb.
  assert ((parent <$> bones s) !! i = Some (parent b)) as Hp
    by (by rewrite list_lookup_fmap, Hb).
  rewrite (visit_all_parents _ _ _ Hwf Hl), list_lookup_fmap in Hp.
  apply fmap_Some in Hp as ([node p] & Hi & Hp). simpl in Hp. subst p.
  by apply Hwf in Hi.
Qed.

Lemma path_from_root_of_ext bs bs' p nm :
  (forall q, p = Some q -> global_path (bs' !!! q) = global_path (bs !!! q)) ->
  path_from_root_of bs' p nm = path_from_root_of bs p nm.
Proof. intros H. destruct p as [q|]; simpl; [|done]. by rewrite (H q). Qed.

(** Every Bone holds the path computed from its parent's path. *)
Lemma visit_all_paths nm l s :
  wf_calls l -> visit_all l (init_state nm) = Ok s ->
  forall i b, bones s !! i = Some b ->
    global_path b = path_from_root_of (bones s) (parent b) (name b).
Proof.
  revert l s.
  apply (visit_all_ind nm (fun l s => forall i b, bones s !! i = Some b ->
    global_path b = path_from_root_of (bones s) (parent b) (name b))).
  { intros i b Hb. apply lookup_lt_Some in Hb. simpl in Hb. lia. }
  intros l node par s n s' Hwf Hl IH Hn i b' Hb'.
  pose proof Hn as (c1 & Hpaths & _)%(dfs_node_fmap global_path); [|done].
  pose proof Hn as (cell & Hf & Hnm & Hpar & Hpath & _)%(dfs_node_fmap
    (fun b => (name b, parent b, global_path b))); [|done].
  assert ((fun b => (name b, parent b, global_path b)) <$> bones s' !! i
          = Some (name b', parent b', global_path b')) as Hi by (by rewrite Hb').
  rewrite <- list_lookup_fmap, Hf in Hi.
  apply lookup_app_Some in Hi as [Hi|[Hlen Hi]].
  - rewrite list_lookup_fmap in Hi. apply fmap_Some in Hi as (b & Hb & [= -> -> ->]).
    rewrite (IH _ _ Hb) at 1. symmetry. apply path_from_root_of_ext. intros q Hq.
    eapply fmap_app_lookup_total; [done|].
    pose proof (visit_all_parent_lt _ _ _ _ _ (wf_calls_app_l _ _ Hwf) Hl Hb) as Hlt.
    rewrite Hq in Hlt. apply lookup_lt_Some in Hb. lia.
  - rewrite length_fmap in Hi, Hlen.
    destruct (i - length (bones s)) as [|k] eqn:Ek; simpl in Hi; [|done].
    injection Hi as <- <- <-. rewrite Hpath, Hnm, Hpar. symmetry.
    apply path_from_root_of_ext. intros q ->.
    eapply fmap_app_lookup_total; [done|].
    apply wf_calls_parent_lt in Hwf. by rewrite (visit_all_bones_length _ _ _ Hl).
Qed.

Lemma child_refs_snoc bs bs' par i :
  parent <$> bs' = (parent <$> bs) ++ [par] ->
  child_refs bs' i = child_refs bs i ++ (if decide (par = Some i) then [length bs] else []).
Proof.
  intros Hp. assert (length bs' = S (length bs)) as Hlen.
  { rewrite <- (length_fmap parent bs'), Hp, length_app, length_fmap. simpl. lia. }
  unfold child_refs. rewrite Hlen, seq_S, filter_app. f_equal.
  - apply filter_ext_elem. intros j [_ Hj]%elem_of_seq. simpl in Hj.
    rewrite <- !list_lookup_fmap, Hp, lookup_app_l by (by rewrite length_fmap). done.
  - simpl. rewrite filter_cons, filter_nil.
    rewrite <- list_lookup_fmap, Hp.
    rewrite <- (length_fmap parent bs), list_lookup_middle by done.
    destruct (decide (par = Some i)) as [->|Hne]; [by rewrite decide_True|].
    rewrite decide_False; [done|]. congruence.
Qed.

(** The child list of every Bone holds the Bones whose parent it is. *)
Lemma visit_all_children nm l s :
  wf_calls l -> visit_all l (init_state nm) = Ok s ->
  forall i b, bones s !! i = Some b -> children b = child_refs (bones s) i.
Proof.
  revert l s.
  apply (visit_all_ind nm (fun l s => forall i b, bones s !! i = Some b ->
    children b = child_refs (bones s) i)).
  { intros i b Hb. apply lookup_lt_Some in Hb. simpl in Hb. lia. }
  intros l node par s n s' Hwf Hl IH Hn i b' Hb'.
  pose proof Hn as (cell & Hparents & _ & Hcp & _)%(dfs_node_fmap parent); [|done].
  rewrite Hcp in Hparents. rewrite (child_refs_snoc _ _ _ _ Hparents).
  apply dfs_node_Ok in Hn as (phy & _ & -> & Hbs & _). simpl in Hbs.
  pose proof (wf_calls_app_l _ _ Hwf) as Hwf'.
  assert (forall b, bones s !! length (bones s) = Some b -> False) as Hfresh.
  { intros b Hb%lookup_lt_Some. lia. }
  assert (child_refs (bones s) (length (bones s)) = []) as Hnone.
  { apply filter_none. intros j [_ Hj]%elem_of_seq Hpj. simpl in Hj.
    apply fmap_Some in Hpj as (b & Hb & Hpb).
    pose proof (visit_all_parent_lt _ _ _ _ _ Hwf' Hl Hb) as Hlt.
    rewrite <- Hpb in Hlt. lia. }
  destruct par as [q|].
  - pose proof (wf_calls_parent_lt _ _ _ Hwf) as Hq.
    rewrite <- (visit_all_bones_length _ _ _ Hl) in Hq.
    rewrite Hbs in Hb'. destruct (decide (i = q)) as [->|Hne].
    + rewrite list_lookup_alter_eq, lookup_app_l in Hb' by done.
      apply fmap_Some in Hb' as (b & Hb & ->). simpl.
      rewrite (IH _ _ Hb), decide_True by done. done.
    + rewrite list_lookup_alter_ne in Hb' by done.
      rewrite decide_False by congruence. rewrite app_nil_r.
      apply lookup_app_Some in Hb' as [Hb|[Hlen Hb]]; [by apply IH|].
      destruct (i - length (bones s)) as [|k] eqn:Ek; simpl in Hb; [|done].
      injection Hb as <-. simpl. assert (i = length (bones s)) as -> by lia. done.
  - rewrite decide_False by done. rewrite app_nil_r. rewrite Hbs in Hb'.
    apply lookup_app_Some in Hb' as [Hb|[Hlen Hb]]; [by apply IH|].
    destruct (i - length (bones s)) as [|k] eqn:Ek; simpl in Hb; [|done].
    injection Hb as <-. simpl. assert (i = length (bones s)) as -> by lia. done.
Qed.

(** ** The component scan *)

Lemma for_each_ext {A S} (body1 body2 : A -> S -> Result S) xs s :
  (forall x s, body1 x s = body2 x s) -> for_each body1 xs s = for_each body2 xs s.
Proof.
  intros H. revert s. induction xs as [|x xs IH]; intros s; simpl; [done|].
  rewrite H. destruct (body2 x s); simpl; [apply IH|done].
Qed.

Lemma scan_component_with bs tbl c acc :
  scan_component bs tbl c acc =
  scan_with (fun pid => match tbl !! pid with
                        | Some j => Ok (name (bs !!! j))
                        | None => Raise (PathIdKeyError pid)
                        end) c acc.
Proof.
  unfold scan_component, scan_with, component_phy_type.
  destruct (comp_type c); try done. destruct (m_Script c); [|done].
  destruct (script_phy_type _); [|done]. destruct (pivotNode _); [|done].
  by destruct (tbl !! _).
Qed.

Lemma scan_with_ext r1 r2 c acc :
  (forall pid, r1 pid = r2 pid) -> scan_with r1 c acc = scan_with r2 c acc.
Proof.
  intros H. unfold scan_with. destruct (component_phy_type c); [|done].
  destruct (pivotNode _); [|done]. by rewrite H.
Qed.

Lemma pivot_name_snoc nodes node i pid :
  i <= length nodes -> pivot_name (nodes ++ [node]) i pid = pivot_name nodes i pid.
Proof.
  intros Hi. unfold pivot_name. rewrite take_app_le by done.
  destruct (registered _ pid) as [j|] eqn:E; [|done].
  apply last_index_lt in E. rewrite length_take in E.
  rewrite lookup_app_l by lia. done.
Qed.

(** The descriptor of every Bone is the outcome of the scan of the
    components of its GameObject, with the pivots resolved among the
    transforms visited before it. *)
Lemma visit_all_physics nm l s :
  wf_calls l -> visit_all l (init_state nm) = Ok s ->
  forall i node b, (fst <$> l) !! i = Some node -> bones s !! i = Some b ->
    for_each (scan_with (pivot_name (fst <$> l) i))
             (m_Components (m_GameObject node)) None = Ok (physics b).
Proof.
  revert l s.
  apply (visit_all_ind nm (fun l s =>
    forall i node b, (fst <$> l) !! i = Some node -> bones s !! i = Some b ->
      for_each (scan_with (pivot_name (fst <$> l) i))
               (m_Components (m_GameObject node)) None = Ok (physics b))).
  { intros i node b Hn. apply lookup_lt_Some in Hn. simpl in Hn. lia. }
  intros l nd par s n s' Hwf Hl IH Hn i node b' Hnode Hb'.
  pose proof (wf_calls_app_l _ _ Hwf) as Hwf'.
  pose proof (visit_all_bones_length _ _ _ Hl) as Hlen.
  pose proof Hn as (cell & Hf & _ & _ & _ & _ & Hscan)%(dfs_node_fmap physics); [|done].
  assert (physics <$> bones s' !! i = Some (physics b')) as Hi by (by rewrite Hb').
  rewrite <- list_lookup_fmap, Hf in Hi.
  rewrite fmap_app in Hnode. rewrite fmap_app.
  change (fst <$> [(nd, par)]) with [nd] in *.
  apply lookup_app_Some in Hi as [Hi|[Hge Hi]].
  - rewrite list_lookup_fmap in Hi. apply fmap_Some in Hi as (b & Hb & ->).
    assert (i < length l) as Hlt by (apply lookup_lt_Some in Hb; lia).
    rewrite lookup_app_l in Hnode by (by rewrite length_fmap).
    rewrite <- (IH _ _ _ Hnode Hb). apply for_each_ext. intros c acc.
    apply scan_with_ext. intros pid. apply pivot_name_snoc. rewrite length_fmap. lia.
  - rewrite length_fmap in Hi, Hge.
    destruct (i - length (bones s)) as [|k] eqn:Ek; simpl in Hi; [|done].
    injection Hi as <-. assert (i = length l) as -> by lia.
    rewrite <- (length_fmap fst l), list_lookup_middle in Hnode by done.
    injection Hnode as <-. rewrite <- Hscan. apply for_each_ext. intros c acc.
    rewrite scan_component_with. apply scan_with_ext. intros pid.
    unfold pivot_name. rewrite take_app_length' by (by rewrite length_fmap).
    rewrite (visit_all_path_id_tbl _ _ _ Hwf' Hl).
    destruct (registered _ pid) as [j|] eqn:E; [|done].
    apply last_index_lt in E. rewrite lookup_app_l by done.
    rewrite length_fmap in E.
    destruct (lookup_lt_is_Some_2 l j E) as [[nj pj] Hj].
    rewrite list_lookup_fmap, Hj. simpl.
    assert ((name <$> bones s) !! j = Some (m_Name (m_GameObject nj))) as Hnm.
    { by rewrite (visit_all_names _ _ _ Hwf' Hl), list_lookup_fmap, Hj. }
    rewrite list_lookup_fmap in Hnm. apply fmap_Some in Hnm as (bj & Hbj & ->).
    by rewrite (list_lookup_total_correct _ _ _ Hbj).
Qed.

Lemma last_recognized_snoc comps c :
  last_recognized (comps ++ [c]) =
  match component_phy_type c with
  | Some _ => Some c
  | None => last_recognized comps
  end.
Proof.
  unfold last_recognized. rewrite filter_app, filter_cons, filter_nil.
  destruct (component_phy_type c) eqn:E.
  - rewrite decide_True by eauto. apply last_snoc.
  - rewrite decide_False by (by intros [? ?]). by rewrite app_nil_r.
Qed.

Lemma last_recognized_Some comps c :
  last_recognized comps = Some c -> c ∈ comps /\ is_Some (component_phy_type c).
Proof.
  unfold last_recognized. intros H%last_Some_elem_of.
  apply list_elem_of_filter in H. tauto.
Qed.

Lemma last_recognized_None comps :
  last_recognized comps = None <-> forall c, c ∈ comps -> component_phy_type c = None.
Proof.
  unfold last_recognized. rewrite last_None. split.
  - intros H c Hc. destruct (component_phy_type c) eqn:E; [|done].
    exfalso. eapply (filter_nil_not_elem_of _ _ c H); [|done]. rewrite E. eauto.
  - intros H. apply filter_none. intros c Hc [ty Hty]. rewrite (H c Hc) in Hty. done.
Qed.

(** The scan succeeds exactly when every pivot of a recognized component
    resolves, and it leaves the descriptor of the last recognized one. *)
Lemma scan_all_Ok resolve comps acc r :
  for_each (scan_with resolve) comps acc = Ok r <->
  (forall c pid, c ∈ comps -> is_Some (component_phy_type c) ->
     pivotNode (read_typetree c) = Some pid -> exists nm, resolve pid = Ok nm) /\
  r = match last_recognized comps with
      | Some c => match pivotNode (read_typetree c) with
                  | Some pid => match resolve pid with
                                | Ok nm => descriptor c (Some nm)
                                | Raise _ => None
                                end
                  | None => descriptor c None
                  end
      | None => acc
      end.
Proof.
  revert r. induction comps as [|c comps IH] using rev_ind; intros r.
  - simpl. split.
    + intros [= <-]. split; [|done]. intros c pid Hc. by apply elem_of_nil in Hc.
    + by intros [_ ->].
  - rewrite for_each_snoc_Ok, last_recognized_snoc. split.
    + intros (r1 & H1 & H2). apply IH in H1 as [Hres Hr1]. unfold scan_with in H2.
      split.
      * intros c' pid [Hc'|Hc']%elem_of_app Hty Hpid; [by eapply Hres|].
        apply list_elem_of_singleton in Hc' as ->. destruct Hty as [ty Hty].
        rewrite Hty, Hpid in H2. destruct (resolve pid) as [nm|e]; [eauto|done].
      * destruct (component_phy_type c) as [ty|] eqn:Hty; [|congruence].
        unfold descriptor. rewrite Hty.
        destruct (pivotNode _) as [pid|]; [|congruence].
        destruct (resolve pid); simpl in H2; congruence.
    + intros [Hres ->].
      eexists. split.
      * apply IH. split; [|done]. intros c' pid Hc'. apply Hres, elem_of_app. by left.
      * unfold scan_with. destruct (component_phy_type c) as [ty|] eqn:Hty; [|done].
        unfold descriptor. rewrite Hty.
        destruct (pivotNode _) as [pid|] eqn:Hpid; [|done].
        destruct (Hres c pid) as [nm ->]; [|eauto|done|done].
        apply elem_of_app. right. by apply list_elem_of_singleton.
Qed.

Lemma script_phy_type_Some script :
  is_Some (script_phy_type script) <-> script ∈ recognized_scripts.
Proof.
  unfold script_phy_type, recognized_scripts. rewrite !elem_of_cons, elem_of_nil.
  destruct (String.eqb_spec script "SpringManager");
    destruct (String.eqb_spec script "SekaiSpringBone");
    destruct (String.eqb_spec script "SpringCapsuleCollider");
    destruct (String.eqb_spec script "SpringSphereCollider");
    split; try (intros _; eauto; tauto); try (intros [? ?]; done); try tauto.
Qed.

Lemma component_phy_type_Some c :
  is_Some (component_phy_type c) <-> recognized c.
Proof.
  unfold component_phy_type, recognized.
  destruct (comp_type c); try (split; [by intros [? ?]|by intros [? _]]).
  destruct (m_Script c) as [script|].
  - rewrite script_phy_type_Some. split; [by eauto|]. by intros [_ (? & [= <-] & ?)].
  - split; [by intros [? ?]|]. by intros [_ (? & ? & _)].
Qed.

(** ** [build_armature] and [search_env_meshes] *)

Lemma build_armature_calls root :
  build_armature root =
  visit_all (dfs_calls root None 0) (init_state (m_Name (m_GameObject root))).
Proof. unfold build_armature. by rewrite dfs_visit_all. Qed.

Lemma for_each_Raise {A S} (body : A -> S -> Result S) xs s e :
  for_each body xs s = Raise e -> exists x s', x ∈ xs /\ body x s' = Raise e.
Proof.
  revert s. induction xs as [|x xs IH]; intros s; simpl; [done|].
  destruct (body x s) as [s1|e1] eqn:E; simpl.
  - intros (y & s' & Hy & H)%IH. exists y, s'. split; [by right|done].
  - intros [= <-]. exists x, s. split; [by left|done].
Qed.

(** The only failure of the traversal is a pivot lookup. *)
Lemma build_armature_Raise root e :
  build_armature root = Raise e -> exists pid, e = PathIdKeyError pid.
Proof.
  rewrite build_armature_calls. unfold visit_all.
  intros ([node par] & s & _ & H)%for_each_Raise. simpl in H.
  unfold dfs_node in H.
  destruct (for_each _ _ None) as [phy|e1] eqn:E; simpl in H; [done|].
  injection H as <-. apply for_each_Raise in E as (c & acc & _ & E).
  rewrite scan_component_with in E. unfold scan_with in E.
  destruct (component_phy_type c); [|done]. destruct (pivotNode _) as [pid|]; [|done].
  destruct (path_id_tbl s !! pid); simpl in E; [done|]. injection E as <-. eauto.
Qed.

Lemma collect_objects env acc :
  fold_left (fun acc obj => collect_object obj acc) env acc =
  (acc.1 ++ static_meshes env, acc.2 ++ transform_roots env).
Proof.
  revert acc. induction env as [|obj env IH]; intros [st rs]; simpl.
  - by rewrite !app_nil_r.
  - rewrite IH. unfold static_meshes, transform_roots. destruct obj as [data|data|ty]; simpl.
    + destruct (m_MeshRenderer data); simpl; [|done]. by rewrite <- app_assoc.
    + destruct (m_Father data =? 0)%Z; simpl; [|done]. by rewrite <- app_assoc.
    + done.
Qed.

Lemma search_env_meshes_Ok env statics arms :
  search_env_meshes env = Ok (statics, arms) ->
  statics = static_meshes env /\
  exists states,
    Forall2 (fun root s => build_armature root = Ok s) (transform_roots env) states /\
    arms = returned <$>
           filter (fun s => is_Some (skinned_mesh_gameobject (armature s))) states.
Proof.
  unfold search_env_meshes. rewrite collect_objects. simpl.
  generalize (transform_roots env). intros roots.
  assert (forall acc arms,
    for_each (fun root armatures =>
                let! s := build_armature root in
                match skinned_mesh_gameobject (armature s) with
                | Some _ => Ok (armatures ++ [(armature s, bones s)])
                | None => Ok armatures
                end) roots acc = Ok arms ->
    exists states,
      Forall2 (fun root s => build_armature root = Ok s) roots states /\
      arms = acc ++ (returned <$>
             filter (fun s => is_Some (skinned_mesh_gameobject (armature s))) states)) as Hloop.
  { induction roots as [|root roots IH]; intros acc arms'; simpl.
    - intros [= <-]. exists []. split; [constructor|]. by rewrite app_nil_r.
    - destruct (build_armature root) as [s|e] eqn:E; simpl; [|done].
      destruct (skinned_mesh_gameobject (armature s)) as [go|] eqn:Hsk; simpl.
      + intros (states & Hst & ->)%IH. exists (s :: states). split; [by constructor|].
        rewrite filter_cons_True by (rewrite Hsk; eauto). rewrite fmap_cons.
        by rewrite <- app_assoc.
      + intros (states & Hst & ->)%IH. exists (s :: states). split; [by constructor|].
        rewrite filter_cons_False; [done|]. rewrite Hsk. by intros [? ?]. }
  destruct (for_each _ roots []) as [arms'|e] eqn:E; simpl; [|done].
  intros [= <- <-]. split; [done|]. apply Hloop in E as (states & Hst & ->). eauto.
Qed.


(** ** What a built armature holds *)

Lemma build_skinned root s :
  build_armature root = Ok s ->
  is_Some (skinned_mesh_gameobject (armature s)) <-> skinned_subtree root = true.
Proof.
  rewrite build_armature_calls. intros H.
  destruct (visit_all_armature _ _ _ (dfs_calls_wf root) H) as (_ & _ & ->).
  unfold skinned_subtree. rewrite <- (dfs_calls_preorder root None 0).
  rewrite Exists_exists, existsb_exists. split.
  - intros ([node p] & Hin & Hsk). exists node. split; [|done].
    apply list_elem_of_In. change node with (fst (node, p)). by apply list_elem_of_fmap_2.
  - intros (node & Hin & Hsk). apply list_elem_of_In, list_elem_of_fmap in Hin as (c & -> & Hc).
    eauto.
Qed.

Lemma search_armature_built env statics arms a :
  search_env_meshes env = Ok (statics, arms) -> a ∈ arms ->
  exists root s, root ∈ transform_roots env /\ build_armature root = Ok s /\
                 a = returned s /\ skinned_subtree root = true.
Proof.
  intros (_ & states & Hst & ->)%search_env_meshes_Ok (s & -> & Hs)%list_elem_of_fmap.
  apply list_elem_of_filter in Hs as [Hsk Hs].
  apply list_elem_of_lookup in Hs as [i Hi].
  destruct (Forall2_lookup_r _ _ _ _ _ Hst Hi) as (root & Hroot & Hb).
  exists root, s. split_and!; try done.
  - by eapply list_elem_of_lookup_2.
  - by apply (build_skinned _ _ Hb).
Qed.

Lemma build_bone_of_node root s i node :
  build_armature root = Ok s -> preorder root !! i = Some node ->
  exists b, bones s !! i = Some b /\ name b = m_Name (m_GameObject node).
Proof.
  rewrite build_armature_calls. intros H Hi.
  pose proof (visit_all_names _ _ _ (dfs_calls_wf root) H) as Hn.
  rewrite <- (dfs_calls_preorder root None 0) in Hi.
  rewrite list_lookup_fmap in Hi. apply fmap_Some in Hi as (c & Hc & ->).
  assert ((name <$> bones s) !! i = Some (m_Name (m_GameObject c.1))) as Hb
    by (by rewrite Hn, list_lookup_fmap, Hc).
  rewrite list_lookup_fmap in Hb. apply fmap_Some in Hb as (b & Hb & ->). eauto.
Qed.

Lemma build_node_of_bone root s i b :
  build_armature root = Ok s -> bones s !! i = Some b ->
  exists node, preorder root !! i = Some node /\ name b = m_Name (m_GameObject node).
Proof.
  intros H Hb. pose proof H as H'. rewrite build_armature_calls in H'.
  apply visit_all_bones_length in H'.
  rewrite dfs_calls_length, <- (dfs_calls_length root None 0),
    <- (length_fmap fst), dfs_calls_preorder in H'.
  destruct (lookup_lt_is_Some_2 (preorder root) i) as [node Hnode].
  { rewrite <- H'. by eapply lookup_lt_Some. }
  destruct (build_bone_of_node _ _ _ _ H Hnode) as (b' & Hb' & Hnm).
  exists node. split; [done|]. congruence.
Qed.

Lemma nth_ancestor_le (bs : list Bone) :
  (forall i b q, bs !! i = Some b -> parent b = Some q -> q < i) ->
  forall n i a, nth_ancestor bs n i = Some a -> a + n <= i.
Proof.
  intros Hlt n. induction n as [|n IH]; intros i a; simpl.
  - intros [= <-]. lia.
  - destruct (bs !! i) as [b|] eqn:Hb; [|done].
    destruct (parent b) as [q|] eqn:Hq; [|done].
    intros Ha%IH. specialize (Hlt _ _ _ Hb Hq). lia.
Qed.

Lemma nth_ancestor_root (bs : list Bone) :
  (forall i b, bs !! i = Some b ->
     match parent b with None => i = 0 | Some q => q < i end) ->
  forall i, i < length bs -> exists n, nth_ancestor bs n i = Some 0.
Proof.
  intros Hlt i. induction i as [i IH] using lt_wf_ind. intros Hi.
  destruct (lookup_lt_is_Some_2 bs i Hi) as [b Hb].
  pose proof (Hlt _ _ Hb) as Hp. destruct (parent b) as [q|] eqn:Hq.
  - destruct (IH q Hp) as [n Hn]; [lia|]. exists (S n). simpl. by rewrite Hb, Hq.
  - exists 0. simpl. by rewrite Hp.
Qed.

Lemma elem_of_child_refs (bs : list Bone) i j :
  j ∈ child_refs bs i <-> exists bj, bs !! j = Some bj /\ parent bj = Some i.
Proof.
  unfold child_refs. rewrite list_elem_of_filter, elem_of_seq. split.
  - intros [Hp _]. apply fmap_Some in Hp as (bj & Hbj & Hp). eauto.
  - intros (bj & Hbj & Hp). split; [by rewrite Hbj; simpl; rewrite Hp|].
    apply lookup_lt_Some in Hbj. lia.
Qed.

Lemma NoDup_child_refs (bs : list Bone) i : NoDup (child_refs bs i).
Proof. apply NoDup_filter, NoDup_seq. Qed.

(** The traversal succeeds exactly when every pivot of a recognized
    component is registered by the time its transform is visited. *)
Lemma visit_all_Ok_iff nm l :
  wf_calls l ->
  (exists s, visit_all l (init_state nm) = Ok s) <->
  (forall i node c pid,
     (fst <$> l) !! i = Some node -> c ∈ m_Components (m_GameObject node) ->
     is_Some (component_phy_type c) -> pivotNode (read_typetree c) = Some pid ->
     is_Some (registered (take i (fst <$> l)) pid)).
Proof.
  intros Hwf. split.
  - intros [s Hs] i node c pid Hnode Hc Hty Hpid.
    destruct (lookup_lt_is_Some_2 (bones s) i) as [b Hb].
    { rewrite (visit_all_bones_length _ _ _ Hs), <- (length_fmap fst).
      by eapply lookup_lt_Some. }
    pose proof (visit_all_physics _ _ _ Hwf Hs _ _ _ Hnode Hb) as Hphy.
    apply scan_all_Ok in Hphy as [Hres _].
    destruct (Hres c pid Hc Hty Hpid) as [pn Hpn]. unfold pivot_name in Hpn.
    destruct (registered _ pid); [eauto|done].
  - induction l as [|[node par] l IH] using rev_ind; intros Hall; [by eexists|].
    destruct IH as [s Hs]; [by eapply wf_calls_app_l|..].
    { intros i nd c pid Hnd Hc Hty Hpid.
      assert (i < length l) as Hi.
      { apply lookup_lt_Some in Hnd. by rewrite length_fmap in Hnd. }
      specialize (Hall i nd c pid). rewrite fmap_app, lookup_app_l in Hall
        by (by rewrite length_fmap).
      rewrite take_app_le in Hall by (rewrite length_fmap; lia). by apply Hall. }
    assert (exists r, for_each (scan_component (bones s) (path_id_tbl s))
                       (m_Components (m_GameObject node)) None = Ok r) as [r Hr].
    { eexists. rewrite (for_each_ext _ _ _ _ (scan_component_with _ _)).
      apply scan_all_Ok. split; [|done]. intros c pid Hc Hty Hpid.
      specialize (Hall (length l) node c pid).
      rewrite fmap_app in Hall. simpl in Hall.
      rewrite <- (length_fmap fst l), list_lookup_middle, take_app_length in Hall by done.
      destruct (Hall eq_refl Hc Hty Hpid) as [j Hj].
      rewrite (visit_all_path_id_tbl _ _ _ (wf_calls_app_l _ _ Hwf) Hs), Hj. eauto. }
    eexists. apply visit_all_snoc_Ok. exists s. eexists. split; [done|].
    unfold dfs_node. rewrite Hr. simpl. done.
Qed.

Lemma build_armature_Ok_iff rt :
  (exists s, build_armature rt = Ok s) <->
  (forall i node c pid,
     preorder rt !! i = Some node -> c ∈ m_Components (m_GameObject node) ->
     is_Some (component_phy_type c) -> pivotNode (read_typetree c) = Some pid ->
     is_Some (registered (take i (preorder rt)) pid)).
Proof.
  rewrite build_armature_calls, <- (dfs_calls_preorder rt None 0).
  apply visit_all_Ok_iff, dfs_calls_wf.
Qed.

Lemma build_physics rt s i node b :
  build_armature rt = Ok s -> preorder rt !! i = Some node -> bones s !! i = Some b ->
  for_each (scan_with (pivot_name (preorder rt) i))
           (m_Components (m_GameObject node)) None = Ok (physics b).
Proof.
  rewrite build_armature_calls, <- (dfs_calls_preorder rt None 0).
  intros H. apply (visit_all_physics _ _ _ (dfs_calls_wf rt) H).
Qed.

Lemma build_links rt s :
  build_armature rt = Ok s ->
  root (armature s) = Some 0 /\ 0 < length (bones s) /\
  (forall i b, bones s !! i = Some b ->
     match parent b with None => i = 0 | Some q => q < i end) /\
  (forall i b, bones s !! i = Some b -> children b = child_refs (bones s) i) /\
  (forall i b, bones s !! i = Some b ->
     global_path b = path_from_root_of (bones s) (parent b) (name b)).
Proof.
  rewrite build_armature_calls. intros H. pose proof (dfs_calls_wf rt) as Hwf.
  split_and!.
  - destruct (visit_all_armature _ _ _ Hwf H) as (_ & -> & _).
    by destruct rt.
  - rewrite (visit_all_bones_length _ _ _ H), dfs_calls_length. destruct rt; simpl; lia.
  - intros i b. by apply (visit_all_parent_lt _ _ _ _ _ Hwf H).
  - by apply (visit_all_children _ _ _ Hwf H).
  - by apply (visit_all_paths _ _ _ Hwf H).
Qed.

Lemma build_tables rt s :
  build_armature rt = Ok s ->
  (forall k, bone_name_tbl (armature s) !! k =
             last_index (fun n => bool_decide (n = k)) (name <$> bones s)) /\
  (forall k, bone_path_hash_tbl (armature s) !! k =
             last_index (fun p => bool_decide (get_name_hash p = k))
                        (global_path <$> bones s)).
Proof.
  rewrite build_armature_calls. intros H. pose proof (dfs_calls_wf rt) as Hwf. split.
  - by apply (visit_all_name_tbl _ _ _ Hwf H).
  - by apply (visit_all_path_hash_tbl _ _ _ Hwf H).
Qed.

(** A table filled in visit order maps a key to the last Bone that has it. *)
Lemma last_index_fmap_Some {A K} `{EqDecision K} (f : A -> K) (l : list A) k m :
  last_index (fun x => bool_decide (x = k)) (f <$> l) = Some m <->
  (exists b, l !! m = Some b /\ f b = k) /\
  (forall j b, m < j -> l !! j = Some b -> f b <> k).
Proof.
  rewrite last_index_Some. split.
  - intros [(x & Hx & Hk) Hlast]. rewrite list_lookup_fmap in Hx.
    apply fmap_Some in Hx as (b & Hb & ->). apply bool_decide_eq_true in Hk. split; [eauto|].
    intros j b' Hj Hb' Hk'. specialize (Hlast j (f b') Hj).
    rewrite list_lookup_fmap, Hb' in Hlast. specialize (Hlast eq_refl).
    apply bool_decide_eq_false in Hlast. done.
  - intros [(b & Hb & Hk) Hlast]. split.
    + exists (f b). rewrite list_lookup_fmap, Hb. split; [done|]. by apply bool_decide_eq_true.
    + intros j y Hj Hy. rewrite list_lookup_fmap in Hy.
      apply fmap_Some in Hy as (b' & Hb' & ->). apply bool_decide_eq_false. eauto.
Qed.

Lemma last_index_fmap {A B} (f : A -> B) (P : B -> bool) (l : list A) :
  last_index P (f <$> l) = last_index (fun x => P (f x)) l.
Proof.
  unfold last_index. generalize 0. generalize (@None nat).
  induction l as [|x l IH]; intros acc n; simpl; [done|]. apply IH.
Qed.

(** ** The claims on the bone graph *)

(** C1 (as amended). For every Armature returned by [search_env_meshes]:
    the root Bone has the empty path (not its own name); a Bone whose
    parent has a non-empty path has the parent's path, ["/"] and its own
    name; a Bone whose parent has the empty path (so every child of the
    root) has its own name as path. For the forest
    Position -> Hips -> Spine the keys of [bone_path_hash_tbl] are the
    hashes of [""], ["Hips"] and ["Hips/Spine"], and [bone_name_tbl] has
    three entries. *)
Theorem C1_path_from_root_relative_to_root :
  (forall env statics arms arm bs,
     search_env_meshes env = Ok (statics, arms) -> (arm, bs) ∈ arms ->
     (exists r b, root arm = Some r /\ bs !! r = Some b /\ global_path b = "") /\
     (forall i b q bq,
        bs !! i = Some b -> parent b = Some q -> bs !! q = Some bq ->
        global_path b = if str_bool (global_path bq)
                        then global_path bq +:+ "/" +:+ name b
                        else name b)) /\
  (exists arm bs b,
     search_env_meshes position_hips_spine = Ok ([], [(arm, bs)]) /\
     root arm = Some 0 /\ bs !! 0 = Some b /\ name b = "Position" /\
     dom (bone_path_hash_tbl arm)
       = {[get_name_hash ""; get_name_hash "Hips"; get_name_hash "Hips/Spine"]} /\
     dom (bone_name_tbl arm) = {["Position"; "Hips"; "Spine"]}).
Proof.
  split.
  - intros env statics arms arm bs Hs Ha.
    destruct (search_armature_built _ _ _ _ Hs Ha) as (rt & s & _ & Hb & [= -> ->] & _).
    destruct (build_links _ _ Hb) as (Hroot & Hlen & Hlt & _ & Hpath).
    split.
    + destruct (lookup_lt_is_Some_2 (bones s) 0 Hlen) as [b0 Hb0].
      exists 0, b0. split_and!; try done.
      rewrite (Hpath _ _ Hb0). pose proof (Hlt _ _ Hb0) as H0.
      destruct (parent b0); [lia|done].
    + intros i b q bq Hi Hq Hbq. rewrite (Hpath _ _ Hi), Hq. simpl.
      by rewrite (list_lookup_total_correct _ _ _ Hbq).
  - eexists _, _, _. split; [vm_compute; reflexivity|].
    split_and!; try reflexivity; by vm_compute.
Qed.

(** C2. Every Armature returned by [search_env_meshes] has exactly one
    Bone without parent, stored as [armature.root]; following the parent
    links never comes back to a Bone and always reaches the root; and a
    Bone with a parent occurs once in the child list of that parent and in
    no other child list, while child lists hold only such Bones. *)
Theorem C2_armature_is_one_rooted_tree env statics arms arm bs :
  search_env_meshes env = Ok (statics, arms) -> (arm, bs) ∈ arms ->
  (exists r, root arm = Some r /\ is_Some (bs !! r) /\
     (forall i b, bs !! i = Some b -> (parent b = None <-> i = r)) /\
     (forall i, i < length bs -> exists n, nth_ancestor bs n i = Some r)) /\
  (forall i n, 0 < n -> nth_ancestor bs n i <> Some i) /\
  (forall j bj q, bs !! j = Some bj -> parent bj = Some q ->
     exists bq, bs !! q = Some bq /\ j ∈ children bq /\ NoDup (children bq) /\
       forall i b, bs !! i = Some b -> j ∈ children b -> i = q) /\
  (forall i b j, bs !! i = Some b -> j ∈ children b ->
     exists bj, bs !! j = Some bj /\ parent bj = Some i).
Proof.
  intros Hs Ha.
  destruct (search_armature_built _ _ _ _ Hs Ha) as (rt & s & _ & Hb & [= -> ->] & _).
  destruct (build_links _ _ Hb) as (Hroot & Hlen & Hlt & Hch & _).
  assert (forall i b q, bones s !! i = Some b -> parent b = Some q -> q < i) as Hlt'.
  { intros i b q Hi Hq. specialize (Hlt _ _ Hi). by rewrite Hq in Hlt. }
  split_and!.
  - exists 0. split_and!; [done|by apply lookup_lt_is_Some_2| |by apply nth_ancestor_root].
    intros i b Hi. specialize (Hlt _ _ Hi). split.
    + intros Hp. by rewrite Hp in Hlt.
    + intros ->. destruct (parent b); [lia|done].
  - intros i n Hn Hi. apply (nth_ancestor_le _ Hlt') in Hi. lia.
  - intros j bj q Hj Hq.
    destruct (lookup_lt_is_Some_2 (bones s) q) as [bq Hbq].
    { specialize (Hlt' _ _ _ Hj Hq). apply lookup_lt_Some in Hj. lia. }
    exists bq. rewrite (Hch _ _ Hbq). split_and!; [done| |apply NoDup_child_refs|].
    + apply elem_of_child_refs. eauto.
    + intros i b Hi. rewrite (Hch _ _ Hi).
      intros (bj' & Hj' & Hp)%elem_of_child_refs. congruence.
  - intros i b j Hi. rewrite (Hch _ _ Hi). by intros ?%elem_of_child_refs.
Qed.

(** C3. When [search_env_meshes] returns, the armatures it returns are, in
    order, those built from the root transforms whose subtree has a
    GameObject with a skinned mesh renderer: the armature of a root is
    returned if and only if its subtree has one. *)
Theorem C3_armature_iff_skinned_descendant env statics arms :
  search_env_meshes env = Ok (statics, arms) ->
  Forall2 (fun rt a => exists s, build_armature rt = Ok s /\ a = returned s)
          (filter (fun rt => skinned_subtree rt = true) (transform_roots env)) arms /\
  (forall rt, rt ∈ transform_roots env ->
     exists s, build_armature rt = Ok s /\
               (returned s ∈ arms <-> skinned_subtree rt = true)) /\
  (forall rt, skinned_subtree rt = true <->
     exists node, node ∈ preorder rt /\ is_Some (m_SkinnedMeshRenderer (m_GameObject node))).
Proof.
  intros (_ & states & Hst & ->)%search_env_meshes_Ok. split_and!.
  - induction Hst as [|rt s roots states Hb _ IH]; [constructor|].
    pose proof (build_skinned _ _ Hb) as Hsk.
    rewrite !filter_cons. destruct (decide (skinned_subtree rt = true)) as [Hy|Hn].
    + rewrite decide_True by (by apply Hsk). rewrite fmap_cons. constructor; eauto.
    + rewrite decide_False by (by rewrite Hsk). done.
  - intros rt [i Hi]%list_elem_of_lookup.
    destruct (Forall2_lookup_l _ _ _ _ _ Hst Hi) as (s & Hs & Hb).
    exists s. split; [done|]. rewrite <- (build_skinned _ _ Hb). split.
    + intros (s' & [= Ha Hbs] & [Hsk _]%list_elem_of_filter)%list_elem_of_fmap.
      by rewrite Ha.
    + intros Hsk. apply list_elem_of_fmap_2, list_elem_of_filter. split; [done|].
      by eapply list_elem_of_lookup_2.
  - intros rt. unfold skinned_subtree. rewrite existsb_exists.
    split; intros (node & Hin & Hsk); exists node.
    + split; [by apply list_elem_of_In|]. by apply bool_decide_eq_true in Hsk.
    + split; [by apply list_elem_of_In|]. by apply bool_decide_eq_true.
Qed.

(** C4. Take a component of a recognized kind whose fields name a pivot
    by path id, on the transform visited at position [i] of the pre-order.
    When the traversal succeeds, a transform with that path id was visited
    before position [i]; the pivot is the name of the Bone of the last such
    transform, and it is what the descriptor holds when the component is
    the one that decides the descriptor. When no transform visited before
    position [i] has that path id (the transform being visited does not
    count), the traversal raises the lookup failure and builds nothing. *)
Theorem C4_pivot_resolves_to_earlier_bone rt i node c pid :
  preorder rt !! i = Some node ->
  c ∈ m_Components (m_GameObject node) -> recognized c ->
  pivotNode (read_typetree c) = Some pid ->
  (forall s b,
     build_armature rt = Ok s -> bones s !! i = Some b ->
     exists j nodej bj,
       j < i /\ preorder rt !! j = Some nodej /\ path_id nodej = pid /\
       (forall j' n', j < j' < i -> preorder rt !! j' = Some n' -> path_id n' <> pid) /\
       bones s !! j = Some bj /\ name bj = m_Name (m_GameObject nodej) /\
       (last_recognized (m_Components (m_GameObject node)) = Some c ->
        physics b = descriptor c (Some (name bj)) /\
        pivot <$> physics b = Some (Some (name bj)))) /\
  ((forall j nodej, j < i -> preorder rt !! j = Some nodej -> path_id nodej <> pid) ->
   exists k, build_armature rt = Raise (PathIdKeyError k)).
Proof.
  intros Hnode Hc Hrec%component_phy_type_Some Hpid.
  assert (forall s, build_armature rt = Ok s ->
    exists j nodej, registered (take i (preorder rt)) pid = Some j /\
      j < i /\ preorder rt !! j = Some nodej /\ path_id nodej = pid /\
      (forall j' n', j < j' < i -> preorder rt !! j' = Some n' -> path_id n' <> pid)) as Hreg.
  { intros s Hs.
    destruct (proj1 (build_armature_Ok_iff rt) (ex_intro _ s Hs) i node c pid)
      as [j Hj]; try done.
    pose proof Hj as [(nj & Hnj & Hp) Hlast]%last_index_Some.
    apply lookup_take_Some in Hnj as [Hnj Hji]. apply bool_decide_eq_true in Hp.
    exists j, nj. split_and!; try done.
    intros j' n' [Hj1 Hj2] Hn' Hp'. specialize (Hlast j' n' Hj1).
    rewrite lookup_take_lt in Hlast by done. specialize (Hlast Hn').
    by apply bool_decide_eq_false in Hlast. }
  split.
  - intros s b Hs Hb. destruct (Hreg s Hs) as (j & nj & Hj & Hji & Hnj & Hp & Hlast).
    destruct (build_bone_of_node _ _ _ _ Hs Hnj) as (bj & Hbj & Hnm).
    exists j, nj, bj. split_and!; try done.
    intros Hlr. pose proof (build_physics _ _ _ _ _ Hs Hnode Hb) as Hphy.
    apply scan_all_Ok in Hphy as [_ Hphy]. rewrite Hlr, Hpid in Hphy.
    unfold pivot_name in Hphy. rewrite Hj, Hnj, <- Hnm in Hphy.
    split; [done|]. rewrite Hphy. unfold descriptor.
    destruct Hrec as [ty ->]. done.
  - intros Hnone. destruct (build_armature rt) as [s|e] eqn:E.
    + destruct (Hreg s eq_refl) as (j & nj & _ & Hji & Hnj & Hp & _).
      by destruct (Hnone j nj).
    + apply build_armature_Raise in E as [k ->]. eauto.
Qed.

(** C5. A Bone built by the traversal carries a descriptor if and only if
    its GameObject has a MonoBehaviour component with a script of a
    recognized name; the recognized names are exactly the four of
    [recognized_scripts]; and when no component of the forest has such a
    script, the traversal raises nothing and leaves every Bone without a
    descriptor. *)
Theorem C5_descriptor_iff_recognized_script rt :
  (forall s i node b,
     build_armature rt = Ok s -> preorder rt !! i = Some node -> bones s !! i = Some b ->
     (is_Some (physics b) <->
      exists c, c ∈ m_Components (m_GameObject node) /\ recognized c)) /\
  (forall script, is_Some (script_phy_type script) <->
     script = "SpringSphereCollider" \/ script = "SpringCapsuleCollider" \/
     script = "SekaiSpringBone" \/ script = "SpringManager") /\
  ((forall node c, node ∈ preorder rt -> c ∈ m_Components (m_GameObject node) ->
      ~ recognized c) ->
   exists s, build_armature rt = Ok s /\ forall b, b ∈ bones s -> physics b = None).
Proof.
  assert (forall s i node b,
     build_armature rt = Ok s -> preorder rt !! i = Some node -> bones s !! i = Some b ->
     (is_Some (physics b) <->
      exists c, c ∈ m_Components (m_GameObject node) /\ recognized c)) as Hiff.
  { intros s i node b Hs Hnode Hb.
    pose proof (build_physics _ _ _ _ _ Hs Hnode Hb) as Hphy.
    apply scan_all_Ok in Hphy as [Hres Hphy].
    destruct (last_recognized _) as [c|] eqn:Hlr.
    - apply last_recognized_Some in Hlr as [Hc Hty]. split.
      + intros _. exists c. split; [done|]. by apply component_phy_type_Some.
      + intros _. rewrite Hphy. unfold descriptor. destruct Hty as [ty Hty]. rewrite Hty.
        destruct (pivotNode _) as [pid|] eqn:Hpid; [|eauto].
        destruct (Hres c pid) as [nm ->]; eauto.
    - rewrite Hphy. split; [by intros [? ?]|].
      intros (c & Hc & Hty%component_phy_type_Some).
      rewrite (proj1 (last_recognized_None _) Hlr c Hc) in Hty. by destruct Hty. }
  split_and!; [done| |].
  - intros script. rewrite script_phy_type_Some. unfold recognized_scripts.
    rewrite !elem_of_cons, elem_of_nil. tauto.
  - intros Hnone. destruct (proj2 (build_armature_Ok_iff rt)) as [s Hs].
    { intros i node c pid Hnode Hc Hty%component_phy_type_Some.
      destruct (Hnone node c); [by eapply list_elem_of_lookup_2|done..]. }
    exists s. split; [done|]. intros b [i Hi]%list_elem_of_lookup.
    destruct (build_node_of_bone _ _ _ _ Hs Hi) as (node & Hnode & _).
    pose proof (proj1 (Hiff s i node b Hs Hnode Hi)) as Hn.
    destruct (physics b); [|done]. destruct Hn as (c & Hc & Hrec); [eauto|].
    destruct (Hnone node c); [by eapply list_elem_of_lookup_2|done..].
Qed.

(** C10. The Bones of a built armature are in visit order. Both indexes
    map a key to the last Bone that has it: of two Bones with the same
    name (or the same path hash) the earlier one is not the one the index
    gives. The traversal raises nothing but the failure of a pivot
    lookup, so a repeated key raises nothing. *)
Theorem C10_later_bone_overwrites_index rt :
  (forall s, build_armature rt = Ok s ->
     (forall i node, preorder rt !! i = Some node ->
        exists b, bones s !! i = Some b /\ name b = m_Name (m_GameObject node)) /\
     (forall k m, bone_name_tbl (armature s) !! k = Some m <->
        (exists b, bones s !! m = Some b /\ name b = k) /\
        (forall j b, m < j -> bones s !! j = Some b -> name b <> k)) /\
     (forall k m, bone_path_hash_tbl (armature s) !! k = Some m <->
        (exists b, bones s !! m = Some b /\ get_name_hash (global_path b) = k) /\
        (forall j b, m < j -> bones s !! j = Some b -> get_name_hash (global_path b) <> k)) /\
     (forall i j bi bj, i < j -> bones s !! i = Some bi -> bones s !! j = Some bj ->
        (name bi = name bj -> bone_name_tbl (armature s) !! name bi <> Some i) /\
        (get_name_hash (global_path bi) = get_name_hash (global_path bj) ->
         bone_path_hash_tbl (armature s) !! get_name_hash (global_path bi) <> Some i))) /\
  (forall e, build_armature rt = Raise e -> exists pid, e = PathIdKeyError pid).
Proof.
  split; [|apply build_armature_Raise].
  intros s Hs. destruct (build_tables _ _ Hs) as [Hnm Hh].
  assert (forall k m, bone_name_tbl (armature s) !! k = Some m <->
        (exists b, bones s !! m = Some b /\ name b = k) /\
        (forall j b, m < j -> bones s !! j = Some b -> name b <> k)) as H1.
  { intros k m. rewrite Hnm. apply last_index_fmap_Some. }
  assert (forall k m, bone_path_hash_tbl (armature s) !! k = Some m <->
        (exists b, bones s !! m = Some b /\ get_name_hash (global_path b) = k) /\
        (forall j b, m < j -> bones s !! j = Some b -> get_name_hash (global_path b) <> k)) as H2.
  { intros k m. rewrite Hh, last_index_fmap.
    rewrite <- (last_index_fmap_Some (fun b => get_name_hash (global_path b)) (bones s) k m).
    by rewrite last_index_fmap. }
  split_and!; try done.
  - intros i node. by apply build_bone_of_node.
  - intros i j bi bj Hij Hi Hj. split.
    + intros Heq [_ Hlast]%H1. by apply (Hlast j bj).
    + intros Heq [_ Hlast]%H2. by apply (Hlast j bj).
Qed.
End BoneGraph.

Section PhysicsRig.
Context {F : FloatOps} {N : HostNames}.

(** ** The traversal of the bone tree *)

Lemma BoneTree_tree_ind (P : BoneTree -> Prop) :
  (forall t, Forall P (bt_children t) -> P t) -> forall t, P t.
Proof.
  intros H. fix IH 1. intros [b cs]. apply H. simpl.
  revert cs. fix IHcs 1. intros [|c cs]; constructor; [apply IH|apply IHcs].
Qed.

Lemma dfs_generator_from_bones par depth t :
  (fun item => item.1.2) <$> dfs_generator_from par depth t = tree_bones t.
Proof.
  revert par depth. induction t as [t IH] using BoneTree_tree_ind. intros par depth.
  destruct t as [b cs]. simpl in *. f_equal.
  generalize (Some b) (S depth). intros p d.
  induction IH as [|c cs Hc _ IHcs]; [done|].
  cbn [flat_map]. rewrite fmap_app, Hc. f_equal. exact IHcs.
Qed.

Lemma first_some_None {A B} (f : A -> option B) xs :
  first_some f xs = None <-> Forall (fun x => f x = None) xs.
Proof.
  induction xs as [|x xs IH]; simpl.
  - split; [constructor|done].
  - destruct (f x) eqn:E.
    + split; [done|]. intros H. inversion H; congruence.
    + rewrite IH. split; [by constructor|]. intros H. by inversion H.
Qed.

(** The lookup by name finds nothing exactly when no bone of the tree
    has the name. *)
Lemma recursive_locate_by_name_None t nm :
  recursive_locate_by_name t nm = None <-> forall b, b ∈ tree_bones t -> name b <> nm.
Proof.
  induction t as [t IH] using BoneTree_tree_ind. destruct t as [b cs]. simpl in *.
  destruct (String.eqb_spec (name b) nm) as [Heq|Hne].
  - split; [done|]. intros H. destruct (H b); [by left|done].
  - rewrite first_some_None. split.
    + intros Hall b' [->|Hin]%elem_of_cons; [done|].
      apply list_elem_of_In, in_flat_map in Hin as (c & Hc & Hin).
      apply list_elem_of_In in Hc, Hin.
      rewrite Forall_forall in IH, Hall.
      by apply (proj1 (IH c Hc) (Hall c Hc)).
    + intros Hall. rewrite Forall_forall in IH |- *. intros c Hc.
      apply (IH c Hc). intros b' Hb'. apply Hall. right.
      apply list_elem_of_In, in_flat_map. exists c. by rewrite <- !list_elem_of_In.
Qed.

(** C9. When no bone of the tree under [data.root] is named ['Position'],
    the mapper returns without an exception and leaves the scene and the
    pose constraints as they were: it creates no rigid body, joint or
    constraint. It has only made the armature the active object, in
    object mode. *)
Theorem C9_no_root_bone_no_physics armature data_root h :
  (forall b, b ∈ tree_bones data_root -> name b <> "Position") ->
  import_armature_physics_constraints armature data_root h = Ok (object_mode h) /\
  objects (object_mode h) = objects h /\
  pose_constraints (object_mode h) = pose_constraints h.
Proof.
  intros Hnone%recursive_locate_by_name_None. split; [|done].
  unfold import_armature_physics_constraints. by rewrite Hnone.
Qed.

(** ** Lookup in the scene *)

Lemma scene_lookup_Some nm (objs : list Object) i :
  scene_lookup nm objs = Some i <->
  (exists o, objs !! i = Some o /\ ob_name o = nm) /\
  (forall j o, objs !! j = Some o -> j < i -> ob_name o <> nm).
Proof.
  unfold scene_lookup. split.
  - intros ([j o] & H & ->)%fmap_Some. apply list_find_Some in H as (Ho & Hn & Hlt).
    simpl. eauto.
  - intros [(o & Ho & Hn) Hlt]. apply fmap_Some. exists (i, o). split; [|done].
    by apply list_find_Some.
Qed.

Lemma scene_lookup_None nm (objs : list Object) :
  scene_lookup nm objs = None <-> forall o, o ∈ objs -> ob_name o <> nm.
Proof.
  unfold scene_lookup. rewrite fmap_None, list_find_None, Forall_forall. done.
Qed.

Lemma scene_lookup_app_l nm (objs news : list Object) i :
  scene_lookup nm objs = Some i -> scene_lookup nm (objs ++ news) = Some i.
Proof.
  unfold scene_lookup. intros ([j o] & H & ->)%fmap_Some.
  by rewrite (list_find_app_l _ _ _ _ _ H).
Qed.

Lemma scene_lookup_snoc nm (objs : list Object) o :
  scene_lookup nm objs = None -> ob_name o = nm ->
  scene_lookup nm (objs ++ [o]) = Some (length objs).
Proof.
  intros Hnone Hn. apply scene_lookup_Some. split.
  - exists o. by rewrite list_lookup_middle.
  - intros j o' Ho' Hj. rewrite lookup_app_l in Ho' by done.
    apply (proj1 (scene_lookup_None _ _) Hnone). by eapply list_elem_of_lookup_2.
Qed.

(** ** The names the host stores *)

Lemma string_length_app (a b : string) :
  String.length (a +:+ b) = String.length a + String.length b.
Proof. induction a as [|c a IH]; simpl; [done|]. by rewrite IH. Qed.

Lemma get_rb_name_nonempty armature bone_name is_pivot :
  get_rb_name armature bone_name is_pivot <> "".
Proof.
  intros H. apply (f_equal String.length) in H. unfold get_rb_name in H.
  rewrite !string_length_app in H. destruct is_pivot; simpl in H; lia.
Qed.

(** A name of at most 63 bytes that no object has is stored as it is. *)
Lemma host_name_keeps nm (objs : list Object) :
  nm <> "" -> String.length nm <= 63 -> scene_lookup nm objs = None ->
  host_name nm objs = nm.
Proof.
  intros Hne Hlen Hnone. apply stored_name_keeps; [done..|].
  intros (o & -> & Ho)%list_elem_of_fmap.
  by apply (proj1 (scene_lookup_None _ _) Hnone o).
Qed.

(** No object has the name the host stores for a new one. *)
Lemma host_name_fresh nm (objs : list Object) :
  scene_lookup (host_name nm objs) objs = None.
Proof.
  apply scene_lookup_None. intros o Ho Heq.
  apply (stored_name_fresh nm (ob_name <$> objs)). fold (host_name nm objs).
  rewrite <- Heq. by apply list_elem_of_fmap_2.
Qed.

(** ** [ensure_bone_rigidbody] *)

Lemma ensure_found armature bone_name is_pivot r st obj :
  scene_lookup (get_rb_name armature bone_name is_pivot) (objects (host st)) = Some obj ->
  ensure_bone_rigidbody armature bone_name is_pivot r st = Ok (obj, st).
Proof. intros H. unfold ensure_bone_rigidbody. by rewrite H. Qed.

Lemma ensure_created armature bone_name is_pivot r st obj st' :
  scene_lookup (get_rb_name armature bone_name is_pivot) (objects (host st)) = None ->
  ensure_bone_rigidbody armature bone_name is_pivot r st = Ok (obj, st') ->
  obj = length (objects (host st)) /\
  exists cell,
    objects (host st') = objects (host st) ++ [cell] /\
    ob_name cell = host_name (get_rb_name armature bone_name is_pivot) (objects (host st)) /\
    bone_body cell = true /\ pivot_body cell = is_pivot /\
    target_body cell = negb is_pivot /\
    rigid_body_constraint cell = None /\
    pose_constraints (host st') = pose_constraints (host st) /\
    target_rigid_bodies st' =
      if is_pivot then target_rigid_bodies st
      else dict_set (ob_name cell) obj (target_rigid_bodies st).
Proof.
  intros Hnone. unfold ensure_bone_rigidbody. rewrite Hnone.
  destruct bone_name as [bn|]; [|done]. destruct is_pivot.
  - intros [= <- <-]. split; [done|]. eexists. split; [reflexivity|]. by split_and!.
  - destruct (pose_bones armature !! bn); [|done].
    intros [= <- <-]. split; [done|]. eexists. split; [reflexivity|]. by split_and!.
Qed.

(** The call either finds the first object of the name and changes
    nothing, or creates one rigid body, under the name the host stores
    for it. *)
Lemma ensure_spec armature bone_name is_pivot r st obj st' :
  ensure_bone_rigidbody armature bone_name is_pivot r st = Ok (obj, st') ->
  (scene_lookup (get_rb_name armature bone_name is_pivot) (objects (host st)) = Some obj /\
   st' = st) \/
  (scene_lookup (get_rb_name armature bone_name is_pivot) (objects (host st)) = None /\
   obj = length (objects (host st)) /\
   exists cell,
     objects (host st') = objects (host st) ++ [cell] /\
     ob_name cell = host_name (get_rb_name armature bone_name is_pivot) (objects (host st)) /\
     bone_body cell = true /\ pivot_body cell = is_pivot /\
     target_body cell = negb is_pivot /\
     rigid_body_constraint cell = None /\
     pose_constraints (host st') = pose_constraints (host st) /\
     target_rigid_bodies st' =
       if is_pivot then target_rigid_bodies st
       else dict_set (ob_name cell) obj (target_rigid_bodies st)).
Proof.
  intros H.
  destruct (scene_lookup (get_rb_name armature bone_name is_pivot) (objects (host st)))
    as [i|] eqn:E.
  - rewrite (ensure_found _ _ _ _ _ _ E) in H. injection H as <- <-. eauto.
  - destruct (ensure_created _ _ _ _ _ _ _ E H) as (-> & cell & Hobjs & Hnm & Hrest).
    right. split; [done|]. split; [done|]. exists cell. tauto.
Qed.

(** The object returned is an object of the scene and the first of its
    name. *)
Lemma ensure_returned armature bone_name is_pivot r st obj st' :
  ensure_bone_rigidbody armature bone_name is_pivot r st = Ok (obj, st') ->
  exists o, objects (host st') !! obj = Some o /\
            scene_lookup (ob_name o) (objects (host st')) = Some obj.
Proof.
  intros [[Hl ->]|(Hnone & -> & cell & Hobjs & Hnm & _)]%ensure_spec.
  - pose proof Hl as [(o & Ho & Hn) _]%scene_lookup_Some. exists o. by rewrite Hn.
  - exists cell. rewrite Hobjs. split; [by rewrite list_lookup_middle|].
    apply scene_lookup_snoc; [|done]. rewrite Hnm. apply host_name_fresh.
Qed.

(** When the name has at most 63 bytes, the object returned is the first
    object of that name afterwards. *)
Lemma ensure_lookup armature bone_name is_pivot r st obj st' :
  ensure_bone_rigidbody armature bone_name is_pivot r st = Ok (obj, st') ->
  String.length (get_rb_name armature bone_name is_pivot) <= 63 ->
  scene_lookup (get_rb_name armature bone_name is_pivot) (objects (host st')) = Some obj.
Proof.
  intros [[Hl ->]|(Hnone & -> & cell & Hobjs & Hnm & _)]%ensure_spec Hlen; [done|].
  rewrite Hobjs. apply scene_lookup_snoc; [done|]. rewrite Hnm.
  apply host_name_keeps; [apply get_rb_name_nonempty|done..].
Qed.

(** ** The invariant of the traversal *)

Lemma dict_set_fresh k v (d : list (string * nat)) :
  k ∉ d.*1 -> dict_set k v d = d ++ [(k, v)].
Proof.
  induction d as [|[k' v'] d IH]; simpl; [done|].
  intros Hk. apply not_elem_of_cons in Hk as [Hne Hk].
  destruct (String.eqb_spec k' k) as [->|_]; [done|]. by rewrite IH.
Qed.

Lemma omap_ext_elem {A B} (f g : A -> option B) (l : list A) :
  (forall x, x ∈ l -> f x = g x) -> omap f l = omap g l.
Proof.
  induction l as [|x l IH]; intros Hfg; [done|]. csimpl.
  rewrite (Hfg x) by left. rewrite IH by (intros y Hy; apply Hfg; by right). done.
Qed.

Lemma target_body_bone_body o : target_body o = true -> bone_body o = true.
Proof.
  unfold target_body, bone_body. destruct (rigid_body o); [|done].
  intros [H _]%bool_decide_eq_true. by apply bool_decide_eq_true.
Qed.

Lemma new_target_refs_snoc n0 (objs : list Object) o :
  n0 <= length objs ->
  new_target_refs n0 (objs ++ [o]) =
  new_target_refs n0 objs ++ (if target_body o then [length objs] else []).
Proof.
  intros Hn. unfold new_target_refs. rewrite length_app. simpl.
  replace (length objs + 1 - n0) with (S (length objs - n0)) by lia.
  rewrite seq_S, filter_app. replace (n0 + (length objs - n0)) with (length objs) by lia.
  f_equal.
  - apply filter_ext_elem. intros i [_ Hi]%elem_of_seq.
    rewrite lookup_app_l by lia. done.
  - rewrite filter_cons, filter_nil, list_lookup_middle by done. simpl.
    destruct (target_body o).
    + by rewrite decide_True.
    + by rewrite decide_False.
Qed.

Lemma new_target_refs_lt n0 (objs : list Object) i :
  i ∈ new_target_refs n0 objs ->
  n0 <= i /\ exists o, objs !! i = Some o /\ target_body o = true.
Proof.
  unfold new_target_refs. intros [Ht [Hi _]%elem_of_seq]%list_elem_of_filter.
  split; [done|]. apply fmap_Some in Ht as (o & Ho & Ht). eauto.
Qed.

Lemma NoDup_new_target_refs n0 (objs : list Object) : NoDup (new_target_refs n0 objs).
Proof. apply NoDup_filter, NoDup_seq. Qed.

(** Adding an object keeps the invariant, provided a rigid body of a bone
    is added under a name that is free; a target body goes into the
    dict. *)
Lemma rig_inv_push n0 objs targets o :
  rig_inv n0 objs targets ->
  (bone_body o = true -> scene_lookup (ob_name o) objs = None) ->
  rig_inv n0 (objs ++ [o])
    (if target_body o then dict_set (ob_name o) (length objs) targets else targets).
Proof.
  intros (Hn & Hfirst & Htargets) Hfree. split_and!.
  - rewrite length_app. lia.
  - intros i o' Ho' Hi Hb. apply lookup_app_Some in Ho' as [Ho'|[Hge Ho']].
    + apply scene_lookup_app_l. by apply Hfirst.
    + destruct (i - length objs) as [|k] eqn:Ek; simpl in Ho'; [|done].
      injection Ho' as <-. assert (i = length objs) as -> by lia.
      apply scene_lookup_snoc; [|done]. by apply Hfree.
  - rewrite new_target_refs_snoc by done. rewrite omap_app.
    assert (omap (fun i => (fun o0 => (ob_name o0, i)) <$> (objs ++ [o]) !! i)
                 (new_target_refs n0 objs) = targets) as Hold.
    { rewrite Htargets. apply omap_ext_elem. intros i (_ & oi & Hoi & _)%new_target_refs_lt.
      rewrite lookup_app_l; [done|]. by eapply lookup_lt_Some. }
    rewrite Hold. destruct (target_body o) eqn:Ht.
    + csimpl. rewrite list_lookup_middle by done. simpl.
      apply dict_set_fresh. rewrite Htargets.
      intros ([k v] & Hk & Hin)%list_elem_of_fmap. simpl in Hk.
      apply list_elem_of_omap in Hin as (i & Hi & Hf).
      apply fmap_Some in Hf as (oi & Hoi & [= -> ->]).
      apply target_body_bone_body, Hfree in Ht.
      apply (proj1 (scene_lookup_None _ _) Ht oi); [|done]. by eapply list_elem_of_lookup_2.
    + csimpl. by rewrite app_nil_r.
Qed.

Lemma rig_inv_push_other n0 objs targets o :
  rig_inv n0 objs targets -> bone_body o = false -> rig_inv n0 (objs ++ [o]) targets.
Proof.
  intros Hinv Hb. pose proof (rig_inv_push _ _ _ o Hinv) as H.
  assert (target_body o = false) as Ht.
  { destruct (target_body o) eqn:E; [|done]. apply target_body_bone_body in E. congruence. }
  rewrite Ht in H. apply H. congruence.
Qed.

Lemma rig_inv_app_others n0 objs targets news :
  rig_inv n0 objs targets -> Forall (fun o => bone_body o = false) news ->
  rig_inv n0 (objs ++ news) targets.
Proof.
  intros Hinv Hnews. revert objs Hinv.
  induction Hnews as [|o news Ho _ IH]; intros objs Hinv; [by rewrite app_nil_r|].
  rewrite cons_middle, app_assoc. apply IH. by apply rig_inv_push_other.
Qed.

(** ** The steps of the traversal *)

Lemma add_collider_spec (child : Bone) phy h :
  exists news,
    objects (add_collider child phy h) = objects h ++ news /\
    pose_constraints (add_collider child phy h) = pose_constraints h /\
    Forall (fun o => (exists objs, ob_name o = host_name (name child +:+ "_rigidbody") objs) /\
                     bone_body o = false /\ rigid_body_constraint o = None) news.
Proof.
  unfold add_collider.
  destruct (decide (phy_type phy = BonePhysicsType.SphereCollider));
    destruct (decide (phy_type phy = BonePhysicsType.CapsuleCollider)); simpl.
  - eexists [_; _]. rewrite <- app_assoc. split; [reflexivity|]. split; [done|].
    repeat constructor; simpl; eauto.
  - eexists [_]. split; [reflexivity|]. split; [done|]. repeat constructor; simpl; eauto.
  - eexists [_]. split; [reflexivity|]. split; [done|]. repeat constructor; simpl; eauto.
  - exists []. by rewrite app_nil_r.
Qed.

Lemma ensure_inv n0 armature bone_name is_pivot r st obj st' :
  rig_inv n0 (objects (host st)) (target_rigid_bodies st) ->
  ensure_bone_rigidbody armature bone_name is_pivot r st = Ok (obj, st') ->
  rig_inv n0 (objects (host st')) (target_rigid_bodies st') /\
  exists news,
    objects (host st') = objects (host st) ++ news /\
    Forall (fun o => (exists objs,
                        ob_name o = host_name (get_rb_name armature bone_name is_pivot) objs) /\
                     bone_body o = true /\ pivot_body o = is_pivot /\
                     rigid_body_constraint o = None) news.
Proof.
  intros Hinv [[_ ->]|(Hnone & -> & cell & Hobjs & Hnm & Hb & Hpv & Ht & Hct & _ & Htg)]%ensure_spec.
  - split; [done|]. exists []. by rewrite app_nil_r.
  - split.
    + pose proof (rig_inv_push _ _ _ cell Hinv) as Hpush.
      rewrite Ht in Hpush. rewrite Hobjs, Htg.
      destruct is_pivot; simpl in Hpush; apply Hpush; intros _;
        rewrite Hnm; apply host_name_fresh.
    + exists [cell]. split; [done|]. repeat constructor; eauto.
Qed.

Lemma add_spring_bone_spec armature (child : Bone) phy st st' :
  add_spring_bone armature child phy st = Ok st' ->
  exists pivot_ref target_ref st1 st2,
    ensure_bone_rigidbody armature (pivot phy) true PIVOT_SIZE st = Ok (pivot_ref, st1) /\
    ensure_bone_rigidbody armature (Some (name child)) false
      (float_mul (radius phy) SPRINGBONE_RADIUS_FACTOR) st1 = Ok (target_ref, st2) /\
    objects (host st') = objects (host st2)
      ++ [joint_object (objects (host st2)) "SpringBoneJoint" pivot_ref
            (spring_bone_constraint phy pivot_ref target_ref)] /\
    target_rigid_bodies st' = target_rigid_bodies st2 /\
    pose_constraints (host st') = pose_constraints (host st2) ++ [(name child, target_ref)].
Proof.
  unfold add_spring_bone.
  destruct (ensure_bone_rigidbody armature (pivot phy) true _ st)
    as [[p st1]|e] eqn:E1; [|done].
  destruct (ensure_bone_rigidbody armature (Some (name child)) false _ st1)
    as [[t st2]|e] eqn:E2; [|done].
  destruct (pose_bones armature !! name child); [|done].
  intros [= <-]. exists p, t, st1, st2. split_and!; done.
Qed.

Lemma map_bone_spec n0 armature item st st' :
  rig_inv n0 (objects (host st)) (target_rigid_bodies st) ->
  map_bone armature item st = Ok st' ->
  rig_inv n0 (objects (host st')) (target_rigid_bodies st') /\
  exists news,
    objects (host st') = objects (host st) ++ news /\
    Forall (step_object armature item.1.2) news.
Proof.
  intros Hinv. unfold map_bone. destruct (physics item.1.2) as [phy|] eqn:Hphy.
  2:{ intros [= <-]. split; [done|]. exists []. by rewrite app_nil_r. }
  set (st1 := if BonePhysicsType.has_flag (phy_type phy) BonePhysicsType.Collider
              then {| host := add_collider item.1.2 phy (host st);
                      target_rigid_bodies := target_rigid_bodies st |}
              else st).
  assert (rig_inv n0 (objects (host st1)) (target_rigid_bodies st1) /\
          exists news, objects (host st1) = objects (host st) ++ news /\
                       Forall (step_object armature item.1.2) news) as [Hinv1 (news1 & Hn1 & Hs1)].
  { subst st1. destruct (BonePhysicsType.has_flag _ _).
    - destruct (add_collider_spec item.1.2 phy (host st)) as (news & Ho & _ & Hall). simpl.
      split.
      + rewrite Ho. apply rig_inv_app_others; [done|].
        eapply Forall_impl; [exact Hall|]. by intros o (_ & ? & _).
      + exists news. split; [done|]. eapply Forall_impl; [exact Hall|].
        intros o ((objs & ?) & ? & ?). by eapply step_collider.
    - split; [done|]. exists []. by rewrite app_nil_r. }
  clearbody st1.
  assert (Ok st1 = Ok st' ->
    rig_inv n0 (objects (host st')) (target_rigid_bodies st') /\
    exists news, objects (host st') = objects (host st) ++ news /\
                 Forall (step_object armature item.1.2) news) as Hskip.
  { intros [= <-]. eauto. }
  destruct (BonePhysicsType.has_flag _ BonePhysicsType.Bone); [|done].
  destruct (decide (phy_type phy = BonePhysicsType.SpringBone)) as [Hty|_]; [|done].
  clear Hskip.
  intros (p & t & st2 & st3 & He1 & He2 & Hobjs & Htg & _)%add_spring_bone_spec.
  destruct (ensure_inv _ _ _ _ _ _ _ _ Hinv1 He1) as [Hinv2 (news2 & Hn2 & Hs2)].
  destruct (ensure_inv _ _ _ _ _ _ _ _ Hinv2 He2) as [Hinv3 (news3 & Hn3 & Hs3)].
  split.
  - rewrite Hobjs, Htg. by apply rig_inv_push_other.
  - eexists. split.
    + rewrite Hobjs, Hn3, Hn2, Hn1, <- !app_assoc. reflexivity.
    + rewrite !Forall_app. split_and!; [done|..].
      * eapply Forall_impl; [exact Hs2|].
        intros o ((objs & ?) & ? & ? & ?). by eapply step_bone_body.
      * eapply Forall_impl; [exact Hs3|].
        intros o ((objs & ?) & ? & ? & ?). by eapply step_bone_body.
      * constructor; [|constructor]. by eapply step_joint.
Qed.

Lemma map_bones_spec n0 armature items st st' :
  rig_inv n0 (objects (host st)) (target_rigid_bodies st) ->
  for_each (map_bone armature) items st = Ok st' ->
  rig_inv n0 (objects (host st')) (target_rigid_bodies st') /\
  exists news,
    objects (host st') = objects (host st) ++ news /\
    Forall (fun o => exists item, item ∈ items /\ step_object armature item.1.2 o) news.
Proof.
  revert st. induction items as [|item items IH]; intros st Hinv; simpl.
  - intros [= <-]. split; [done|]. exists []. by rewrite app_nil_r.
  - destruct (map_bone armature item st) as [st1|e] eqn:E; simpl; [|done].
    destruct (map_bone_spec _ _ _ _ _ Hinv E) as [Hinv1 (news1 & Hn1 & Hs1)].
    intros [Hinv' (news & Hn & Hs)]%(IH st1 Hinv1). split; [done|].
    exists (news1 ++ news). split; [by rewrite Hn, Hn1, app_assoc|].
    apply Forall_app. split.
    + eapply Forall_impl; [exact Hs1|]. intros o Ho. exists item. split; [left|done].
    + eapply Forall_impl; [exact Hs|]. intros o (it & Hit & Ho). exists it. split; [by right|done].
Qed.

(** ** The no-collision links *)

Lemma nth_seq_self {A} (l : list A) d :
  map (fun j => nth j l d) (seq 0 (length l)) = l.
Proof.
  induction l as [|x l IH]; [done|]. simpl. f_equal.
  rewrite <- seq_shift, map_map. exact IH.
Qed.

(** The two nested loops visit the pairs of [all_pairs], in that order. *)
Lemma index_pairs (l : list nat) :
  flat_map (fun i => map (fun j => (nth i l 0, nth j l 0))
                         (seq (i + 1) (length l - (i + 1))))
           (seq 0 (length l)) = all_pairs l.
Proof.
  induction l as [|a l IH]; [done|].
  cbn [length seq flat_map all_pairs]. f_equal.
  - cbn [Nat.add Nat.sub nth]. rewrite Nat.sub_0_r, <- seq_shift, map_map.
    cbn [nth]. rewrite <- (map_map (fun j => nth j l 0) (pair a)). by rewrite nth_seq_self.
  - rewrite <- IH, <- seq_shift, flat_map_concat_map, map_map, <- flat_map_concat_map.
    apply flat_map_ext. intros i. cbn [nth Nat.add Nat.sub].
    rewrite <- seq_shift, map_map. done.
Qed.

Lemma fold_set_no_collision {A} (f : A -> nat * nat) (xs : list A) h :
  exists news,
    objects (fold_left (fun h x => set_no_collision (f x).1 (f x).2 h) xs h)
      = objects h ++ news /\
    no_collision_joints news (map f xs) /\
    pose_constraints (fold_left (fun h x => set_no_collision (f x).1 (f x).2 h) xs h)
      = pose_constraints h.
Proof.
  revert h. induction xs as [|x xs IH]; intros h; simpl.
  - exists []. rewrite app_nil_r. split_and!; [done| |done]. constructor.
  - destruct (IH (set_no_collision (f x).1 (f x).2 h)) as (news & -> & Hnews & ->).
    eexists (_ :: news). simpl. rewrite <- app_assoc. split; [reflexivity|].
    split; [|done]. constructor; [|done]. by exists (objects h).
Qed.

Lemma link_targets_spec rbs h :
  exists news,
    objects (link_targets rbs h) = objects h ++ news /\
    no_collision_joints news (all_pairs rbs) /\
    pose_constraints (link_targets rbs h) = pose_constraints h.
Proof.
  rewrite <- index_pairs. unfold link_targets.
  generalize (seq 0 (length rbs)). intros idxs. revert h.
  induction idxs as [|i idxs IH]; intros h; simpl.
  - exists []. rewrite app_nil_r. split_and!; [done| |done]. constructor.
  - destruct (IH (fold_left (fun h j => set_no_collision (nth i rbs 0) (nth j rbs 0) h)
                            (seq (i + 1) (length rbs - (i + 1))) h))
      as (news2 & -> & Hnews2 & ->).
    destruct (fold_set_no_collision (fun j => (nth i rbs 0, nth j rbs 0))
                (seq (i + 1) (length rbs - (i + 1))) h) as (news1 & Ho & Hnews1 & Hp).
    simpl in Ho, Hp. rewrite Ho, Hp. exists (news1 ++ news2).
    rewrite app_assoc. split; [done|]. split; [|done]. by apply Forall2_app.
Qed.

Lemma all_pairs_length (l : list nat) :
  2 * length (all_pairs l) = length l * (length l - 1).
Proof.
  induction l as [|a l IH]; [done|].
  cbn [all_pairs length]. rewrite length_app, length_map. nia.
Qed.

Lemma all_pairs_length_div (l : list nat) :
  length (all_pairs l) = length l * (length l - 1) / 2.
Proof.
  rewrite <- all_pairs_length, Nat.mul_comm, Nat.div_mul; done.
Qed.

Lemma elem_of_all_pairs (l : list nat) a b :
  (a, b) ∈ all_pairs l <-> exists i j, i < j /\ l !! i = Some a /\ l !! j = Some b.
Proof.
  induction l as [|x l IH]; simpl.
  - rewrite elem_of_nil. split; [done|]. by intros (i & j & _ & ? & _).
  - rewrite elem_of_app, IH. split.
    + intros [Hin|(i & j & Hij & Hi & Hj)].
      * apply list_elem_of_In, in_map_iff in Hin as (y & [= <- <-] & Hy).
        apply list_elem_of_In, list_elem_of_lookup in Hy as [j Hj].
        exists 0, (S j). split; [lia|done].
      * exists (S i), (S j). split; [lia|done].
    + intros (i & j & Hij & Hi & Hj). destruct j as [|j]; [lia|]. simpl in Hj.
      destruct i as [|i]; simpl in Hi.
      * injection Hi as ->. left. apply list_elem_of_In, in_map.
        apply list_elem_of_In. by eapply list_elem_of_lookup_2.
      * right. exists i, j. split; [lia|done].
Qed.

Lemma NoDup_all_pairs (l : list nat) : NoDup l -> NoDup (all_pairs l).
Proof.
  induction 1 as [|a l Ha Hl IH]; simpl; [constructor|].
  apply NoDup_app. split_and!.
  - apply NoDup_fmap_2; [|done]. by intros y1 y2 [= ->].
  - intros [x y] Hin1 Hin2.
    apply list_elem_of_In, in_map_iff in Hin1 as (y' & [= <- <-] & _).
    apply elem_of_all_pairs in Hin2 as (i & j & _ & Hi & _).
    apply Ha. by eapply list_elem_of_lookup_2.
  - done.
Qed.

(** Over a list without repetition, [all_pairs] holds each unordered pair
    of distinct elements once, in one of its two orders. *)
Lemma all_pairs_unordered (l : list nat) a b :
  NoDup l -> a ∈ l -> b ∈ l -> a <> b ->
  ((a, b) ∈ all_pairs l /\ (b, a) ∉ all_pairs l) \/
  ((b, a) ∈ all_pairs l /\ (a, b) ∉ all_pairs l).
Proof.
  intros Hnd [i Hi]%list_elem_of_lookup [j Hj]%list_elem_of_lookup Hab.
  assert (forall x y i j, i < j -> l !! i = Some x -> l !! j = Some y ->
            (y, x) ∉ all_pairs l) as Hanti.
  { intros x y i0 j0 Hlt Hx Hy (i' & j' & Hlt' & Hy' & Hx')%elem_of_all_pairs.
    pose proof (NoDup_lookup _ _ _ _ Hnd Hx Hx'). pose proof (NoDup_lookup _ _ _ _ Hnd Hy Hy').
    lia. }
  destruct (Nat.lt_trichotomy i j) as [Hlt|[->|Hgt]].
  - left. split; [apply elem_of_all_pairs; eauto|]. by eapply Hanti.
  - congruence.
  - right. split; [apply elem_of_all_pairs; eauto|]. by eapply Hanti.
Qed.

Lemma all_pairs_distinct (l : list nat) a b :
  NoDup l -> (a, b) ∈ all_pairs l -> a ∈ l /\ b ∈ l /\ a <> b.
Proof.
  intros Hnd (i & j & Hlt & Hi & Hj)%elem_of_all_pairs. split_and!.
  - by eapply list_elem_of_lookup_2.
  - by eapply list_elem_of_lookup_2.
  - intros ->. pose proof (NoDup_lookup _ _ _ _ Hnd Hi Hj). lia.
Qed.

(** ** The whole run *)

Lemma rig_inv_init (h : Host) : rig_inv (length (objects h)) (objects h) [].
Proof.
  split_and!; [done| |].
  - intros i o Ho%lookup_lt_Some Hi. lia.
  - unfold new_target_refs. by rewrite Nat.sub_diag.
Qed.

Lemma rig_inv_targets n0 objs targets :
  rig_inv n0 objs targets -> targets.*2 = new_target_refs n0 objs.
Proof.
  intros (_ & _ & ->).
  assert (forall i, i ∈ new_target_refs n0 objs -> is_Some (objs !! i)) as Hall.
  { intros i (_ & o & Ho & _)%new_target_refs_lt. eauto. }
  induction (new_target_refs n0 objs) as [|i refs IH]; [done|]. csimpl.
  destruct (Hall i) as [o Ho]; [by left|]. rewrite Ho. csimpl. f_equal.
  apply IH. intros j Hj. apply Hall. by right.
Qed.

Lemma new_target_refs_app_others n0 (objs news : list Object) :
  n0 <= length objs -> Forall (fun o => target_body o = false) news ->
  new_target_refs n0 (objs ++ news) = new_target_refs n0 objs.
Proof.
  intros Hn Hnews. revert objs Hn.
  induction Hnews as [|o news Ho _ IH]; intros objs Hn; [by rewrite app_nil_r|].
  rewrite cons_middle, app_assoc, IH by (rewrite length_app; lia).
  rewrite new_target_refs_snoc by done. by rewrite Ho, app_nil_r.
Qed.

Lemma step_object_no_link armature child o :
  step_object armature child o -> link_of o = None.
Proof.
  intros [phy objs _ _ _ Hct|phy bn pv objs _ _ _ _ _ Hct|phy p t objs _ _ ->]; unfold link_of.
  - by rewrite Hct.
  - by rewrite Hct.
  - done.
Qed.

Lemma no_collision_links_joints (news : list Object) (links : list (nat * nat)) :
  no_collision_joints news links -> no_collision_links news = links.
Proof.
  unfold no_collision_links. induction 1 as [|o [a b] news links [objs ->] _ IH]; [done|].
  csimpl. by rewrite IH.
Qed.

Lemma no_collision_joints_others (news : list Object) (links : list (nat * nat)) :
  no_collision_joints news links -> Forall (fun o => bone_body o = false) news.
Proof. induction 1 as [|o link news links [objs ->] _ IH]; by constructor. Qed.

Lemma no_collision_links_app (objs1 objs2 : list Object) :
  no_collision_links (objs1 ++ objs2) = no_collision_links objs1 ++ no_collision_links objs2.
Proof. apply omap_app. Qed.

Lemma no_collision_links_none (objs : list Object) :
  Forall (fun o => link_of o = None) objs -> no_collision_links objs = [].
Proof.
  unfold no_collision_links. induction 1 as [|o objs Ho _ IH]; [done|].
  csimpl. by rewrite Ho.
Qed.

(** A run that returns has gone through the traversal, which added rigid
    bodies and spring-bone joints for bones of the located tree, and then
    added one no-collision joint per pair of new target bodies. *)
Lemma import_run armature data_root h h' :
  import_armature_physics_constraints armature data_root h = Ok h' ->
  exists st news joints,
    map_bones armature (recursive_locate_by_name data_root "Position")
      {| host := object_mode h; target_rigid_bodies := [] |} = Ok st /\
    rig_inv (length (objects h)) (objects h') (target_rigid_bodies st) /\
    Forall (fun o => exists bone child,
              recursive_locate_by_name data_root "Position" = Some bone /\
              child ∈ tree_bones bone /\ step_object armature child o) news /\
    objects (host st) = objects h ++ news /\
    objects h' = objects h ++ news ++ joints /\
    no_collision_joints joints
      (all_pairs (new_target_refs (length (objects h)) (objects h'))) /\
    pose_constraints h' = pose_constraints (host st).
Proof.
  unfold import_armature_physics_constraints. fold (object_mode h).
  destruct (map_bones _ _ _) as [st|e] eqn:E; simpl; [|done].
  assert (rig_inv (length (objects h)) (objects (host st)) (target_rigid_bodies st) /\
          exists news, objects (host st) = objects h ++ news /\
            Forall (fun o => exists bone child,
              recursive_locate_by_name data_root "Position" = Some bone /\
              child ∈ tree_bones bone /\ step_object armature child o) news)
    as [Hinv (news & Hobjs & Hnews)].
  { unfold map_bones in E. destruct (recursive_locate_by_name data_root "Position")
      as [bone|] eqn:Hloc.
    - apply (map_bones_spec (length (objects h))) in E as [Hinv (news & Hobjs & Hnews)];
        [|exact (rig_inv_init h)].
      split; [done|]. exists news. split; [done|].
      eapply Forall_impl; [exact Hnews|]. intros o (item & Hitem & Hstep).
      exists bone, item.1.2. split_and!; try done.
      rewrite <- (dfs_generator_from_bones None 0 bone).
      by apply (list_elem_of_fmap_2 (fun item => item.1.2)).
    - injection E as <-. split; [exact (rig_inv_init h)|]. exists []. simpl. by rewrite app_nil_r. }
  pose proof (rig_inv_targets _ _ _ Hinv) as Htg.
  assert (forall joints,
            objects h' = objects (host st) ++ joints ->
            no_collision_joints joints (all_pairs (target_rigid_bodies st).*2) ->
            pose_constraints h' = pose_constraints (host st) ->
            exists st0 news0 joints0,
              Ok st = Ok st0 /\
              rig_inv (length (objects h)) (objects h') (target_rigid_bodies st0) /\
              Forall (fun o => exists bone child,
                recursive_locate_by_name data_root "Position" = Some bone /\
                child ∈ tree_bones bone /\ step_object armature child o) news0 /\
              objects (host st0) = objects h ++ news0 /\
              objects h' = objects h ++ news0 ++ joints0 /\
              no_collision_joints joints0
                (all_pairs (new_target_refs (length (objects h)) (objects h'))) /\
              pose_constraints h' = pose_constraints (host st0)) as Hend.
  { intros joints Hh' Hjoints Hpose.
    pose proof (no_collision_joints_others _ _ Hjoints) as Hothers.
    exists st, news, joints. split_and!; try done.
    - rewrite Hh'. by apply rig_inv_app_others.
    - by rewrite Hh', Hobjs, <- app_assoc.
    - rewrite Hh', new_target_refs_app_others.
      + by rewrite <- Htg.
      + by destruct Hinv.
      + eapply Forall_impl; [exact Hothers|]. intros o Ho.
        destruct (target_body o) eqn:Et; [|done].
        apply target_body_bone_body in Et. congruence. }
  destruct (target_rigid_bodies st) as [|kv tgs] eqn:Etg.
  - intros [= <-]. apply (Hend []); [by rewrite app_nil_r|constructor|done].
  - intros [= <-].
    destruct (link_targets_spec (map snd (kv :: tgs)) (host st)) as (joints & Ho & Hj & Hp).
    by apply (Hend joints).
Qed.

(** ** What one step of the traversal adds *)

Lemma bone_body_no_collider o : bone_body o = true -> collider_of o = None.
Proof.
  unfold bone_body, collider_of. destruct (rigid_body o) as [rb|]; [|done].
  intros H%bool_decide_eq_true. rewrite H. done.
Qed.

Lemma add_collider_exact (child : Bone) phy h :
  physics child = Some phy ->
  BonePhysicsType.has_flag (phy_type phy) BonePhysicsType.Collider = true ->
  exists news,
    objects (add_collider child phy h) = objects h ++ news /\
    pose_constraints (add_collider child phy h) = pose_constraints h /\
    colliders news = option_list (bone_collider child) /\
    spring_joints news = [] /\ constraints news = [] /\
    Forall (fun o => bone_body o = false /\ link_of o = None) news.
Proof.
  intros Hphy Hflag. unfold add_collider, bone_collider. rewrite Hphy.
  destruct (phy_type phy) eqn:Hty; try done; simpl.
  - exists []. by rewrite app_nil_r.
  - eexists [_]. split; [reflexivity|]. split_and!; try done. by repeat constructor.
  - eexists [_]. split; [reflexivity|]. split_and!; try done. by repeat constructor.
Qed.

Lemma ensure_step armature bone_name is_pivot r st obj st' :
  ensure_bone_rigidbody armature bone_name is_pivot r st = Ok (obj, st') ->
  (String.length (get_rb_name armature bone_name is_pivot) <= 63 ->
   scene_lookup (get_rb_name armature bone_name is_pivot) (objects (host st')) = Some obj) /\
  pose_constraints (host st') = pose_constraints (host st) /\
  exists news,
    objects (host st') = objects (host st) ++ news /\
    colliders news = [] /\ spring_joints news = [] /\ constraints news = [].
Proof.
  intros He. split; [by apply (ensure_lookup _ _ _ _ _ _ _ He)|].
  apply ensure_spec in He as [[_ ->]|(_ & _ & cell & Hc & _ & Hb & _ & _ & Hct & Hp & _)].
  - split; [done|]. exists []. by rewrite app_nil_r.
  - split; [done|]. exists [cell]. split; [done|].
    unfold colliders, spring_joints, spring_joint_of, constraints. csimpl.
    by rewrite (bone_body_no_collider _ Hb), Hct.
Qed.

Lemma map_bone_step armature item st st' :
  map_bone armature item st = Ok st' ->
  exists news,
    objects (host st') = objects (host st) ++ news /\
    colliders news = option_list (bone_collider item.1.2) /\
    match spring_physics item.1.2 with
    | Some phy =>
        exists p t,
          constraints news = [spring_bone_constraint phy p t] /\
          spring_joints news = [(p, t)] /\
          pose_constraints (host st') =
            pose_constraints (host st) ++ [(name item.1.2, t)] /\
          (String.length (get_rb_name armature (pivot phy) true) <= 63 ->
           scene_lookup (get_rb_name armature (pivot phy) true) (objects (host st'))
             = Some p) /\
          (String.length (get_rb_name armature (Some (name item.1.2)) false) <= 63 ->
           scene_lookup (get_rb_name armature (Some (name item.1.2)) false)
                        (objects (host st')) = Some t)
    | None =>
        constraints news = [] /\ spring_joints news = [] /\
        pose_constraints (host st') = pose_constraints (host st)
    end.
Proof.
  unfold map_bone, spring_physics. destruct (physics item.1.2) as [phy|] eqn:Hphy.
  2:{ intros [= <-]. exists []. rewrite app_nil_r. unfold bone_collider. by rewrite Hphy. }
  destruct (BonePhysicsType.has_flag (phy_type phy) BonePhysicsType.Collider) eqn:Hc.
  - destruct (add_collider_exact item.1.2 phy (host st) Hphy Hc)
      as (news & Ho & Hp & Hcol & Hj & Hcts & _).
    assert (BonePhysicsType.has_flag (phy_type phy) BonePhysicsType.Bone = false) as ->
      by (by destruct (phy_type phy)).
    rewrite decide_False by (by destruct (phy_type phy)).
    intros [= <-]. exists news. by split_and!.
  - assert (bone_collider item.1.2 = None) as ->
      by (unfold bone_collider; rewrite Hphy; by destruct (phy_type phy)).
    destruct (BonePhysicsType.has_flag (phy_type phy) BonePhysicsType.Bone) eqn:Hb.
    2:{ rewrite decide_False by (by destruct (phy_type phy)).
        intros [= <-]. exists []. by rewrite app_nil_r. }
    destruct (decide (phy_type phy = BonePhysicsType.SpringBone)) as [Hty|Hty].
    2:{ intros [= <-]. exists []. by rewrite app_nil_r. }
    intros (p & t & st1 & st2 & He1 & He2 & Hobjs & _ & Hpose)%add_spring_bone_spec.
    apply ensure_step in He1 as (Hl1 & Hp1 & news1 & Hn1 & Hc1 & Hj1 & Hk1).
    apply ensure_step in He2 as (Hl2 & Hp2 & news2 & Hn2 & Hc2 & Hj2 & Hk2).
    exists (news1 ++ news2 ++ [joint_object (objects (host st2)) "SpringBoneJoint" p
                                 (spring_bone_constraint phy p t)]).
    split; [by rewrite Hobjs, Hn2, Hn1, <- !app_assoc|].
    split.
    { unfold colliders in *. by rewrite !omap_app, Hc1, Hc2. }
    exists p, t. split_and!.
    + unfold constraints in *. by rewrite !omap_app, Hk1, Hk2.
    + unfold spring_joints in *. by rewrite !omap_app, Hj1, Hj2.
    + by rewrite Hpose, Hp2, Hp1.
    + intros Hlen. rewrite Hobjs, Hn2. by do 2 apply scene_lookup_app_l; auto.
    + intros Hlen. rewrite Hobjs. apply scene_lookup_app_l. auto.
Qed.

(** ** What the traversal adds *)

(** A spring Bone with the constraint of its joint and the two bodies the
    joint connects, in a scene. *)
Definition spring_joint_ok (armature : ArmatureObject) (objs : list Object)
    (child : Bone) (joint : RigidBodyConstraint * (nat * nat)) : Prop :=
  exists phy,
    spring_physics child = Some phy /\
    joint.1 = spring_bone_constraint phy joint.2.1 joint.2.2 /\
    (String.length (get_rb_name armature (pivot phy) true) <= 63 ->
     scene_lookup (get_rb_name armature (pivot phy) true) objs = Some joint.2.1) /\
    (String.length (get_rb_name armature (Some (name child)) false) <= 63 ->
     scene_lookup (get_rb_name armature (Some (name child)) false) objs = Some joint.2.2).

Lemma spring_joint_ok_app armature objs news child joint :
  spring_joint_ok armature objs child joint ->
  spring_joint_ok armature (objs ++ news) child joint.
Proof.
  intros (phy & Hphy & Hct & H1 & H2). exists phy.
  split_and!; [done..| |]; intros Hlen; apply scene_lookup_app_l; auto.
Qed.

Lemma map_bones_steps armature items st st' :
  for_each (map_bone armature) items st = Ok st' ->
  exists news,
    objects (host st') = objects (host st) ++ news /\
    colliders news = omap bone_collider ((fun item => item.1.2) <$> items) /\
    pose_constraints (host st') =
      pose_constraints (host st)
      ++ zip (name <$> spring_bones ((fun item => item.1.2) <$> items))
             (spring_joints news).*2 /\
    length (constraints news) = length (spring_joints news) /\
    Forall2 (spring_joint_ok armature (objects (host st')))
            (spring_bones ((fun item => item.1.2) <$> items))
            (zip (constraints news) (spring_joints news)).
Proof.
  revert st. induction items as [|item items IH]; intros st; simpl.
  - intros [= <-]. exists []. rewrite !app_nil_r. by split_and!.
  - destruct (map_bone armature item st) as [st1|e] eqn:E; simpl; [|done].
    apply map_bone_step in E as (news1 & Hn1 & Hc1 & Hs1).
    intros (news & Hn & Hc & Hp & Hlen & Hj)%IH.
    exists (news1 ++ news). split; [by rewrite Hn, Hn1, app_assoc|].
    split.
    { unfold colliders in *. rewrite omap_app, Hc1, Hc. csimpl.
      by destruct (bone_collider item.1.2). }
    unfold spring_bones, spring_joints, constraints in *. rewrite filter_cons, !omap_app.
    destruct (spring_physics item.1.2) as [phy|] eqn:Hphy.
    + destruct Hs1 as (p & t & Hk1 & Hj1 & Hp1 & Hlp & Hlt).
      rewrite decide_True by eauto. rewrite Hk1, Hj1. split_and!.
      * rewrite Hp, Hp1, <- app_assoc. done.
      * simpl. by rewrite Hlen.
      * constructor; [|done]. rewrite Hn. apply spring_joint_ok_app.
        exists phy. by split_and!.
    + destruct Hs1 as (Hk1 & Hj1 & Hp1). rewrite decide_False by (by intros [? ?]).
      rewrite Hk1, Hj1. simpl. by rewrite Hp, Hp1.
Qed.

Lemma no_collision_joints_plain (joints : list Object) (links : list (nat * nat)) :
  no_collision_joints joints links ->
  colliders joints = [] /\ spring_joints joints = [] /\
  constraints joints = link_constraint <$> links.
Proof.
  induction 1 as [|o link joints links [objs ->] _ (IH1 & IH2 & IH3)]; [done|].
  unfold colliders, spring_joints, constraints in *. csimpl.
  rewrite IH1, IH2, IH3. done.
Qed.

(** What a run on a located tree adds to the scene and to the pose
    constraints. *)
Lemma import_located armature data_root h h' bone :
  import_armature_physics_constraints armature data_root h = Ok h' ->
  recursive_locate_by_name data_root "Position" = Some bone ->
  colliders (new_objects h h') = omap bone_collider (tree_bones bone) /\
  new_pose_constraints h h' =
    zip (name <$> spring_bones (tree_bones bone)) (spring_joints (new_objects h h')).*2 /\
  exists cts,
    constraints (new_objects h h')
      = cts ++ (link_constraint <$>
                all_pairs (new_target_refs (length (objects h)) (objects h'))) /\
    length cts = length (spring_joints (new_objects h h')) /\
    Forall2 (spring_joint_ok armature (objects h'))
            (spring_bones (tree_bones bone))
            (zip cts (spring_joints (new_objects h h'))).
Proof.
  intros (st & news0 & joints & Hmap & _ & _ & Hst & Hobjs & Hjoints & Hpose)%import_run Hloc.
  rewrite Hloc in Hmap. simpl in Hmap.
  apply map_bones_steps in Hmap as (news & Hn & Hc & Hp & Hlen & Hj).
  unfold dfs_generator in *. rewrite dfs_generator_from_bones in Hc, Hp, Hj.
  simpl in Hn, Hp. rewrite Hst in Hn. apply app_inv_head in Hn as <-.
  destruct (no_collision_joints_plain _ _ Hjoints) as (Hc0 & Hj0 & Hk0).
  assert (new_objects h h' = news0 ++ joints) as Hnew.
  { unfold new_objects. by rewrite Hobjs, drop_app_length. }
  assert (spring_joints (new_objects h h') = spring_joints news0) as Hsj.
  { rewrite Hnew. unfold spring_joints in *. by rewrite omap_app, Hj0, app_nil_r. }
  split_and!.
  - rewrite Hnew. unfold colliders in *. by rewrite omap_app, Hc0, app_nil_r.
  - unfold new_pose_constraints. by rewrite Hsj, Hpose, Hp, drop_app_length.
  - exists (constraints news0). rewrite Hsj. split_and!; [|done|].
    + rewrite Hnew. unfold constraints in *. by rewrite omap_app, Hk0.
    + eapply Forall2_impl; [exact Hj|]. intros child joint Hok.
      rewrite Hobjs, app_assoc, <- Hst. by apply spring_joint_ok_app.
Qed.

Lemma import_run_new_objects armature data_root h h' :
  import_armature_physics_constraints armature data_root h = Ok h' ->
  exists news joints,
    Forall (fun o => exists bone child,
              recursive_locate_by_name data_root "Position" = Some bone /\
              child ∈ tree_bones bone /\ step_object armature child o) news /\
    new_objects h h' = news ++ joints /\
    no_collision_joints joints
      (all_pairs (new_target_refs (length (objects h)) (objects h'))) /\
    rig_inv (length (objects h)) (objects h') (omap
      (fun i => (fun o => (ob_name o, i)) <$> objects h' !! i)
      (new_target_refs (length (objects h)) (objects h'))).
Proof.
  intros (st & news & joints & _ & Hinv & Hnews & _ & Hobjs & Hjoints & _)%import_run.
  exists news, joints. split; [done|]. split_and!; [|done|].
  - unfold new_objects. rewrite Hobjs at 1. by rewrite drop_app_length.
  - destruct Hinv as (? & ? & Ht). by rewrite <- Ht.
Qed.


(** ** The claims on the physics rig *)

(** C7. In a run that returns, the no-collision links among the new
    objects are the pairs of the target rigid bodies that the run created:
    one link for each unordered pair of distinct created target bodies,
    hence n*(n-1)/2 links for n created targets and 3 links for 3. A
    target body that was found in the scene is not linked. On the sample
    rig, whose three hair bones are spring bones, a run on the empty scene
    creates three target bodies and three links. *)
Theorem C7_one_no_collision_link_per_pair_of_created_targets :
  (forall armature data_root h h',
     import_armature_physics_constraints armature data_root h = Ok h' ->
     let targets := new_target_refs (length (objects h)) (objects h') in
     let links := no_collision_links (new_objects h h') in
     links = all_pairs targets /\
     length links = length targets * (length targets - 1) / 2 /\
     NoDup targets /\ NoDup links /\
     (forall a b, a ∈ targets -> b ∈ targets -> a <> b ->
        ((a, b) ∈ links /\ (b, a) ∉ links) \/ ((b, a) ∈ links /\ (a, b) ∉ links)) /\
     (forall a b, (a, b) ∈ links -> a ∈ targets /\ b ∈ targets /\ a <> b) /\
     (length targets = 3 -> length links = 3)) /\
  (import_armature_physics_constraints (N := sample_names)
     sample_object sample_tree empty_scene = Ok sample_scene /\
   length (new_target_refs 0 (objects sample_scene)) = 3 /\
   length (no_collision_links (new_objects empty_scene sample_scene)) = 3).
Proof.
  split; [|by vm_compute].
  intros armature data_root h h'
    (news & joints & Hnews & Hnew & Hjoints & _)%import_run_new_objects.
  intros targets links.
  assert (links = all_pairs targets) as Hlinks.
  { subst links targets. rewrite Hnew, no_collision_links_app.
    rewrite (no_collision_links_joints _ _ Hjoints), no_collision_links_none; [done|].
    eapply Forall_impl; [exact Hnews|].
    intros o (_ & child & _ & _ & Hstep). by eapply step_object_no_link. }
  pose proof (NoDup_new_target_refs (length (objects h)) (objects h')) as Hnd.
  rewrite Hlinks. split_and!.
  - done.
  - apply all_pairs_length_div.
  - done.
  - by apply NoDup_all_pairs.
  - intros a b. by apply all_pairs_unordered.
  - intros a b. by apply all_pairs_distinct.
  - intros H3. by rewrite all_pairs_length_div, H3.
Qed.


(** ** The names of the rigid bodies *)




Lemma get_rb_name_length armature bn is_pivot :
  17 <= String.length (get_rb_name armature bn is_pivot).
Proof.
  unfold get_rb_name. rewrite !string_length_app. destruct is_pivot; simpl; lia.
Qed.


(** ** One rigid body per name *)




(** ** The pivot of a spring bone is in the scene afterwards *)




End PhysicsRig.

(** * Further properties of the bone graph *)

Section MoreBoneGraph.
Context {F : FloatOps}.

Lemma last_index_is_Some {A} (P : A -> bool) (l : list A) :
  is_Some (last_index P l) <-> exists j x, l !! j = Some x /\ P x = true.
Proof.
  split.
  - intros [i Hi]. apply last_index_Some in Hi as [(x & Hx & HP) _]. eauto.
  - intros (j & x & Hx & HP). destruct (last_index P l) as [i|] eqn:E; [eauto|].
    rewrite (proj1 (last_index_None P l) E j x Hx) in HP. done.
Qed.

Lemma registered_before nodes i pid :
  is_Some (registered (take i nodes) pid) <->
  exists j nodej, j < i /\ nodes !! j = Some nodej /\ path_id nodej = pid.
Proof.
  unfold registered. rewrite last_index_is_Some. split.
  - intros (j & x & [Hx Hj]%lookup_take_Some & HP%bool_decide_eq_true). eauto.
  - intros (j & x & Hj & Hx & HP). exists j, x. split.
    + by rewrite lookup_take_lt.
    + by apply bool_decide_eq_true.
Qed.

Lemma search_env_meshes_total env :
  (forall rt, rt ∈ transform_roots env -> exists s, build_armature rt = Ok s) ->
  exists statics arms, search_env_meshes env = Ok (statics, arms).
Proof.
  unfold search_env_meshes. rewrite collect_objects. simpl.
  generalize (transform_roots env). intros roots Hall.
  assert (forall acc, exists arms,
    for_each (fun root armatures =>
                let! s := build_armature root in
                match skinned_mesh_gameobject (armature s) with
                | Some _ => Ok (armatures ++ [(armature s, bones s)])
                | None => Ok armatures
                end) roots acc = Ok arms) as Hloop.
  { induction roots as [|rt roots IH]; intros acc; simpl; [eauto|].
    destruct (Hall rt) as [s Hs]; [left|]. rewrite Hs. simpl.
    destruct (skinned_mesh_gameobject (armature s)); simpl;
      apply IH; intros rt' Hrt'; apply Hall; by right. }
  destruct (Hloop []) as [arms ->]. simpl. eauto.
Qed.

(** X1. [search_env_meshes] returns exactly when, in the tree of every
    root transform (skinned or not), each pivot named by a recognized
    component is the path id of a transform visited earlier in the
    traversal of that same root. *)
Theorem X1_search_returns_iff_pivots_resolve env :
  (exists statics arms, search_env_meshes env = Ok (statics, arms)) <->
  (forall rt i node c pid,
     rt ∈ transform_roots env -> preorder rt !! i = Some node ->
     c ∈ m_Components (m_GameObject node) -> recognized c ->
     pivotNode (read_typetree c) = Some pid ->
     exists j nodej, j < i /\ preorder rt !! j = Some nodej /\ path_id nodej = pid).
Proof.
  split.
  - intros (statics & arms & Hs) rt i node c pid Hrt Hnode Hc Hrec Hpid.
    apply search_env_meshes_Ok in Hs as (_ & states & Hst & _).
    apply list_elem_of_lookup in Hrt as [k Hk].
    destruct (Forall2_lookup_l _ _ _ _ _ Hst Hk) as (s & _ & Hb).
    apply registered_before.
    apply (proj1 (build_armature_Ok_iff rt) (ex_intro _ s Hb) i node c pid); try done.
    by apply component_phy_type_Some.
  - intros Hall. apply search_env_meshes_total. intros rt Hrt.
    apply build_armature_Ok_iff. intros i node c pid Hnode Hc Hty Hpid.
    apply registered_before. eapply Hall; try done. by apply component_phy_type_Some.
Qed.


(** ** The Bones mirror the transforms *)

Lemma dfs_node_placement node par s b s' :
  dfs_node node par s = Ok (b, s') ->
  placement <$> bones s' =
  (placement <$> bones s) ++
  [(m_LocalPosition node, m_LocalRotation node, m_LocalScale node, None)].
Proof.
  intros (phy & _ & -> & Hb & _)%dfs_node_Ok. simpl in Hb.
  rewrite Hb. destruct par as [q|]; [|by rewrite fmap_app].
  match goal with |- context [alter _ _ (_ ++ [?c])] =>
    transitivity (placement <$> (bones s ++ [c])) end; [|by rewrite fmap_app].
  apply list_eq. intros i. rewrite !list_lookup_fmap.
  destruct (decide (i = q)) as [->|Hne].
  - rewrite list_lookup_alter_eq. by destruct (_ !! q).
  - by rewrite list_lookup_alter_ne.
Qed.

Lemma visit_all_placement nm l s :
  wf_calls l -> visit_all l (init_state nm) = Ok s ->
  placement <$> bones s =
  (fun c => (m_LocalPosition c.1, m_LocalRotation c.1, m_LocalScale c.1, None)) <$> l.
Proof.
  revert l s. apply visit_all_ind; [done|].
  intros l node par s b s' _ _ IH Hf%dfs_node_placement.
  by rewrite Hf, IH, fmap_app.
Qed.

(** In the calls under a node, a call that receives the Bone at [q] as
    parent visits a child of the transform visited at [q]. *)
Lemma calls_of_children_child b cs next i node q :
  b < next ->
  Forall (fun c => forall parent base i n q,
            0 < i -> dfs_calls c parent base !! i = Some (n, Some q) ->
            exists nq pq, base <= q /\
              dfs_calls c parent base !! (q - base) = Some (nq, pq) /\
              n ∈ m_Children nq) cs ->
  calls_of_children dfs_calls b cs next !! i = Some (node, Some q) ->
  (q = b /\ node ∈ cs) \/
  (exists nq pq, next <= q /\
     calls_of_children dfs_calls b cs next !! (q - next) = Some (nq, pq) /\
     node ∈ m_Children nq).
Proof.
  intros Hb H. revert next Hb i. induction H as [|c cs Hc Hcs IH]; intros next Hb i; simpl; [done|].
  rewrite lookup_app_Some. intros [Hi|[Hlen Hi]].
  - destruct i as [|i].
    + destruct c; simpl in Hi. injection Hi as <- <-. left. split; [done|]. by left.
    + apply Hc in Hi as (nq & pq & Hq & Hnq & Hin); [|lia].
      right. exists nq, pq. split_and!; try done. by apply lookup_app_l_Some.
  - rewrite dfs_calls_length in Hlen, Hi.
    apply IH in Hi as [[-> Hin]|(nq & pq & Hq & Hnq & Hin)]; [| |lia].
    + left. split; [done|]. by right.
    + right. exists nq, pq. split_and!; [lia| |done].
      rewrite lookup_app_r; rewrite dfs_calls_length; [|lia].
      by replace (q - next - tree_size c) with (q - (next + tree_size c)) by lia.
Qed.

Lemma dfs_calls_child node parent base i n q :
  0 < i -> dfs_calls node parent base !! i = Some (n, Some q) ->
  exists nq pq, base <= q /\ dfs_calls node parent base !! (q - base) = Some (nq, pq) /\
    n ∈ m_Children nq.
Proof.
  revert parent base i n q. induction node as [node IH] using Transform_tree_ind.
  intros parent base i n q Hi. destruct node as [pid fa go lp lr ls cs]. simpl in IH.
  cbn [dfs_calls m_Children]. destruct i as [|i]; [lia|]. simpl.
  intros H. eapply calls_of_children_child in H as [[-> Hin]|(nq & pq & Hq & Hnq & Hin)];
    [| |lia|done].
  - eexists _, _. split; [done|]. rewrite Nat.sub_diag. simpl. split; [done|]. done.
  - exists nq, pq. split; [lia|]. split; [|done].
    replace (q - base) with (S (q - S base)) by lia. done.
Qed.

(** X2. A returned traversal has built exactly one Bone per transform of
    the root's tree, in pre-order: the Bone carries the name and the local
    position, rotation and scale of its transform and no global transform
    yet; the root's Bone has no parent, and the parent of any other Bone
    is the Bone of the transform whose child list holds its transform. *)
Theorem X2_one_bone_per_transform rt s :
  build_armature rt = Ok s ->
  length (bones s) = length (preorder rt) /\
  forall i node, preorder rt !! i = Some node ->
    exists b, bones s !! i = Some b /\
      name b = m_Name (m_GameObject node) /\
      localPosition b = m_LocalPosition node /\
      localRotation b = m_LocalRotation node /\
      localScale b = m_LocalScale node /\
      global_transform b = None /\
      match parent b with
      | None => i = 0 /\ node = rt
      | Some q => q < i /\ exists nq, preorder rt !! q = Some nq /\ node ∈ m_Children nq
      end.
Proof.
  intros Hs. pose proof Hs as H. rewrite build_armature_calls in H.
  pose proof (dfs_calls_wf rt) as Hwf.
  pose proof (visit_all_bones_length _ _ _ H) as Hlen.
  rewrite <- (length_fmap fst), dfs_calls_preorder in Hlen. split; [done|].
  intros i node Hnode.
  destruct (build_bone_of_node _ _ _ _ Hs Hnode) as (b & Hb & Hnm).
  exists b. split; [done|]. split; [done|].
  pose proof (visit_all_placement _ _ _ Hwf H) as Hpl.
  pose proof (visit_all_parents _ _ _ Hwf H) as Hpar.
  rewrite <- (dfs_calls_preorder rt None 0), list_lookup_fmap in Hnode.
  apply fmap_Some in Hnode as ([n p] & Hc & ->). simpl.
  assert ((placement <$> bones s) !! i =
          Some (m_LocalPosition n, m_LocalRotation n, m_LocalScale n, None)) as Hp1
    by (by rewrite Hpl, list_lookup_fmap, Hc).
  rewrite list_lookup_fmap, Hb in Hp1. injection Hp1 as -> -> -> ->.
  split_and!; try done.
  assert ((parent <$> bones s) !! i = Some p) as Hp2
    by (by rewrite Hpar, list_lookup_fmap, Hc).
  rewrite list_lookup_fmap, Hb in Hp2. injection Hp2 as ->.
  destruct p as [q|].
  - pose proof (Hwf _ _ _ Hc) as Hq. simpl in Hq. split; [done|].
    assert (0 < i) as Hi0 by lia.
    destruct (dfs_calls_child _ _ _ _ _ _ Hi0 Hc) as (nq & pq & _ & Hnq & Hin).
    exists nq. split; [|done].
    rewrite <- (dfs_calls_preorder rt None 0), list_lookup_fmap.
    rewrite Nat.sub_0_r in Hnq. by rewrite Hnq.
  - pose proof (Hwf _ _ _ Hc) as ->. split; [done|].
    destruct rt; simpl in Hc. by injection Hc as <-.
Qed.

(** ** The skinned mesh of an armature *)

Lemma visit_all_last_skinned nm l s :
  wf_calls l -> visit_all l (init_state nm) = Ok s ->
  skinned_mesh_gameobject (armature s) = last_skinned (fst <$> l).
Proof.
  revert l s.
  apply (visit_all_ind nm (fun l s =>
    skinned_mesh_gameobject (armature s) = last_skinned (fst <$> l))); [done|].
  intros l node par s b s' _ _ IH (phy & _ & _ & _ & _ & _ & Hs & _)%dfs_node_Ok.
  rewrite Hs. unfold last_skinned. rewrite fmap_app, filter_app. simpl.
  rewrite filter_cons, filter_nil. unfold skinned at 2.
  destruct (m_SkinnedMeshRenderer (m_GameObject node)) eqn:E.
  - rewrite decide_True by (apply bool_decide_eq_true; eauto).
    by rewrite last_snoc.
  - rewrite decide_False; [rewrite app_nil_r; exact IH|].
    unfold skinned. rewrite E. intros H%bool_decide_eq_true. by destruct H.
Qed.

(** X3. The skinned mesh GameObject of a built armature is the GameObject
    of the last transform, in pre-order, that carries a skinned mesh
    renderer: an earlier skinned GameObject of the same tree is dropped. *)
Theorem X3_last_skinned_mesh_wins rt s :
  build_armature rt = Ok s ->
  skinned_mesh_gameobject (armature s) = last_skinned (preorder rt) /\
  (forall j nj,
     preorder rt !! j = Some nj -> skinned nj = true ->
     (forall k nk, j < k -> preorder rt !! k = Some nk -> skinned nk = false) ->
     skinned_mesh_gameobject (armature s) = Some (m_GameObject nj)).
Proof.
  rewrite build_armature_calls. intros H.
  pose proof (visit_all_last_skinned _ _ _ (dfs_calls_wf rt) H) as Hl.
  rewrite dfs_calls_preorder in Hl. split; [done|].
  intros j nj Hj Hsk Hlater. rewrite Hl. unfold last_skinned.
  rewrite <- (take_drop_middle _ _ _ Hj), filter_app, filter_cons, decide_True by done.
  rewrite (filter_none _ (drop (S j) _)).
  - by rewrite last_snoc.
  - intros x [k Hk]%list_elem_of_lookup. rewrite lookup_drop in Hk.
    rewrite (Hlater (S j + k) x); [done|lia|done].
Qed.

(** ** The path of a Bone in closed form *)

Lemma str_bool_app a b : str_bool a = true -> str_bool (a +:+ b) = true.
Proof. by destruct a. Qed.

Lemma join_names_snoc names nm :
  join_names (names ++ [nm]) =
  match names with
  | [] => nm
  | _ :: _ => join_names names +:+ "/" +:+ nm
  end.
Proof.
  destruct names as [|x names]; [done|]. simpl. by rewrite fold_left_app.
Qed.

Lemma join_names_nonempty names :
  names <> [] -> Forall (fun nm => nm <> "") names -> str_bool (join_names names) = true.
Proof.
  destruct names as [|x names]; [done|]. intros _ Hall. simpl.
  apply Forall_cons in Hall as [Hx _].
  assert (str_bool x = true) as H by (by destruct x).
  clear Hx. revert x H. induction names as [|y names IH]; intros x H; simpl; [done|].
  apply IH. by apply str_bool_app.
Qed.

Lemma bone_chain_path (bs : list Bone) :
  (forall i b, bs !! i = Some b ->
     match parent b with None => i = 0 | Some q => q < i end) ->
  (forall i b, bs !! i = Some b ->
     global_path b = path_from_root_of bs (parent b) (name b)) ->
  forall fuel i b,
    i <= fuel -> bs !! i = Some b ->
    Forall (fun nm => nm <> "") (bone_chain bs fuel i) ->
    global_path b = join_names (bone_chain bs fuel i).
Proof.
  intros Hlt Hpath fuel. induction fuel as [|fuel IH]; intros i b Hi Hb Hne.
  - assert (i = 0) as -> by lia. simpl. rewrite (Hpath _ _ Hb).
    pose proof (Hlt _ _ Hb) as Hp. destruct (parent b); [lia|done].
  - simpl in *. rewrite Hb in *. rewrite (Hpath _ _ Hb).
    pose proof (Hlt _ _ Hb) as Hp. destruct (parent b) as [q|] eqn:Hq; [|done].
    destruct (lookup_lt_is_Some_2 bs q) as [bq Hbq];
      [apply lookup_lt_Some in Hb; lia|].
    apply Forall_app in Hne as [Hne _]. simpl.
    rewrite (list_lookup_total_correct _ _ _ Hbq), join_names_snoc.
    rewrite (IH q bq) by (done || lia).
    destruct (bone_chain bs fuel q) as [|x chain] eqn:Hc; [done|].
    by rewrite join_names_nonempty.
Qed.

Lemma bone_chain_depth (bs : list Bone) :
  (forall i b, bs !! i = Some b ->
     match parent b with None => i = 0 | Some q => q < i end) ->
  forall fuel i, i <= fuel -> i < length bs ->
    nth_ancestor bs (length (bone_chain bs fuel i)) i = Some 0.
Proof.
  intros Hlt fuel. induction fuel as [|fuel IH]; intros i Hi Hlen.
  - by assert (i = 0) as -> by lia.
  - destruct (lookup_lt_is_Some_2 bs i Hlen) as [b Hb]. simpl. rewrite Hb.
    pose proof (Hlt _ _ Hb) as Hp. destruct (parent b) as [q|] eqn:Hq.
    + rewrite length_app, Nat.add_1_r. simpl. rewrite Hb, Hq. apply IH; lia.
    + by subst i.
Qed.

(** X4. In a built armature the path of the root Bone is empty and the
    path of any other Bone is the names of the Bones on the way from the
    root's child down to it, joined by "/", as long as none of these
    names is empty: the name of the root transform is no part of it.
    The chain has one name per link between the Bone and the root. *)
Theorem X4_path_is_joined_names_below_root rt s i b :
  build_armature rt = Ok s -> bones s !! i = Some b ->
  Forall (fun nm => nm <> "") (bone_chain (bones s) i i) ->
  global_path b = join_names (bone_chain (bones s) i i) /\
  (i = 0 <-> bone_chain (bones s) i i = []) /\
  nth_ancestor (bones s) (length (bone_chain (bones s) i i)) i = Some 0.
Proof.
  intros Hs Hb Hne. destruct (build_links _ _ Hs) as (_ & _ & Hlt & _ & Hpath).
  split; [by apply bone_chain_path|]. split.
  - split; [by intros ->|]. destruct i as [|i]; [done|]. simpl. rewrite Hb.
    pose proof (Hlt _ _ Hb) as Hp. destruct (parent b); [|done].
    by intros ?%app_eq_nil%proj2.
  - apply bone_chain_depth; [done..|]. by apply lookup_lt_Some in Hb.
Qed.

(** ** The component that decides the descriptor *)

Lemma last_recognized_middle pre c post :
  is_Some (component_phy_type c) ->
  (forall c', c' ∈ post -> component_phy_type c' = None) ->
  last_recognized (pre ++ c :: post) = Some c.
Proof.
  intros Hc Hpost. unfold last_recognized.
  rewrite filter_app, filter_cons, decide_True by done.
  rewrite (filter_none _ post).
  - by rewrite last_snoc.
  - intros c' Hc' [ty Hty]. by rewrite (Hpost c' Hc') in Hty.
Qed.

(** X5. When the GameObject of a transform has several components of a
    recognized kind, the descriptor of its Bone is built from the last
    of them alone: it has the type of that component's script and that
    component's fields, and it names a pivot exactly when that component
    has a pivot node, which is then the name of the Bone registered
    under the pivot's path id. *)
Theorem X5_last_recognized_component_decides rt s i node b pre c post ty :
  build_armature rt = Ok s ->
  preorder rt !! i = Some node -> bones s !! i = Some b ->
  m_Components (m_GameObject node) = pre ++ c :: post ->
  component_phy_type c = Some ty ->
  (forall c', c' ∈ post -> component_phy_type c' = None) ->
  exists pv,
    physics b = Some (from_dict (read_typetree c) ty pv) /\
    match pivotNode (read_typetree c) with
    | Some pid => exists nm, pv = Some nm /\ pivot_name (preorder rt) i pid = Ok nm
    | None => pv = None
    end.
Proof.
  intros Hs Hnode Hb Hcomps Hty Hpost.
  pose proof (build_physics _ _ _ _ _ Hs Hnode Hb) as Hphy.
  apply scan_all_Ok in Hphy as [Hres Hphy].
  rewrite Hcomps, last_recognized_middle in Hphy by eauto.
  unfold descriptor in Hphy. rewrite Hty in Hphy.
  destruct (pivotNode (read_typetree c)) as [pid|] eqn:Hpid.
  - destruct (Hres c pid) as [nm Hnm]; [|eauto|done|].
    { rewrite Hcomps, elem_of_app. right. by left. }
    rewrite Hnm in Hphy. eauto.
  - eauto.
Qed.

(** ** The child lists follow the child lists of the transforms *)

Lemma filter_fmap_list {A B} (f : A -> B) (P : B -> Prop) `{!forall y, Decision (P y)}
    (l : list A) :
  filter P (f <$> l) = f <$> filter (fun x => P (f x)) l.
Proof.
  induction l as [|x l IH]; [done|]. csimpl. rewrite !filter_cons.
  destruct (decide (P (f x))); csimpl; by rewrite IH.
Qed.

Lemma call_kids_app l1 l2 q :
  call_kids (l1 ++ l2) q = call_kids l1 q ++ ((fun j => length l1 + j) <$> call_kids l2 q).
Proof.
  unfold call_kids. rewrite length_app, seq_app, filter_app. f_equal.
  - apply filter_ext_elem. intros j [_ Hj]%elem_of_seq. simpl in Hj.
    by rewrite lookup_app_l.
  - simpl.
    assert (seq (length l1) (length l2) = (fun j => length l1 + j) <$> seq 0 (length l2)) as ->.
    { rewrite fmap_add_seq. f_equal. lia. }
    rewrite filter_fmap_list. f_equal. apply filter_ext_elem. intros j _. simpl.
    rewrite lookup_app_r by lia. by replace (length l1 + j - length l1) with j by lia.
Qed.

Lemma call_kids_cons x l q :
  call_kids (x :: l) q =
  (if decide (x.2 = Some q) then [0] else []) ++ (S <$> call_kids l q).
Proof.
  change (x :: l) with ([x] ++ l). rewrite call_kids_app. f_equal.
  unfold call_kids. simpl. rewrite filter_cons, filter_nil. simpl.
  destruct (decide (x.2 = Some q)) as [->|Hne].
  - by rewrite decide_True.
  - rewrite decide_False; [done|]. by intros [= ?].
Qed.

Lemma call_kids_none l q :
  (forall j c, l !! j = Some c -> c.2 <> Some q) -> call_kids l q = [].
Proof.
  intros H. apply filter_none. intros j _ Hj.
  apply fmap_Some in Hj as (c & Hc & Hq). by apply (H j c).
Qed.

Lemma child_heads_fmap k next cs :
  (fun j => k + j) <$> child_heads next cs = child_heads (k + next) cs.
Proof.
  revert next. induction cs as [|c cs IH]; intros next; simpl; [done|].
  f_equal. rewrite IH. f_equal. lia.
Qed.

(** The calls under the children of the Bone [b]: those that receive [b]
    are the heads of the children's blocks. *)
Lemma calls_of_children_kids_head b cs next :
  b < next ->
  call_kids (calls_of_children dfs_calls b cs next) b = child_heads 0 cs.
Proof.
  revert next. induction cs as [|c cs IH]; intros next Hb; simpl; [done|].
  rewrite call_kids_app, dfs_calls_length, IH by lia.
  rewrite child_heads_fmap, Nat.add_0_r. simpl.
  assert (call_kids (dfs_calls c (Some b) next) b = [0]) as ->; [|done].
  destruct c as [pid fa go lp lr ls ccs]. cbn [dfs_calls m_Children].
  rewrite call_kids_cons, decide_True by done. rewrite call_kids_none; [done|].
  intros j [n p] Hj. simpl.
  eapply calls_of_children_parents in Hj as (q & -> & [->|Hq]).
  - intros [= ->]. lia.
  - intros [= ->]. lia.
  - apply Forall_forall. intros x _ parent base i node p0. apply dfs_calls_parents.
Qed.

Lemma calls_of_children_kids b cs next i n p :
  b < next ->
  Forall (fun c => forall par base i n p,
            (forall q, par = Some q -> q < base) ->
            dfs_calls c par base !! i = Some (n, p) ->
            call_kids (dfs_calls c par base) (base + i) = child_heads (S i) (m_Children n)) cs ->
  calls_of_children dfs_calls b cs next !! i = Some (n, p) ->
  call_kids (calls_of_children dfs_calls b cs next) (next + i) = child_heads (S i) (m_Children n).
Proof.
  intros Hb H. revert next Hb i. induction H as [|c cs Hc _ IH]; intros next Hb i; simpl; [done|].
  rewrite call_kids_app, dfs_calls_length.
  rewrite lookup_app_Some. intros [Hi|[Hlen Hi]].
  - pose proof (lookup_lt_Some _ _ _ Hi) as Hlt. rewrite dfs_calls_length in Hlt.
    assert (forall q, Some b = Some q -> q < next) as Hsome by (by intros q [= <-]).
    rewrite (Hc _ _ _ _ _ Hsome Hi).
    rewrite call_kids_none; [by rewrite app_nil_r|].
    intros j [n' p'] Hj. simpl.
    eapply calls_of_children_parents in Hj as (q & -> & [->|Hq]).
    + intros [= ->]. lia.
    + intros [= ->]. lia.
    + apply Forall_forall. intros x _ parent base i0 node p0. apply dfs_calls_parents.
  - rewrite dfs_calls_length in Hlen, Hi.
    rewrite call_kids_none.
    + simpl. replace (next + i) with (next + tree_size c + (i - tree_size c)) by lia.
      assert (b < next + tree_size c) as Hb' by lia.
      rewrite (IH _ Hb' _ Hi), child_heads_fmap. f_equal. lia.
    + intros j [n' p'] Hj. simpl.
      pose proof (lookup_lt_Some _ _ _ Hj) as Hlt. rewrite dfs_calls_length in Hlt.
      apply dfs_calls_parents in Hj as [[-> ->]|[? (q & -> & ?)]]; intros [= ->]; lia.
Qed.

Lemma dfs_calls_kids node par base i n p :
  (forall q, par = Some q -> q < base) ->
  dfs_calls node par base !! i = Some (n, p) ->
  call_kids (dfs_calls node par base) (base + i) = child_heads (S i) (m_Children n).
Proof.
  revert par base i n p. induction node as [node IH] using Transform_tree_ind.
  intros par base i n p Hpar. destruct node as [pid fa go lp lr ls cs]. simpl in IH.
  cbn [dfs_calls m_Children]. intros Hi.
  rewrite call_kids_cons. simpl.
  rewrite decide_False by (intros ->; specialize (Hpar _ eq_refl); lia).
  simpl. destruct i as [|i]; simpl in Hi.
  - injection Hi as <- <-. rewrite Nat.add_0_r, calls_of_children_kids_head by lia.
    by rewrite <- (child_heads_fmap 1 0).
  - replace (base + S i) with (S base + i) by lia.
    assert (base < S base) as Hb by lia.
    rewrite (calls_of_children_kids _ _ _ _ _ _ Hb IH Hi).
    by rewrite <- (child_heads_fmap 1 (S i)).
Qed.

Lemma child_heads_ge next cs h : h ∈ child_heads next cs -> next <= h.
Proof.
  revert next. induction cs as [|c cs IH]; intros next; simpl; [by intros ?%elem_of_nil|].
  intros [->|H%IH]%elem_of_cons; lia.
Qed.

Lemma child_heads_length next cs : length (child_heads next cs) = length cs.
Proof. revert next. induction cs as [|c cs IH]; intros next; simpl; [done|]. by rewrite IH. Qed.

(** The calls under each child are a block of the calls under the
    children, starting at the child's head. *)
Lemma calls_of_children_block b cs next :
  Forall2 (fun h c => next <= h /\
             forall k x, dfs_calls c (Some b) h !! k = Some x ->
                         calls_of_children dfs_calls b cs next !! (h - next + k) = Some x)
          (child_heads next cs) cs.
Proof.
  revert next. induction cs as [|c cs IH]; intros next; simpl; constructor.
  - split; [done|]. intros k x Hk. rewrite Nat.sub_diag. simpl. by apply lookup_app_l_Some.
  - eapply Forall2_impl; [apply IH|]. simpl. intros h c' [Hh Hblock]. split; [lia|].
    intros k x Hk. rewrite lookup_app_r; rewrite dfs_calls_length; [|lia].
    replace (h - next + k - tree_size c) with (h - (next + tree_size c) + k) by lia.
    by apply Hblock.
Qed.

(** The calls under a transform visited inside a traversal are a block
    of the calls of the traversal. *)
Lemma calls_of_children_sub b cs next i n p :
  Forall (fun c => forall par base i n p,
            dfs_calls c par base !! i = Some (n, p) ->
            forall k x, dfs_calls n p (base + i) !! k = Some x ->
                        dfs_calls c par base !! (i + k) = Some x) cs ->
  calls_of_children dfs_calls b cs next !! i = Some (n, p) ->
  forall k x, dfs_calls n p (next + i) !! k = Some x ->
              calls_of_children dfs_calls b cs next !! (i + k) = Some x.
Proof.
  intros H. revert next i. induction H as [|c cs Hc _ IH]; intros next i; simpl; [done|].
  rewrite lookup_app_Some. intros [Hi|[Hlen Hi]] k x Hk.
  - apply lookup_app_l_Some. by eapply Hc.
  - rewrite dfs_calls_length in Hlen, Hi.
    rewrite lookup_app_r; rewrite dfs_calls_length; [|lia].
    replace (i + k - tree_size c) with (i - tree_size c + k) by lia.
    apply (IH _ _ Hi).
    by replace (next + tree_size c + (i - tree_size c)) with (next + i) by lia.
Qed.

Lemma dfs_calls_sub node par base i n p :
  dfs_calls node par base !! i = Some (n, p) ->
  forall k x, dfs_calls n p (base + i) !! k = Some x ->
              dfs_calls node par base !! (i + k) = Some x.
Proof.
  revert par base i n p. induction node as [node IH] using Transform_tree_ind.
  intros par base i n p. destruct node as [pid fa go lp lr ls cs]. simpl in IH.
  destruct i as [|i].
  - cbn [dfs_calls m_Children]. simpl. intros [= <- <-] k x. by rewrite Nat.add_0_r.
  - cbn [dfs_calls m_Children]. simpl. intros Hi k x Hk.
    eapply calls_of_children_sub; [done..|].
    by replace (S base + i) with (base + S i) by lia.
Qed.

(** The children of the transform visited at [i] are visited at the
    positions [child_heads (S i)], each with its own calls after it. *)
Lemma dfs_calls_child_blocks node par base i n p :
  dfs_calls node par base !! i = Some (n, p) ->
  Forall2 (fun h c => i < h /\
             forall k x, dfs_calls c (Some (base + i)) (base + h) !! k = Some x ->
                         dfs_calls node par base !! (h + k) = Some x)
          (child_heads (S i) (m_Children n)) (m_Children n).
Proof.
  intros Hi. pose proof (dfs_calls_sub _ _ _ _ _ _ Hi) as Hsub.
  destruct n as [pid fa go lp lr ls cs]. cbn [dfs_calls m_Children] in *.
  pose proof (calls_of_children_block (base + i) cs (S (base + i))) as Hblocks.
  assert (child_heads (S (base + i)) cs = (fun j => base + j) <$> child_heads (S i) cs) as Heq
    by (rewrite child_heads_fmap; f_equal; lia).
  rewrite Heq in Hblocks. apply Forall2_fmap_l in Hblocks.
  eapply Forall2_impl; [exact Hblocks|]. simpl. intros h c [Hh Hblock]. split; [lia|].
  intros k x Hk. apply Hblock in Hk.
  replace (h + k) with (i + S (base + h - S (base + i) + k)) by lia.
  apply Hsub. done.
Qed.

Lemma child_refs_call_kids (bs : list Bone) l i :
  parent <$> bs = snd <$> l -> child_refs bs i = call_kids l i.
Proof.
  intros Hp. unfold child_refs, call_kids.
  assert (length bs = length l) as ->
    by (by rewrite <- (length_fmap parent), Hp, length_fmap).
  apply filter_ext_elem. intros j _. by rewrite <- !list_lookup_fmap, Hp.
Qed.

Lemma build_children rt s i n p b :
  build_armature rt = Ok s ->
  dfs_calls rt None 0 !! i = Some (n, p) -> bones s !! i = Some b ->
  children b = child_heads (S i) (m_Children n).
Proof.
  intros Hs Hc Hb. destruct (build_links _ _ Hs) as (_ & _ & _ & Hch & _).
  rewrite build_armature_calls in Hs.
  pose proof (visit_all_parents _ _ _ (dfs_calls_wf rt) Hs) as Hpar.
  rewrite (Hch _ _ Hb), (child_refs_call_kids _ _ _ Hpar).
  by apply (dfs_calls_kids rt None 0 i n p).
Qed.

(** X6. The child list of a Bone holds the Bones of the children of its
    transform, in the order of the transform's child list: the first
    child's Bone is the next one built, and each further child's Bone
    comes after the whole subtree of the child before it. *)
Theorem X6_children_in_transform_order rt s i node b :
  build_armature rt = Ok s ->
  preorder rt !! i = Some node -> bones s !! i = Some b ->
  children b = child_heads (S i) (m_Children node) /\
  Forall2 (fun j c => i < j /\ preorder rt !! j = Some c) (children b) (m_Children node).
Proof.
  intros Hs Hnode Hb.
  rewrite <- (dfs_calls_preorder rt None 0), list_lookup_fmap in Hnode.
  apply fmap_Some in Hnode as ([n p] & Hc & ->). simpl.
  pose proof (build_children _ _ _ _ _ _ Hs Hc Hb) as Hch. split; [done|].
  rewrite Hch. eapply Forall2_impl; [apply (dfs_calls_child_blocks _ _ _ _ _ _ Hc)|].
  simpl. intros h c [Hh Hblock]. split; [done|].
  rewrite <- (dfs_calls_preorder rt None 0), list_lookup_fmap.
  specialize (Hblock 0 (c, Some i)). rewrite Nat.add_0_r in Hblock.
  rewrite Hblock; [done|]. by destruct c.
Qed.

(** ** The tree under the root Bone *)

Lemma take_add_drop {A} (l : list A) n m :
  take (n + m) l = take n l ++ take m (drop n l).
Proof.
  revert l. induction n as [|n IH]; intros l; simpl; [by rewrite drop_0|].
  destruct l as [|x l]; simpl; [by rewrite take_nil|]. by rewrite IH.
Qed.

Lemma take_drop_cons {A} (l : list A) a x n :
  l !! a = Some x -> take (S n) (drop a l) = x :: take n (drop (S a) l).
Proof. intros H. by rewrite (drop_S _ _ _ H). Qed.

Section TreeOfStore.
Context (rt : Transform) (bs : list Bone).
Hypothesis Hlen : length bs = tree_size rt.
Hypothesis Hkids : forall i n p b,
  dfs_calls rt None 0 !! i = Some (n, p) -> bs !! i = Some b ->
  children b = child_heads (S i) (m_Children n).

Lemma bone_tree_children fuel b0 next cs :
  Forall2 (fun h c => forall k x, dfs_calls c (Some b0) h !! k = Some x ->
                                  dfs_calls rt None 0 !! (h + k) = Some x)
          (child_heads next cs) cs ->
  Forall (fun c => forall par a fuel,
            (forall k x, dfs_calls c par a !! k = Some x ->
                         dfs_calls rt None 0 !! (a + k) = Some x) ->
            tree_size c <= fuel ->
            tree_bones (bone_tree fuel bs a) = take (tree_size c) (drop a bs)) cs ->
  list_sum (map tree_size cs) <= fuel ->
  flat_map tree_bones (map (bone_tree fuel bs) (child_heads next cs)) =
  take (list_sum (map tree_size cs)) (drop next bs).
Proof.
  revert next. induction cs as [|c cs IH]; intros next Hblocks Hall Hfuel; simpl in *.
  - by rewrite take_0.
  - apply Forall2_cons in Hblocks as [Hc Hblocks]. apply Forall_cons in Hall as [Hc' Hall].
    rewrite take_add_drop, drop_drop. f_equal.
    + apply (Hc' (Some b0)); [done|lia].
    + apply IH; [done|done|lia].
Qed.

Lemma bone_tree_block node :
  forall par a fuel,
    (forall k x, dfs_calls node par a !! k = Some x ->
                 dfs_calls rt None 0 !! (a + k) = Some x) ->
    tree_size node <= fuel ->
    tree_bones (bone_tree fuel bs a) = take (tree_size node) (drop a bs).
Proof.
  induction node as [node IH] using Transform_tree_ind. intros par a fuel Hemb Hfuel.
  assert (dfs_calls rt None 0 !! a = Some (node, par)) as Ha.
  { rewrite <- (Nat.add_0_r a). apply Hemb. by destruct node. }
  destruct (lookup_lt_is_Some_2 bs a) as [b Hb].
  { apply lookup_lt_Some in Ha. rewrite dfs_calls_length in Ha. lia. }
  pose proof (Hkids _ _ _ _ Ha Hb) as Hch.
  pose proof (dfs_calls_child_blocks _ _ _ _ _ _ Ha) as Hblocks.
  destruct node as [pid fa go lp lr ls cs]. cbn [tree_size m_Children] in *.
  destruct fuel as [|fuel]; [lia|]. cbn [bone_tree].
  rewrite (list_lookup_total_correct _ _ _ Hb), Hch. cbn [tree_bones bt_bone bt_children].
  rewrite (take_drop_cons _ _ _ _ Hb). f_equal.
  apply (bone_tree_children fuel a); [|done|lia].
  eapply Forall2_impl; [exact Hblocks|]. simpl. intros h c [_ H]. exact H.
Qed.

End TreeOfStore.

(** X7. The tree that unfolds from the root Bone of a built armature
    through the child lists holds exactly the Bones of the armature, each
    once and in the order in which they were built: a depth-first
    traversal from the root Bone visits the Bones in the order of the
    transforms. *)
Theorem X7_tree_from_root_enumerates_bones rt s fuel :
  build_armature rt = Ok s -> length (bones s) <= fuel ->
  root (armature s) = Some 0 /\
  tree_bones (bone_tree fuel (bones s) 0) = bones s.
Proof.
  intros Hs Hfuel. destruct (build_links _ _ Hs) as (Hroot & _). split; [done|].
  assert (length (bones s) = tree_size rt) as Hlen.
  { pose proof Hs as H. rewrite build_armature_calls in H.
    apply visit_all_bones_length in H. by rewrite dfs_calls_length in H. }
  rewrite (bone_tree_block rt (bones s) Hlen (fun i n p b => build_children rt s i n p b Hs)
             rt None 0 fuel); [|done|lia].
  by rewrite drop_0, <- Hlen, firstn_all.
Qed.

(** ** The roots are processed independently *)

Lemma search_env_meshes_Ok_iff env statics arms :
  search_env_meshes env = Ok (statics, arms) <->
  statics = static_meshes env /\
  exists states,
    Forall2 (fun root s => build_armature root = Ok s) (transform_roots env) states /\
    arms = returned <$>
           filter (fun s => is_Some (skinned_mesh_gameobject (armature s))) states.
Proof.
  split; [apply search_env_meshes_Ok|].
  intros (-> & states & Hst & ->). unfold search_env_meshes. rewrite collect_objects. simpl.
  assert (forall acc,
    for_each (fun root armatures =>
                let! s := build_armature root in
                match skinned_mesh_gameobject (armature s) with
                | Some _ => Ok (armatures ++ [(armature s, bones s)])
                | None => Ok armatures
                end) (transform_roots env) acc
    = Ok (acc ++ (returned <$>
            filter (fun s => is_Some (skinned_mesh_gameobject (armature s))) states))) as Hloop.
  { induction Hst as [|rt s roots states Hs _ IH]; intros acc; simpl.
    - by rewrite app_nil_r.
    - rewrite Hs. simpl.
      destruct (skinned_mesh_gameobject (armature s)) as [go|] eqn:Hsk; simpl.
      + rewrite IH, filter_cons_True by (rewrite Hsk; eauto).
        by rewrite fmap_cons, <- app_assoc.
      + rewrite IH, filter_cons_False by (rewrite Hsk; by intros [? ?]). done. }
  by rewrite Hloop.
Qed.

(** X8. The result for two environments put one after the other is the
    two results put one after the other: the search returns on the whole
    exactly when it returns on both parts, with the static meshes and the
    armatures of the first part followed by those of the second. No table
    or Bone is shared between two root transforms. *)
Theorem X8_environments_compose env1 env2 statics arms :
  search_env_meshes (env1 ++ env2) = Ok (statics, arms) <->
  exists statics1 arms1 statics2 arms2,
    search_env_meshes env1 = Ok (statics1, arms1) /\
    search_env_meshes env2 = Ok (statics2, arms2) /\
    statics = statics1 ++ statics2 /\ arms = arms1 ++ arms2.
Proof.
  assert (static_meshes (env1 ++ env2) = static_meshes env1 ++ static_meshes env2) as Hst
    by apply omap_app.
  assert (transform_roots (env1 ++ env2) = transform_roots env1 ++ transform_roots env2) as Hrt
    by apply omap_app.
  split.
  - intros (-> & states & Hall & ->)%search_env_meshes_Ok_iff. rewrite Hrt in Hall.
    apply Forall2_app_inv_l in Hall as (states1 & states2 & H1 & H2 & ->).
    eexists _, _, _, _. split_and!.
    + apply search_env_meshes_Ok_iff. split; [done|]. by exists states1.
    + apply search_env_meshes_Ok_iff. split; [done|]. by exists states2.
    + done.
    + by rewrite filter_app, fmap_app.
  - intros (statics1 & arms1 & statics2 & arms2 & H1 & H2 & -> & ->).
    apply search_env_meshes_Ok_iff in H1 as (-> & states1 & Hall1 & ->).
    apply search_env_meshes_Ok_iff in H2 as (-> & states2 & Hall2 & ->).
    apply search_env_meshes_Ok_iff. split; [done|]. exists (states1 ++ states2).
    rewrite Hrt. split; [by apply Forall2_app|]. by rewrite filter_app, fmap_app.
Qed.

End MoreBoneGraph.

(** * Further properties of the physics rig *)

Section MorePhysicsRig.
Context {F : FloatOps} {N : HostNames}.

Lemma Forall2_zip_snd {A B C} (P : A -> B * C -> Prop) (l : list A) (k1 : list B)
    (k2 : list C) :
  length k1 = length k2 -> Forall2 P l (zip k1 k2) ->
  Forall2 (fun x z => exists y, P x (y, z)) l k2.
Proof.
  revert k1 k2. induction l as [|x l IH]; intros [|y k1] [|z k2]; simpl; try done;
    intros Hlen H; try (by apply Forall2_length in H).
  apply Forall2_cons in H as [H1 H2]. constructor; [by exists y|].
  apply (IH k1); [lia|done].
Qed.

(** X9. A run that returns adds one passive, kinematic rigid body for
    each Bone of the located tree whose descriptor is a sphere or capsule
    collider, in traversal order and without looking for an existing
    one: it is parented to its bone; a sphere has half the descriptor's
    radius, a capsule is a cylinder of the descriptor's radius and
    height. No other passive body is added. *)
Theorem X9_one_collider_per_collider_bone armature data_root h h' bone :
  import_armature_physics_constraints armature data_root h = Ok h' ->
  recursive_locate_by_name data_root "Position" = Some bone ->
  colliders (new_objects h h') = omap bone_collider (tree_bones bone).
Proof. intros Hrun Hloc. by destruct (import_located _ _ _ _ _ Hrun Hloc). Qed.

(** X10. A run that returns adds one spring-bone joint and one
    COPY_TRANSFORMS pose constraint for each spring Bone of the located
    tree, in traversal order, whether its rigid bodies were created or
    found: the constraint is on the pose bone of the Bone's name and
    targets the target body of the joint, and the joint connects the
    first object of the pivot's name to the first object of the target's
    name, for each of the two names that has at most 63 bytes. *)
Theorem X10_one_joint_and_constraint_per_spring_bone armature data_root h h' bone :
  import_armature_physics_constraints armature data_root h = Ok h' ->
  recursive_locate_by_name data_root "Position" = Some bone ->
  length (spring_joints (new_objects h h')) = length (spring_bones (tree_bones bone)) /\
  new_pose_constraints h h' =
    zip (name <$> spring_bones (tree_bones bone)) (spring_joints (new_objects h h')).*2 /\
  Forall2 (fun child jt =>
             exists phy, spring_physics child = Some phy /\
               (String.length (get_rb_name armature (pivot phy) true) <= 63 ->
                scene_lookup (get_rb_name armature (pivot phy) true) (objects h')
                  = Some jt.1) /\
               (String.length (get_rb_name armature (Some (name child)) false) <= 63 ->
                scene_lookup (get_rb_name armature (Some (name child)) false) (objects h')
                  = Some jt.2))
          (spring_bones (tree_bones bone)) (spring_joints (new_objects h h')).
Proof.
  intros Hrun Hloc.
  destruct (import_located _ _ _ _ _ Hrun Hloc) as (_ & Hp & cts & _ & Hlen & Hj).
  apply Forall2_zip_snd in Hj; [|done].
  split_and!; try done.
  - symmetry. by eapply Forall2_length.
  - eapply Forall2_impl; [exact Hj|].
    intros child jt (ct & phy & Hphy & _ & H1 & H2). by exists phy.
Qed.

(** ** When the run raises and when it returns *)

Lemma for_each_raises {A S} (body : A -> S -> Result S) xs x s :
  x ∈ xs -> (forall s, exists e, body x s = Raise e) ->
  exists e, for_each body xs s = Raise e.
Proof.
  intros Hx Hbody. revert s. induction Hx as [x xs|x y xs Hx IH]; intros s; simpl.
  - destruct (Hbody s) as [e ->]. eauto.
  - destruct (body y s) as [s1|e]; simpl; eauto.
Qed.

Lemma map_bone_raises armature item phy st :
  spring_physics item.1.2 = Some phy ->
  pose_bones armature !! name item.1.2 = None ->
  exists e, map_bone armature item st = Raise e.
Proof.
  unfold spring_physics, map_bone. destruct (physics item.1.2) as [phy'|]; [|done].
  destruct (decide (phy_type phy' = BonePhysicsType.SpringBone)) as [Hty|]; [|done].
  intros _ Hnone. rewrite Hty. simpl. unfold add_spring_bone.
  destruct (ensure_bone_rigidbody _ _ true _ _) as [[p st1]|e]; [|eauto].
  destruct (ensure_bone_rigidbody _ _ false _ _) as [[t st2]|e]; [|eauto].
  rewrite Hnone. eauto.
Qed.

(** X11. The run raises whenever the located tree has a spring Bone for
    which the armature object has no pose bone of the same name, whatever
    the scene holds. *)
Theorem X11_spring_bone_without_pose_bone_raises armature data_root h bone child phy :
  recursive_locate_by_name data_root "Position" = Some bone ->
  child ∈ tree_bones bone ->
  spring_physics child = Some phy ->
  pose_bones armature !! name child = None ->
  exists e, import_armature_physics_constraints armature data_root h = Raise e.
Proof.
  intros Hloc Hchild Hphy Hnone. unfold import_armature_physics_constraints.
  rewrite Hloc. simpl.
  rewrite <- (dfs_generator_from_bones None 0 bone) in Hchild.
  apply list_elem_of_fmap in Hchild as (item & -> & Hitem).
  match goal with |- context [for_each ?body ?xs ?s] =>
    destruct (for_each_raises body xs item s Hitem) as [e ->] end; [|simpl; eauto].
  intros s. by eapply map_bone_raises.
Qed.

Lemma ensure_total armature bn is_pivot r st :
  (is_pivot = false -> is_Some (pose_bones armature !! bn)) ->
  exists obj st', ensure_bone_rigidbody armature (Some bn) is_pivot r st = Ok (obj, st').
Proof.
  intros Hpose. unfold ensure_bone_rigidbody.
  destruct (scene_lookup _ _); [eauto|]. destruct is_pivot; [eauto|].
  destruct Hpose as [m ->]; eauto.
Qed.

Lemma map_bone_total armature item st :
  (forall phy, spring_physics item.1.2 = Some phy ->
     is_Some (pivot phy) /\ is_Some (pose_bones armature !! name item.1.2)) ->
  exists st', map_bone armature item st = Ok st'.
Proof.
  unfold spring_physics, map_bone. destruct (physics item.1.2) as [phy|]; [|eauto].
  intros Hall.
  destruct (BonePhysicsType.has_flag _ BonePhysicsType.Bone); [|eauto].
  destruct (decide (phy_type phy = BonePhysicsType.SpringBone)) as [Hty|]; [|eauto].
  destruct (Hall phy eq_refl) as [[pv Hpv] Hpose]. unfold add_spring_bone. rewrite Hpv.
  match goal with |- context [ensure_bone_rigidbody _ _ true ?r ?s] =>
    destruct (ensure_total armature pv true r s) as (p & st1 & ->); [done|] end.
  match goal with |- context [ensure_bone_rigidbody _ _ false ?r ?s] =>
    destruct (ensure_total armature (name item.1.2) false r s) as (t & st2 & ->); [done|] end.
  destruct Hpose as [m ->]. eauto.
Qed.

(** X12. The run returns whenever every spring Bone of the located tree
    names a pivot and has a pose bone of its own name in the armature
    object, whatever the scene holds; and it returns when no Bone is
    located. *)
Theorem X12_run_returns_when_spring_bones_are_posed armature data_root h :
  (forall bone child phy,
     recursive_locate_by_name data_root "Position" = Some bone ->
     child ∈ tree_bones bone -> spring_physics child = Some phy ->
     is_Some (pivot phy) /\ is_Some (pose_bones armature !! name child)) ->
  exists h', import_armature_physics_constraints armature data_root h = Ok h'.
Proof.
  intros Hall. unfold import_armature_physics_constraints.
  assert (exists st, map_bones armature (recursive_locate_by_name data_root "Position")
            {| host := object_mode h; target_rigid_bodies := [] |} = Ok st) as [st Hst].
  { destruct (recursive_locate_by_name data_root "Position") as [bone|] eqn:Hloc; [|simpl; eauto].
    simpl. specialize (Hall bone).
    assert (forall item, item ∈ dfs_generator bone -> forall phy,
              spring_physics item.1.2 = Some phy ->
              is_Some (pivot phy) /\ is_Some (pose_bones armature !! name item.1.2)) as Hitems.
    { intros item Hitem phy Hphy. apply (Hall item.1.2 phy); [done| |done].
      rewrite <- (dfs_generator_from_bones None 0 bone).
      by apply (list_elem_of_fmap_2 (fun item => item.1.2)). }
    clear Hall. generalize (object_mode h). intros h0.
    generalize (@nil (string * nat)). intros tg.
    generalize dependent (dfs_generator bone). intros items.
    revert h0 tg. induction items as [|item items IH]; intros h0 tg Hitems; simpl; [eauto|].
    destruct (map_bone_total armature item {| host := h0; target_rigid_bodies := tg |})
      as [[h1 tg1] ->]; [apply Hitems; left|]. simpl.
    apply IH. intros it Hit. apply Hitems. by right. }
  unfold object_mode in Hst. rewrite Hst. simpl.
  destruct (target_rigid_bodies st); eauto.
Qed.

(** ** Running the mapper again *)

Lemma map_bone_posed armature item st st' phy :
  map_bone armature item st = Ok st' -> spring_physics item.1.2 = Some phy ->
  is_Some (pose_bones armature !! name item.1.2).
Proof.
  intros Hrun Hphy. destruct (pose_bones armature !! name item.1.2) eqn:E; [eauto|].
  destruct (map_bone_raises armature item phy st Hphy E) as [e He]. congruence.
Qed.

Lemma map_bones_posed armature items item st st' phy :
  for_each (map_bone armature) items st = Ok st' -> item ∈ items ->
  spring_physics item.1.2 = Some phy ->
  is_Some (pose_bones armature !! name item.1.2).
Proof.
  intros Hrun Hitem Hphy. destruct (pose_bones armature !! name item.1.2) eqn:E; [eauto|].
  destruct (for_each_raises (map_bone armature) items item st Hitem) as [e He]; [|congruence].
  intros s. by eapply map_bone_raises.
Qed.

(** A step on a scene that holds the bodies of the bone creates none. *)
Lemma map_bone_again armature item st :
  (forall phy, spring_physics item.1.2 = Some phy ->
     is_Some (scene_lookup (get_rb_name armature (pivot phy) true) (objects (host st))) /\
     is_Some (scene_lookup (get_rb_name armature (Some (name item.1.2)) false)
                           (objects (host st))) /\
     is_Some (pose_bones armature !! name item.1.2)) ->
  exists st' news,
    map_bone armature item st = Ok st' /\
    target_rigid_bodies st' = target_rigid_bodies st /\
    objects (host st') = objects (host st) ++ news /\
    Forall (fun o => bone_body o = false /\ link_of o = None) news.
Proof.
  unfold spring_physics, map_bone. destruct (physics item.1.2) as [phy|] eqn:Hphy.
  2:{ intros _. exists st, []. by rewrite app_nil_r. }
  intros Hall.
  destruct (BonePhysicsType.has_flag (phy_type phy) BonePhysicsType.Collider) eqn:Hc.
  - destruct (add_collider_exact item.1.2 phy (host st) Hphy Hc)
      as (news & Ho & _ & _ & _ & _ & Hnews).
    assert (BonePhysicsType.has_flag (phy_type phy) BonePhysicsType.Bone = false) as ->
      by (by destruct (phy_type phy)).
    eexists _, news. split; [reflexivity|]. by split_and!.
  - destruct (BonePhysicsType.has_flag (phy_type phy) BonePhysicsType.Bone).
    2:{ exists st, []. by rewrite app_nil_r. }
    destruct (decide (phy_type phy = BonePhysicsType.SpringBone)) as [Hty|Hty].
    2:{ exists st, []. by rewrite app_nil_r. }
    destruct (Hall phy eq_refl) as ([p Hp] & [t Ht] & [m Hm]).
    unfold add_spring_bone.
    rewrite (ensure_found _ _ _ _ _ _ Hp), (ensure_found _ _ _ _ _ _ Ht), Hm.
    eexists _, [_]. split; [reflexivity|]. split_and!; try done. by repeat constructor.
Qed.

Lemma map_bones_again armature items st :
  (forall item phy, item ∈ items -> spring_physics item.1.2 = Some phy ->
     is_Some (scene_lookup (get_rb_name armature (pivot phy) true) (objects (host st))) /\
     is_Some (scene_lookup (get_rb_name armature (Some (name item.1.2)) false)
                           (objects (host st))) /\
     is_Some (pose_bones armature !! name item.1.2)) ->
  exists st' news,
    for_each (map_bone armature) items st = Ok st' /\
    target_rigid_bodies st' = target_rigid_bodies st /\
    objects (host st') = objects (host st) ++ news /\
    Forall (fun o => bone_body o = false /\ link_of o = None) news.
Proof.
  revert st. induction items as [|item items IH]; intros st Hall; simpl.
  - exists st, []. by rewrite app_nil_r.
  - destruct (map_bone_again armature item st) as (st1 & news1 & -> & Htg1 & Hn1 & Hb1).
    { intros phy. apply Hall. left. }
    simpl. destruct (IH st1) as (st' & news & -> & Htg & Hn & Hb).
    { intros it phy Hit Hphy. destruct (Hall it phy) as ([p Hp] & [t Ht] & Hm);
        [by right|done|]. rewrite Hn1.
      rewrite (scene_lookup_app_l _ _ _ _ Hp), (scene_lookup_app_l _ _ _ _ Ht). eauto. }
    exists st', (news1 ++ news). split; [done|]. split; [congruence|].
    split; [by rewrite Hn, Hn1, app_assoc|]. by apply Forall_app.
Qed.

(** X13. After a run that returns, a second run on the resulting scene
    with the same armature returns too, and it creates no rigid body of
    a bone and no no-collision link, when the pivot and target names of
    the spring Bones of the located tree have at most 63 bytes: every
    pivot and target body is then found by its name. (It adds its
    colliders, spring-bone joints and pose constraints once more.) *)
Theorem X13_second_run_creates_no_bone_body armature data_root h h' :
  import_armature_physics_constraints armature data_root h = Ok h' ->
  (forall bone child phy,
     recursive_locate_by_name data_root "Position" = Some bone ->
     child ∈ tree_bones bone -> spring_physics child = Some phy ->
     String.length (get_rb_name armature (pivot phy) true) <= 63 /\
     String.length (get_rb_name armature (Some (name child)) false) <= 63) ->
  exists h'',
    import_armature_physics_constraints armature data_root h' = Ok h'' /\
    Forall (fun o => bone_body o = false) (new_objects h' h'') /\
    no_collision_links (new_objects h' h'') = [].
Proof.
  intros Hrun Hshort.
  assert (exists st news,
    map_bones armature (recursive_locate_by_name data_root "Position")
      {| host := object_mode h'; target_rigid_bodies := [] |} = Ok st /\
    target_rigid_bodies st = [] /\
    objects (host st) = objects h' ++ news /\
    Forall (fun o => bone_body o = false /\ link_of o = None) news)
    as (st & news & Hst & Htg & Hn & Hnews).
  { destruct (recursive_locate_by_name data_root "Position") as [bone|] eqn:Hloc.
    2:{ eexists _, []. simpl. split; [reflexivity|]. by rewrite app_nil_r. }
    simpl. apply map_bones_again. simpl. intros item phy Hitem Hphy.
    destruct (import_located _ _ _ _ _ Hrun Hloc) as (_ & _ & cts & _ & _ & Hj).
    pose proof Hrun as (st0 & news0 & joints0 & Hmap & _)%import_run.
    rewrite Hloc in Hmap. simpl in Hmap.
    assert (item.1.2 ∈ tree_bones bone) as Hin.
    { rewrite <- (dfs_generator_from_bones None 0 bone).
      by apply (list_elem_of_fmap_2 (fun item => item.1.2)). }
    destruct (Hshort bone item.1.2 phy eq_refl Hin Hphy) as [Hlp Hlt].
    assert (item.1.2 ∈ spring_bones (tree_bones bone)) as [k Hk]%list_elem_of_lookup.
    { apply list_elem_of_filter. split; [eauto|done]. }
    destruct (Forall2_lookup_l _ _ _ _ _ Hj Hk) as (jt & _ & phy' & Hphy' & _ & Hp & Ht).
    rewrite Hphy in Hphy'. injection Hphy' as <-.
    split_and!; [rewrite Hp by done; eauto|rewrite Ht by done; eauto|].
    by eapply map_bones_posed. }
  exists (host st). unfold import_armature_physics_constraints.
  unfold object_mode in Hst. rewrite Hst. simpl. rewrite Htg. split; [done|].
  unfold new_objects. rewrite Hn, drop_app_length. split.
  - eapply Forall_impl; [exact Hnews|]. by intros o [? _].
  - apply no_collision_links_none. eapply Forall_impl; [exact Hnews|]. by intros o [_ ?].
Qed.

(** ** The names of the rigid bodies *)



End MorePhysicsRig.

(** * The animation clips and the mesh set-up *)

Section MoreImports.
Context {F : FloatOps}.

Lemma collect_clips {Data} (asset : list (ObjectReader Data)) (acc : list Data) :
  fold_left (fun animations obj =>
               let data := reader_read obj in
               if decide (reader_type obj = ClassIDType.AnimationClip)
               then animations ++ [data] else animations) asset acc
  = acc ++ (reader_read <$> filter animation_clip asset).
Proof.
  revert acc. induction asset as [|obj asset IH]; intros acc; simpl.
  - by rewrite app_nil_r.
  - rewrite IH, filter_cons. unfold animation_clip at 2.
    destruct (decide (reader_type obj = ClassIDType.AnimationClip)); [|done].
    by rewrite <- app_assoc.
Qed.

Lemma collect_assets {Data} (assets : list (list (ObjectReader Data))) (acc : list Data) :
  fold_left (fun animations asset =>
     fold_left (fun animations obj =>
               let data := reader_read obj in
               if decide (reader_type obj = ClassIDType.AnimationClip)
               then animations ++ [data] else animations) asset animations) assets acc
  = acc ++ (reader_read <$> filter animation_clip (asset_objects assets)).
Proof.
  revert acc. induction assets as [|asset assets IH]; intros acc; simpl.
  - by rewrite app_nil_r.
  - rewrite IH, collect_clips. unfold asset_objects. simpl.
    by rewrite filter_app, fmap_app, app_assoc.
Qed.

(** X15. [search_env_animations] returns what reading gives for the
    objects of type AnimationClip, in the order of the assets and of the
    objects within each asset, one entry per object (nothing is merged or
    dropped); so the clips of two lists of assets searched together are
    the clips of the first followed by those of the second. *)
Theorem X15_animation_clips_in_asset_order {Data} (assets assets' : list (list (ObjectReader Data))) :
  search_env_animations assets = reader_read <$> filter animation_clip (asset_objects assets) /\
  search_env_animations (assets ++ assets') =
    search_env_animations assets ++ search_env_animations assets'.
Proof.
  assert (forall l : list (list (ObjectReader Data)),
            search_env_animations l = reader_read <$> filter animation_clip (asset_objects l)) as H.
  { intros l. exact (collect_assets l []). }
  split; [apply H|]. rewrite !H. unfold asset_objects.
  by rewrite concat_app, filter_app, fmap_app.
Qed.

(** ** [import_mesh] *)

Lemma new_vertex_groups_Done bs tbl hashes groups :
  (forall k, k ∈ hashes -> is_Some (tbl !! k)) ->
  exists news,
    new_vertex_groups bs (Some tbl) hashes groups = Done (groups ++ news) /\
    Forall2 (fun k g => exists m, tbl !! k = Some m /\ g = name (bs !!! m)) hashes news.
Proof.
  revert groups. induction hashes as [|k hashes IH]; intros groups Hall; simpl.
  - exists []. rewrite app_nil_r. split; [done|constructor].
  - destruct (Hall k) as [m Hm]; [left|]. rewrite Hm.
    destruct (IH (groups ++ [name (bs !!! m)])) as (news & -> & Hnews).
    { intros k' Hk'. apply Hall. by right. }
    exists (name (bs !!! m) :: news). rewrite <- app_assoc. split; [done|].
    constructor; [eauto|done].
Qed.

Lemma new_vertex_groups_Failed bs tbl pre k post groups :
  (forall k', k' ∈ pre -> is_Some (tbl !! k')) -> tbl !! k = None ->
  new_vertex_groups bs (Some tbl) (pre ++ k :: post) groups = Failed (BoneHashKeyError k).
Proof.
  revert groups. induction pre as [|k0 pre IH]; intros groups Hall Hk; simpl.
  - by rewrite Hk.
  - destruct (Hall k0) as [m ->]; [left|]. apply IH; [|done].
    intros k' Hk'. apply Hall. by right.
Qed.

(** X16. A mesh with no vertex cannot be imported: the function raises
    the division by zero before it looks at the bones or at the geometry.
    For a skinned mesh with vertices, imported with the path-hash index
    of a built armature: when every bone hash of the mesh is the path
    hash of a Bone of the armature, the function reaches the geometry
    having asked for one vertex group per bone hash, in order, each
    under the name of a Bone whose path has that hash, and with the table
    of the index's hashes to Bone names; otherwise the first bone hash
    that is the path hash of no Bone raises the KeyError of that hash. *)
Theorem X16_vertex_groups_resolve_through_path_hashes {R}
    (geometry : Mesh -> MeshSetup -> MeshResult R) rt s nm data :
  build_armature rt = Ok s ->
  (m_VertexCount data = 0 ->
   forall skinned bone_path_tbl,
     import_mesh geometry (bones s) nm data skinned bone_path_tbl = Failed ZeroDivisionError) /\
  (m_VertexCount data <> 0 ->
   ((forall k, k ∈ m_BoneNameHashes data ->
       exists b, b ∈ bones s /\ get_name_hash (global_path b) = k) ->
    exists setup,
      import_mesh geometry (bones s) nm data true (Some (bone_path_hash_tbl (armature s)))
        = geometry data setup /\
      Forall2 (fun k g => exists b, b ∈ bones s /\ get_name_hash (global_path b) = k /\
                                    name b = g)
              (m_BoneNameHashes data) (vertex_groups setup) /\
      bone_name_hash_tbl setup =
        Some ((fun m => name (bones s !!! m)) <$> bone_path_hash_tbl (armature s))) /\
   (forall pre k post,
      m_BoneNameHashes data = pre ++ k :: post ->
      (forall k', k' ∈ pre -> exists b, b ∈ bones s /\ get_name_hash (global_path b) = k') ->
      (forall b, b ∈ bones s -> get_name_hash (global_path b) <> k) ->
      import_mesh geometry (bones s) nm data true (Some (bone_path_hash_tbl (armature s)))
        = Failed (BoneHashKeyError k))).
Proof.
  intros Hs. split.
  { intros H skinned tbl. unfold import_mesh, floats_per_vertex. by rewrite H. }
  intros Hcount. destruct (build_tables _ _ Hs) as [_ Hh].
  assert (forall k, is_Some (bone_path_hash_tbl (armature s) !! k) <->
                    exists b, b ∈ bones s /\ get_name_hash (global_path b) = k) as Hkey.
  { intros k. rewrite Hh, last_index_fmap, last_index_is_Some. split.
    - intros (j & b & Hb & Hk%bool_decide_eq_true). exists b. split; [|done].
      by eapply list_elem_of_lookup_2.
    - intros (b & [j Hj]%list_elem_of_lookup & Hk). exists j, b. split; [done|].
      by apply bool_decide_eq_true. }
  assert (forall k m, bone_path_hash_tbl (armature s) !! k = Some m ->
            exists b, bones s !! m = Some b /\ get_name_hash (global_path b) = k) as Hval.
  { intros k m. rewrite Hh, last_index_fmap.
    intros [(b & Hb & Hk%bool_decide_eq_true) _]%last_index_Some. eauto. }
  unfold import_mesh, floats_per_vertex.
  apply Nat.eqb_neq in Hcount. rewrite Hcount. simpl. split.
  - intros Hall.
    destruct (new_vertex_groups_Done (bones s) (bone_path_hash_tbl (armature s))
                (m_BoneNameHashes data) []) as (groups & -> & Hg).
    { intros k Hk. by apply Hkey, Hall. }
    simpl. eexists. split; [reflexivity|]. simpl. split; [|done].
    eapply Forall2_impl; [exact Hg|]. simpl. intros k g (m & Hm & ->).
    destruct (Hval _ _ Hm) as (b & Hb & Hk). exists b.
    split_and!; [by eapply list_elem_of_lookup_2|done|].
    by rewrite (list_lookup_total_correct _ _ _ Hb).
  - intros pre k post -> Hpre Hk.
    rewrite (new_vertex_groups_Failed _ _ pre k post); [done| |].
    + intros k' Hk'. by apply Hkey, Hpre.
    + destruct (bone_path_hash_tbl (armature s) !! k) as [m|] eqn:E; [|done].
      destruct (Hval _ _ E) as (b & Hb & Hkb). exfalso.
      apply (Hk b); [by eapply list_elem_of_lookup_2|done].
Qed.

End MoreImports.

(** * The claims at the sample rig *)

Lemma sample_search :
  search_env_meshes sample_env = Ok ([sample_stage], [(sample_armature, sample_bones)]).
Proof. vm_compute. reflexivity. Qed.

Lemma sample_build : build_armature sample_rig = Ok sample_state.
Proof. vm_compute. reflexivity. Qed.

(** The examples of the physics rig run on the sample host. *)
#[global] Existing Instance sample_names.

Lemma sample_import :
  import_armature_physics_constraints sample_object sample_tree empty_scene = Ok sample_scene.
Proof. vm_compute. reflexivity. Qed.

Lemma sample_located :
  recursive_locate_by_name sample_tree "Position" = Some sample_position_tree.
Proof. vm_compute. reflexivity. Qed.

(** The claim C1 as it is written fails on the forest of its own
    scenario: the root Bone, named Position, has the empty path, the Hips
    have the path ["Hips"], and the hash of ["Position"] is not a key of
    [bone_path_hash_tbl]. *)
Lemma C1_counterexample :
  exists arm bs b0 b1,
    search_env_meshes (F := sample_floats) position_hips_spine = Ok ([], [(arm, bs)]) /\
    root arm = Some 0 /\ bs !! 0 = Some b0 /\ bs !! 1 = Some b1 /\
    name b0 = "Position" /\ global_path b0 <> name b0 /\
    parent b1 = Some 0 /\ global_path b1 <> global_path b0 +:+ "/" +:+ name b1 /\
    global_path b1 <> "Position/Hips" /\
    bone_path_hash_tbl arm !! get_name_hash "Position" = None /\
    dom (bone_path_hash_tbl arm)
      <> {[get_name_hash "Position"; get_name_hash "Position/Hips";
           get_name_hash "Position/Hips/Spine"]}.
Proof.
  eexists _, _, _, _. split; [vm_compute; reflexivity|].
  split; [reflexivity|]. split; [reflexivity|]. split; [reflexivity|].
  split; [reflexivity|]. split; [vm_compute; discriminate|].
  split; [reflexivity|]. split; [vm_compute; discriminate|].
  split; [vm_compute; discriminate|]. split; [vm_compute; reflexivity|].
  intros H.
  apply (f_equal (fun keys => bool_decide (get_name_hash "Position" ∈ keys))) in H.
  vm_compute in H. discriminate H.
Qed.

Lemma C1_witness :
  search_env_meshes sample_env = Ok ([sample_stage], [(sample_armature, sample_bones)]) /\
  (sample_armature, sample_bones) ∈ [(sample_armature, sample_bones)] /\
  exists r b, root sample_armature = Some r /\ sample_bones !! r = Some b /\
              global_path b = "".
Proof.
  assert ((sample_armature, sample_bones) ∈ [(sample_armature, sample_bones)]) as Hin
    by (apply list_elem_of_singleton; reflexivity).
  split; [exact sample_search|]. split; [exact Hin|].
  exact (proj1 (proj1 (@C1_path_from_root_relative_to_root sample_floats)
                  sample_env _ _ sample_armature sample_bones sample_search Hin)).
Defined.

Lemma C2_witness :
  search_env_meshes sample_env = Ok ([sample_stage], [(sample_armature, sample_bones)]) /\
  (sample_armature, sample_bones) ∈ [(sample_armature, sample_bones)] /\
  nth_ancestor sample_bones 2 4 <> Some 4 /\
  exists bq, sample_bones !! 2 = Some bq /\ 5 ∈ children bq /\ NoDup (children bq).
Proof.
  assert ((sample_armature, sample_bones) ∈ [(sample_armature, sample_bones)]) as Hin
    by (apply list_elem_of_singleton; reflexivity).
  split; [exact sample_search|]. split; [exact Hin|].
  destruct (@C2_armature_is_one_rooted_tree sample_floats sample_env _ _
              sample_armature sample_bones sample_search Hin)
    as (_ & Hacyclic & Hchild & _).
  split; [apply Hacyclic; lia|].
  assert (exists b5, sample_bones !! 5 = Some b5 /\ parent b5 = Some 2) as (b5 & Hb5 & Hp5)
    by (eexists; split; vm_compute; reflexivity).
  destruct (Hchild 5 b5 2 Hb5 Hp5) as (bq & Hq & Hin5 & Hnd & _).
  exists bq. split_and!; assumption.
Defined.

Lemma C3_witness :
  search_env_meshes sample_env = Ok ([sample_stage], [(sample_armature, sample_bones)]) /\
  Forall2 (fun rt a => exists s, build_armature rt = Ok s /\ a = returned s)
          (filter (fun rt => skinned_subtree rt = true) (transform_roots sample_env))
          [(sample_armature, sample_bones)].
Proof.
  split; [exact sample_search|].
  exact (proj1 (@C3_armature_iff_skinned_descendant sample_floats sample_env _ _
                  sample_search)).
Defined.

Lemma sample_spring_recognized r pv :
  recognized (sample_script "SekaiSpringBone" r pv).
Proof.
  split; [reflexivity|]. exists {| script_name := "SekaiSpringBone" |}.
  split; [reflexivity|]. simpl. unfold recognized_scripts.
  rewrite !elem_of_cons. tauto.
Qed.

Lemma C4_witness :
  (exists j nodej bj,
     j < 3 /\ preorder sample_rig !! j = Some nodej /\ path_id nodej = 3%Z /\
     sample_bones !! j = Some bj /\ name bj = m_Name (m_GameObject nodej)) /\
  (exists k, build_armature sample_bad_rig = Raise (PathIdKeyError k)).
Proof.
  split.
  - destruct (@C4_pivot_resolves_to_earlier_bone sample_floats sample_rig 3
                (sample_transform 4 3 "HairA" None
                   [sample_script "SekaiSpringBone" (1 # 1) (Some 3%Z)]
                   [sample_transform 5 4 "End" None [] []])
                (sample_script "SekaiSpringBone" (1 # 1) (Some 3%Z)) 3%Z)
      as [Hok _].
    + vm_compute. reflexivity.
    + apply list_elem_of_singleton. reflexivity.
    + apply sample_spring_recognized.
    + reflexivity.
    + assert (exists b3, bones sample_state !! 3 = Some b3) as [b3 Hb3]
        by (eexists; vm_compute; reflexivity).
      destruct (Hok sample_state b3 sample_build Hb3)
        as (j & nodej & bj & Hj & Hnode & Hpid & _ & Hbj & Hnm & _).
      exists j, nodej, bj. split_and!; assumption.
  - apply (@C4_pivot_resolves_to_earlier_bone sample_floats sample_bad_rig 1
             (sample_transform 2 1 "Tail" None
                [sample_script "SekaiSpringBone" (1 # 1) (Some 3%Z)] [])
             (sample_script "SekaiSpringBone" (1 # 1) (Some 3%Z)) 3%Z).
    + vm_compute. reflexivity.
    + apply list_elem_of_singleton. reflexivity.
    + apply sample_spring_recognized.
    + reflexivity.
    + intros j nodej Hj Hnode. assert (j = 0) as -> by lia.
      vm_compute in Hnode. injection Hnode as <-. vm_compute. discriminate.
Defined.

Lemma C5_witness :
  build_armature sample_rig = Ok sample_state /\
  exists node b,
    preorder sample_rig !! 7 = Some node /\ sample_bones !! 7 = Some b /\
    (is_Some (physics b) <->
     exists c, c ∈ m_Components (m_GameObject node) /\ recognized c).
Proof.
  split; [exact sample_build|].
  assert (exists node, preorder sample_rig !! 7 = Some node) as [node Hnode]
    by (eexists; vm_compute; reflexivity).
  assert (exists b, sample_bones !! 7 = Some b) as [b Hb]
    by (eexists; vm_compute; reflexivity).
  exists node, b. split; [exact Hnode|]. split; [exact Hb|].
  exact (proj1 (@C5_descriptor_iff_recognized_script sample_floats sample_rig)
           sample_state 7 node b sample_build Hnode Hb).
Defined.

Lemma C10_witness :
  build_armature sample_rig = Ok sample_state /\
  exists b4 b6,
    sample_bones !! 4 = Some b4 /\ sample_bones !! 6 = Some b6 /\
    name b4 = name b6 /\
    bone_name_tbl sample_armature !! name b4 <> Some 4.
Proof.
  split; [exact sample_build|].
  assert (exists b4 b6, sample_bones !! 4 = Some b4 /\ sample_bones !! 6 = Some b6 /\
                        name b4 = name b6) as (b4 & b6 & H4 & H6 & Hnm)
    by (eexists _, _; split; [|split]; vm_compute; reflexivity).
  exists b4, b6. split; [exact H4|]. split; [exact H6|]. split; [exact Hnm|].
  destruct (proj1 (@C10_later_bone_overwrites_index sample_floats sample_rig)
              sample_state sample_build) as (_ & _ & _ & Hover).
  assert (4 < 6) as Hlt by lia.
  exact (proj1 (Hover 4 6 b4 b6 Hlt H4 H6) Hnm).
Defined.


(** The claim C7 as it is written fails on a scene that already holds a
    target body: the sample rig has three spring bones, whose joints
    connect three distinct target rigid bodies, but the target body of
    HairA is found, not created, and the run links only the two bodies it
    created: one link, not three. *)
Lemma C7_counterexample :
  length (spring_bones (tree_bones sample_position_tree)) = 3 /\
  scene_lookup (get_rb_name sample_object (Some "HairA") false)
               (objects sample_stale_scene) = Some 1 /\
  exists h' : @Host sample_floats,
    import_armature_physics_constraints sample_object sample_tree sample_stale_scene
      = Ok h' /\
    (spring_joints (new_objects sample_stale_scene h')).*2 = [1; 5; 8] /\
    Forall (fun i => target_body (F := sample_floats) <$> objects h' !! i = Some true)
           [1; 5; 8] /\
    no_collision_links (new_objects sample_stale_scene h') = [(5, 8)] /\
    length (no_collision_links (new_objects sample_stale_scene h')) <> 3 * (3 - 1) / 2.
Proof.
  split; [vm_compute; reflexivity|]. split; [vm_compute; reflexivity|].
  eexists. split; [vm_compute; reflexivity|].
  split; [vm_compute; reflexivity|]. split; [by repeat constructor|].
  split; [vm_compute; reflexivity|]. vm_compute. discriminate.
Qed.

Lemma C7_witness :
  import_armature_physics_constraints sample_object sample_tree empty_scene
    = Ok sample_scene /\
  no_collision_links (new_objects empty_scene sample_scene)
    = all_pairs (new_target_refs 0 (objects sample_scene)) /\
  length (no_collision_links (new_objects empty_scene sample_scene)) = 3.
Proof.
  split; [exact sample_import|].
  destruct (proj1 (@C7_one_no_collision_link_per_pair_of_created_targets
                     sample_floats sample_names)
              sample_object sample_tree empty_scene sample_scene sample_import)
    as (Hlinks & _ & _ & _ & _ & _ & H3).
  split; [exact Hlinks|]. apply H3. reflexivity.
Defined.


Lemma C9_witness :
  (forall b, b ∈ tree_bones sample_prop_tree -> name b <> "Position") /\
  import_armature_physics_constraints sample_object sample_prop_tree sample_scene
    = Ok (object_mode sample_scene) /\
  objects (object_mode sample_scene) = objects sample_scene.
Proof.
  assert (forall b, b ∈ tree_bones sample_prop_tree -> name b <> "Position") as Hnone.
  { intros b Hb. vm_compute in Hb.
    repeat (apply elem_of_cons in Hb as [->|Hb]; [vm_compute; discriminate|]).
    by apply elem_of_nil in Hb. }
  split; [exact Hnone|].
  destruct (@C9_no_root_bone_no_physics sample_floats sample_names sample_object
              sample_prop_tree sample_scene Hnone) as (Hrun & Hobjs & _).
  split; [exact Hrun|exact Hobjs].
Defined.

(** * The further properties at the sample rig *)

Lemma X1_witness :
  (exists statics arms, search_env_meshes sample_env = Ok (statics, arms)) /\
  exists j nodej, j < 3 /\ preorder sample_rig !! j = Some nodej /\ path_id nodej = 3%Z.
Proof.
  assert (exists statics arms, search_env_meshes sample_env = Ok (statics, arms)) as Hex
    by (eexists _, _; exact sample_search).
  split; [exact Hex|].
  apply (proj1 (@X1_search_returns_iff_pivots_resolve sample_floats sample_env) Hex
           sample_rig 3 sample_hair_a sample_hair_script 3%Z).
  - apply (list_elem_of_lookup_2 _ 0). vm_compute. reflexivity.
  - vm_compute. reflexivity.
  - apply list_elem_of_singleton. reflexivity.
  - apply sample_spring_recognized.
  - reflexivity.
Defined.

Lemma X2_witness :
  build_armature sample_rig = Ok sample_state /\
  length (bones sample_state) = length (preorder sample_rig).
Proof.
  split; [exact sample_build|].
  exact (proj1 (@X2_one_bone_per_transform sample_floats sample_rig sample_state sample_build)).
Defined.

Lemma X3_witness :
  build_armature sample_rig = Ok sample_state /\
  skinned_mesh_gameobject (armature sample_state) = last_skinned (preorder sample_rig).
Proof.
  split; [exact sample_build|].
  exact (proj1 (@X3_last_skinned_mesh_wins sample_floats sample_rig sample_state sample_build)).
Defined.

Lemma X4_witness :
  build_armature sample_rig = Ok sample_state /\
  exists b, bones sample_state !! 4 = Some b /\
    Forall (fun nm => nm <> "") (bone_chain (bones sample_state) 4 4) /\
    global_path b = join_names (bone_chain (bones sample_state) 4 4).
Proof.
  split; [exact sample_build|].
  assert (exists b, bones sample_state !! 4 = Some b) as [b Hb]
    by (eexists; vm_compute; reflexivity).
  assert (Forall (fun nm => nm <> "") (bone_chain (bones sample_state) 4 4)) as Hne
    by (vm_compute; repeat (constructor; [discriminate|]); constructor).
  exists b. split; [exact Hb|]. split; [exact Hne|].
  exact (proj1 (@X4_path_is_joined_names_below_root sample_floats sample_rig sample_state 4 b
                  sample_build Hb Hne)).
Defined.

Lemma X5_witness :
  build_armature sample_rig = Ok sample_state /\
  exists b pv,
    bones sample_state !! 7 = Some b /\
    physics b = Some (from_dict (sample_fields (1 # 1) (Some 2%Z))
                                BonePhysicsType.SpringBone pv).
Proof.
  split; [exact sample_build|].
  assert (exists b, bones sample_state !! 7 = Some b) as [b Hb]
    by (eexists; vm_compute; reflexivity).
  destruct (@X5_last_recognized_component_decides sample_floats sample_rig sample_state 7
              sample_hair_c b [] (sample_script "SekaiSpringBone" (1 # 1) (Some 2%Z))
              [sample_script "CameraShake" (1 # 1) None] BonePhysicsType.SpringBone)
    as (pv & Hphy & _).
  - exact sample_build.
  - vm_compute. reflexivity.
  - exact Hb.
  - reflexivity.
  - reflexivity.
  - intros c' Hc'. apply list_elem_of_singleton in Hc'. rewrite Hc'. reflexivity.
  - exists b, pv. split; [exact Hb|exact Hphy].
Defined.

Lemma X9_witness :
  import_armature_physics_constraints sample_object sample_tree empty_scene = Ok sample_scene /\
  recursive_locate_by_name sample_tree "Position" = Some sample_position_tree /\
  colliders (new_objects empty_scene sample_scene)
    = omap bone_collider (tree_bones sample_position_tree).
Proof.
  split; [exact sample_import|]. split; [exact sample_located|].
  exact (@X9_one_collider_per_collider_bone sample_floats sample_names sample_object sample_tree
           empty_scene sample_scene sample_position_tree sample_import sample_located).
Defined.

Lemma X10_witness :
  import_armature_physics_constraints sample_object sample_tree empty_scene = Ok sample_scene /\
  recursive_locate_by_name sample_tree "Position" = Some sample_position_tree /\
  length (spring_joints (new_objects empty_scene sample_scene))
    = length (spring_bones (tree_bones sample_position_tree)) /\
  new_pose_constraints empty_scene sample_scene
    = zip (name <$> spring_bones (tree_bones sample_position_tree))
          (spring_joints (new_objects empty_scene sample_scene)).*2.
Proof.
  split; [exact sample_import|]. split; [exact sample_located|].
  destruct (@X10_one_joint_and_constraint_per_spring_bone sample_floats sample_names
              sample_object sample_tree empty_scene sample_scene sample_position_tree
              sample_import sample_located) as (Hlen & Hpose & _).
  split; [exact Hlen|exact Hpose].
Defined.

Lemma X11_witness :
  exists e, import_armature_physics_constraints sample_object_unposed sample_tree empty_scene
            = Raise e.
Proof.
  assert (exists child phy,
            tree_bones sample_position_tree !! 2 = Some child /\
            spring_physics child = Some phy /\
            pose_bones sample_object_unposed !! name child = None)
    as (child & phy & Hchild & Hphy & Hnone)
    by (eexists _, _; split; [|split]; vm_compute; reflexivity).
  apply (@X11_spring_bone_without_pose_bone_raises sample_floats sample_names sample_object_unposed
           sample_tree empty_scene sample_position_tree child phy).
  - exact sample_located.
  - exact (list_elem_of_lookup_2 _ _ _ Hchild).
  - exact Hphy.
  - exact Hnone.
Defined.

Lemma X12_witness :
  exists h', import_armature_physics_constraints sample_object sample_tree empty_scene = Ok h'.
Proof.
  apply (@X12_run_returns_when_spring_bones_are_posed sample_floats sample_names sample_object sample_tree
           empty_scene).
  intros bone child phy Hloc Hchild Hphy.
  rewrite sample_located in Hloc. injection Hloc as <-.
  assert (Forall (fun child => forall phy, spring_physics child = Some phy ->
                    is_Some (pivot phy) /\
                    is_Some (pose_bones sample_object !! name child))
                 (tree_bones sample_position_tree)) as Hall.
  { vm_compute tree_bones.
    repeat (constructor;
            [intros phy' Hphy'; vm_compute in Hphy';
             first [discriminate Hphy'
                   |injection Hphy' as <-; split; eexists; vm_compute; reflexivity]|]).
    constructor. }
  exact (proj1 (Forall_forall _ _) Hall child Hchild phy Hphy).
Defined.

Lemma X13_witness :
  import_armature_physics_constraints sample_object sample_tree empty_scene = Ok sample_scene /\
  exists h'',
    import_armature_physics_constraints sample_object sample_tree sample_scene = Ok h'' /\
    Forall (fun o => bone_body o = false) (new_objects sample_scene h'') /\
    no_collision_links (new_objects sample_scene h'') = [].
Proof.
  split; [exact sample_import|].
  apply (@X13_second_run_creates_no_bone_body sample_floats sample_names sample_object
           sample_tree empty_scene sample_scene sample_import).
  intros bone child phy Hloc Hchild Hphy.
  rewrite sample_located in Hloc. injection Hloc as <-.
  assert (Forall (fun child => forall phy, spring_physics child = Some phy ->
                    String.length (get_rb_name sample_object (pivot phy) true) <= 63 /\
                    String.length (get_rb_name sample_object (Some (name child)) false) <= 63)
                 (tree_bones sample_position_tree)) as Hall.
  { vm_compute tree_bones.
    repeat (constructor;
            [intros phy' Hphy'; vm_compute in Hphy';
             first [discriminate Hphy'
                   |injection Hphy' as <-; split; vm_compute; lia]|]).
    constructor. }
  exact (proj1 (Forall_forall _ _) Hall child Hchild phy Hphy).
Defined.


Lemma X6_witness :
  build_armature sample_rig = Ok sample_state /\
  exists node b,
    preorder sample_rig !! 2 = Some node /\ bones sample_state !! 2 = Some b /\
    children b = child_heads 3 (m_Children node) /\ children b = [3; 5; 7; 8].
Proof.
  split; [exact sample_build|].
  assert (exists node b, preorder sample_rig !! 2 = Some node /\
            bones sample_state !! 2 = Some b /\ children b = [3; 5; 7; 8])
    as (node & b & Hnode & Hb & Hch)
    by (eexists _, _; split; [|split]; vm_compute; reflexivity).
  exists node, b. split; [exact Hnode|]. split; [exact Hb|]. split; [|exact Hch].
  exact (proj1 (@X6_children_in_transform_order sample_floats sample_rig sample_state 2
                  node b sample_build Hnode Hb)).
Defined.

Lemma X7_witness :
  build_armature sample_rig = Ok sample_state /\
  length (bones sample_state) <= 9 /\
  tree_bones (bone_tree 9 (bones sample_state) 0) = bones sample_state.
Proof.
  assert (length (bones sample_state) <= 9) as Hlen by (vm_compute; lia).
  split; [exact sample_build|]. split; [exact Hlen|].
  exact (proj2 (@X7_tree_from_root_enumerates_bones sample_floats sample_rig sample_state 9
                  sample_build Hlen)).
Defined.

Lemma X15_witness :
  search_env_animations sample_assets
    = reader_read <$> filter animation_clip (asset_objects sample_assets) /\
  search_env_animations sample_assets = ["walk"; "run"].
Proof.
  split; [|vm_compute; reflexivity].
  exact (proj1 (@X15_animation_clips_in_asset_order string sample_assets [])).
Defined.

Lemma X16_witness :
  build_armature sample_rig = Ok sample_state /\
  m_VertexCount sample_empty_mesh = 0 /\
  import_mesh sample_geometry (bones sample_state) "Empty" sample_empty_mesh true None
    = Failed ZeroDivisionError /\
  m_VertexCount sample_mesh <> 0 /\
  exists setup,
    import_mesh sample_geometry (bones sample_state) "Body" sample_mesh true
      (Some (bone_path_hash_tbl (armature sample_state))) = sample_geometry sample_mesh setup /\
    Forall2 (fun k g => exists b, b ∈ bones sample_state /\
                          get_name_hash (global_path b) = k /\ name b = g)
            (m_BoneNameHashes sample_mesh) (vertex_groups setup).
Proof.
  split; [exact sample_build|].
  assert (m_VertexCount sample_empty_mesh = 0) as Hzero by reflexivity.
  split; [exact Hzero|].
  split; [exact (proj1 (@X16_vertex_groups_resolve_through_path_hashes sample_floats MeshSetup
                          sample_geometry sample_rig sample_state "Empty" sample_empty_mesh
                          sample_build) Hzero true None)|].
  assert (m_VertexCount sample_mesh <> 0) as Hcount by (vm_compute; lia).
  split; [exact Hcount|].
  destruct (proj1 (proj2 (@X16_vertex_groups_resolve_through_path_hashes sample_floats
                     MeshSetup sample_geometry sample_rig sample_state "Body" sample_mesh
                     sample_build) Hcount))
    as (setup & Hrun & Hgroups & _).
  - intros k Hk.
    assert (exists b2 b3, bones sample_state !! 2 = Some b2 /\ bones sample_state !! 3 = Some b3 /\
              get_name_hash (global_path b2) = get_name_hash "Position/Hips" /\
              get_name_hash (global_path b3) = get_name_hash "Position/Hips/HairA")
      as (b2 & b3 & H2 & H3 & Hh2 & Hh3)
      by (eexists _, _; split; [|split; [|split]]; vm_compute; reflexivity).
    apply elem_of_cons in Hk as [->|Hk].
    + exists b2. split; [exact (list_elem_of_lookup_2 _ _ _ H2)|exact Hh2].
    + apply list_elem_of_singleton in Hk as ->.
      exists b3. split; [exact (list_elem_of_lookup_2 _ _ _ H3)|exact Hh3].
  - exists setup. split; [exact Hrun|exact Hgroups].
Defined.

Lemma X8_witness :
  search_env_meshes ([ObjGameObject sample_stage; ObjTransform sample_rig]
                     ++ [ObjOther ClassIDType.AnimationClip; ObjTransform sample_prop])
  = Ok ([sample_stage] ++ [], [(sample_armature, sample_bones)] ++ []).
Proof.
  apply (proj2 (@X8_environments_compose sample_floats
                  [ObjGameObject sample_stage; ObjTransform sample_rig]
                  [ObjOther ClassIDType.AnimationClip; ObjTransform sample_prop]
                  ([sample_stage] ++ []) ([(sample_armature, sample_bones)] ++ []))).
  exists [sample_stage], [(sample_armature, sample_bones)], [], [].
  split; [vm_compute; reflexivity|]. split; [vm_compute; reflexivity|].
  split; reflexivity.
Defined.
